(** * Snitch cluster generator (util/clustergen/cluster.py)

    A shallow embedding of the configuration compiler of the Snitch
    cluster generator, and the properties of it that the specification
    states.  Python integers are [Z], [str] is [string], [dict] and [set]
    with hashable keys are [gmap] and [gset], objects with fixed keys
    are records, and code that can raise is written in an error monad
    (with the mutated object threaded through where the code mutates
    one in place). *)

From Stdlib Require Import ZArith Lia Ascii String List HexString.
From stdpp Require Import base option list strings gmap fin_maps fin_sets pretty.

#[local] Set Warnings "-clear-no-such-hyp".

Local Open Scope string_scope.
Local Open Scope Z_scope.
Local Open Scope list_scope.

(** ** Python values and exceptions *)

(** The exceptions that the embedded code can raise.  [SystemExit] is
    what [exit(...)] raises. *)
Inductive exn : Type :=
| ValueError (msg : string)
| ZeroDivisionError
| KeyError (key : string)
| AttributeError (name : string)
| IndexError
| ValidationError
| SystemExit (msg : string).

(** The outcome of a call: a returned value or a raised exception. *)
Inductive result (A : Type) : Type :=
| Ok (a : A)
| Raise (e : exn).
Arguments Ok {A} a.
Arguments Raise {A} e.

#[global] Instance result_ret : MRet result := λ A a, Ok a.
#[global] Instance result_bind : MBind result := λ A B k r,
  match r with
  | Ok a => k a
  | Raise e => Raise e
  end.

Definition is_ok {A} (r : result A) : bool :=
  match r with Ok _ => true | Raise _ => false end.

(** [a // b] and [a % b] on Python integers: floor division and the
    remainder with the sign of the divisor, [ZeroDivisionError] for a
    zero divisor.  [Z.div] and [Z.modulo] are the same floor pair. *)
Definition floordiv (a b : Z) : result Z :=
  if b =? 0 then Raise ZeroDivisionError else Ok (a / b).

Definition pymod (a b : Z) : result Z :=
  if b =? 0 then Raise ZeroDivisionError else Ok (a mod b).

(** [clog2(x) = int(ceil(log2(x)))].  [math.log2] raises [ValueError]
    outside its domain; on a positive integer the ceiling of the
    logarithm is [Z.log2_up].  The source takes the logarithm in double
    precision: it is exact on the powers of two, but just above a large
    power of two it rounds down to the integer, so that the source
    returns one less than the ceiling there (49 at [2^49 + 1]).  The
    definition is the source on the range [log2_exact] below, and a
    statement about the value of a logarithm carries this range as a
    hypothesis. *)
Definition clog2 (x : Z) : result Z :=
  if x <=? 0 then Raise (ValueError "math domain error")
  else Ok (Z.log2_up x).

(** [is_pow2(x) = (2**clog2(x) != x)]: despite its name the function
    answers whether [x] is NOT a power of two. *)
Definition is_pow2 (x : Z) : result bool :=
  c ← clog2 x; Ok (negb (2 ^ c =? x)).

(** ** ISA strings *)

Module RiscvISA.
(** The dataclass has six boolean fields, all [False] by default.  An
    instance is an ordinary object, so [setattr] with any other name
    adds an attribute to it; [others] lists those names (each one was
    set to [True]). *)
Record t : Type := Build {
  i : bool; e : bool; m : bool; a : bool; f : bool; d : bool;
  others : list string
}.

Definition default : t :=
  {| i := false; e := false; m := false; a := false; f := false;
     d := false; others := [] |}.

(** [setattr(isa, name, True)] *)
Definition setattr_true (isa : t) (name : string) : t :=
  if String.eqb name "i" then
    {| i := true; e := e isa; m := m isa; a := a isa; f := f isa; d := d isa; others := others isa |}
  else if String.eqb name "e" then
    {| i := i isa; e := true; m := m isa; a := a isa; f := f isa; d := d isa; others := others isa |}
  else if String.eqb name "m" then
    {| i := i isa; e := e isa; m := true; a := a isa; f := f isa; d := d isa; others := others isa |}
  else if String.eqb name "a" then
    {| i := i isa; e := e isa; m := m isa; a := true; f := f isa; d := d isa; others := others isa |}
  else if String.eqb name "f" then
    {| i := i isa; e := e isa; m := m isa; a := a isa; f := true; d := d isa; others := others isa |}
  else if String.eqb name "d" then
    {| i := i isa; e := e isa; m := m isa; a := a isa; f := f isa; d := true; others := others isa |}
  else
    {| i := i isa; e := e isa; m := m isa; a := a isa; f := f isa; d := d isa;
       others := if bool_decide (name ∈ others isa) then others isa
                 else others isa ++ [name] |}.
End RiscvISA.

(** The line feed, the one character that [$] lets follow the match. *)
Definition LF : ascii := ascii_of_nat 10.

(** [(i|e)]: the base token. *)
Definition is_base (c : ascii) : bool :=
  Ascii.eqb c "i" || Ascii.eqb c "e".

(** [[m|a|f|d]]: a character class, so the bar is a member of it like
    the four letters. *)
Definition in_ext_class (c : ascii) : bool :=
  Ascii.eqb c "m" || Ascii.eqb c "|" || Ascii.eqb c "a" ||
  Ascii.eqb c "f" || Ascii.eqb c "d".

(** The greedy star over a character class: the longest prefix in the
    class, and what is left. *)
Fixpoint span_class (p : ascii → bool) (s : string) : string * string :=
  match s with
  | EmptyString => (EmptyString, EmptyString)
  | String c rest =>
      if p c then
        let '(taken, remaining) := span_class p rest in (String c taken, remaining)
      else (EmptyString, s)
  end.

(** [$] without [re.MULTILINE]: the end of the string, or just before a
    line feed that ends the string. *)
Definition at_dollar (s : string) : bool :=
  match s with
  | EmptyString => true
  | String c EmptyString => Ascii.eqb c LF
  | _ => false
  end.

(** [s.startswith(p)] with the remainder. *)
Fixpoint strip_prefix (p s : string) : option string :=
  match p, s with
  | EmptyString, _ => Some s
  | String a p', String b s' => if Ascii.eqb a b then strip_prefix p' s' else None
  | String _ _, EmptyString => None
  end.

(** [RiscvISA.isa_string.match(s)]: the pattern is [^rv32], the group
    [(i|e)], a second group that is the class [[m|a|f|d]] under a
    star, and [$].  The result is the two groups of the match, if any.
    The star is followed by [$] only and the line feed is outside the
    class, so the one way to match is for the star to take every
    character of the class. *)
Definition isa_string_match (s : string) : option (string * string) :=
  match strip_prefix "rv32" s with
  | Some (String c rest) =>
      if is_base c then
        let '(g2, remaining) := span_class in_ext_class rest in
        if at_dollar remaining then Some (String c EmptyString, g2) else None
      else None
  | _ => None
  end.

(** [str.lower()] on the characters of the pattern's alphabet. *)
Definition lower_ascii (c : ascii) : ascii :=
  let n := nat_of_ascii c in
  if (65 <=? n)%nat && (n <=? 90)%nat then ascii_of_nat (n + 32) else c.

Fixpoint lower (s : string) : string :=
  match s with
  | EmptyString => EmptyString
  | String c rest => String (lower_ascii c) (lower rest)
  end.

(** The characters of a string, one string each, as iterating a [str]
    gives them. *)
Fixpoint chars (s : string) : list string :=
  match s with
  | EmptyString => []
  | String c rest => String c EmptyString :: chars rest
  end.

(** [parse_isa_string(s)].  The first statement evaluates [s.lower()]
    and drops the result: strings are immutable, [s] stays what it was. *)
Definition parse_isa_string (s : string) : result RiscvISA.t :=
  let _ := lower s in
  let isa := RiscvISA.default in
  match isa_string_match s with
  | Some (g1, g2) =>
      let isa := RiscvISA.setattr_true isa g1 in
      let isa :=
        if String.eqb g2 "" then isa
        else fold_left RiscvISA.setattr_true (chars g2) isa in
      Ok isa
  | None => Raise (ValueError "Illegal ISA string.")
  end.

(** ** Physical memory attributes *)

Inductive PMA : Type :=
| ATOMIC            (* Region supports atomics *)
| CACHED            (* Region is cached *)
| EXECUTE           (* Region is execute *)
| NON_IDEMPOTENT.   (* Region is non-idempotent *)

#[global] Instance PMA_eq_dec : EqDecision PMA.
Proof. solve_decision. Defined.

Definition region : Type := PMA * Z * Z.

Record PMACfg : Type := { regions : list region }.

(** [PMACfg()] *)
Definition PMACfg_init : PMACfg := {| regions := [] |}.

(** [self.regions.append((pma, base, mask))] *)
Definition add_region (self : PMACfg) (pma : PMA) (base mask : Z) : PMACfg :=
  {| regions := regions self ++ [(pma, base, mask)] |}.

(** ** The cluster configuration document

    The document that [SnitchCluster] works on is a [dict] with the
    keys of the cluster schema.  Keys that the generator itself adds
    ([depth], [pkg_name], [pmas], [hive], [isa_parsed], [nr_hives],
    [nr_cores], [cores]) are optional: [None] is the absent key. *)

Record core_cfg : Type := {
  isa : string;
  hive : option Z;
  isa_parsed : option RiscvISA.t
}.

Record icache_cfg : Type := {
  icache_size : Z;
  icache_sets : Z;
  icache_cacheline : Z;
  icache_depth : option Z
}.

Record hive_cfg : Type := {
  icache : icache_cfg;
  hive_cores : list core_cfg
}.

Record tcdm_cfg : Type := {
  tcdm_size : Z;
  tcdm_banks : Z;
  tcdm_depth : option Z
}.

Record pmas_cfg : Type := { cached : list (Z * Z) }.

Record cluster_cfg : Type := {
  name : string;
  pkg_name : option string;
  addr_width : Z;
  data_width : Z;
  dma_data_width : Z;
  cluster_base_addr : Z;
  tie_ports : bool;
  tcdm : tcdm_cfg;
  hives : list hive_cfg;
  pmas : option pmas_cfg;
  nr_hives : option Z;
  nr_cores : option Z;
  cores : option (list core_cfg)
}.

(** Assignments to one key of the document. *)
Definition set_tcdm_depth (v : Z) (c : cluster_cfg) : cluster_cfg :=
  {| name := name c; pkg_name := pkg_name c; addr_width := addr_width c;
     data_width := data_width c; dma_data_width := dma_data_width c;
     cluster_base_addr := cluster_base_addr c; tie_ports := tie_ports c;
     tcdm := {| tcdm_size := tcdm_size (tcdm c); tcdm_banks := tcdm_banks (tcdm c);
                tcdm_depth := Some v |};
     hives := hives c; pmas := pmas c; nr_hives := nr_hives c;
     nr_cores := nr_cores c; cores := cores c |}.

Definition set_hives (hs : list hive_cfg) (c : cluster_cfg) : cluster_cfg :=
  {| name := name c; pkg_name := pkg_name c; addr_width := addr_width c;
     data_width := data_width c; dma_data_width := dma_data_width c;
     cluster_base_addr := cluster_base_addr c; tie_ports := tie_ports c;
     tcdm := tcdm c; hives := hs; pmas := pmas c; nr_hives := nr_hives c;
     nr_cores := nr_cores c; cores := cores c |}.

Definition set_pkg_name (v : string) (c : cluster_cfg) : cluster_cfg :=
  {| name := name c; pkg_name := Some v; addr_width := addr_width c;
     data_width := data_width c; dma_data_width := dma_data_width c;
     cluster_base_addr := cluster_base_addr c; tie_ports := tie_ports c;
     tcdm := tcdm c; hives := hives c; pmas := pmas c; nr_hives := nr_hives c;
     nr_cores := nr_cores c; cores := cores c |}.

Definition set_tie_ports (v : bool) (c : cluster_cfg) : cluster_cfg :=
  {| name := name c; pkg_name := pkg_name c; addr_width := addr_width c;
     data_width := data_width c; dma_data_width := dma_data_width c;
     cluster_base_addr := cluster_base_addr c; tie_ports := v;
     tcdm := tcdm c; hives := hives c; pmas := pmas c; nr_hives := nr_hives c;
     nr_cores := nr_cores c; cores := cores c |}.

Definition set_pmas (v : pmas_cfg) (c : cluster_cfg) : cluster_cfg :=
  {| name := name c; pkg_name := pkg_name c; addr_width := addr_width c;
     data_width := data_width c; dma_data_width := dma_data_width c;
     cluster_base_addr := cluster_base_addr c; tie_ports := tie_ports c;
     tcdm := tcdm c; hives := hives c; pmas := Some v; nr_hives := nr_hives c;
     nr_cores := nr_cores c; cores := cores c |}.

Definition set_counts (nh nc : Z) (cs : list core_cfg) (c : cluster_cfg) : cluster_cfg :=
  {| name := name c; pkg_name := pkg_name c; addr_width := addr_width c;
     data_width := data_width c; dma_data_width := dma_data_width c;
     cluster_base_addr := cluster_base_addr c; tie_ports := tie_ports c;
     tcdm := tcdm c; hives := hives c; pmas := pmas c; nr_hives := Some nh;
     nr_cores := Some nc; cores := Some cs |}.

Definition set_icache_depth (v : Z) (h : hive_cfg) : hive_cfg :=
  {| icache := {| icache_size := icache_size (icache h);
                  icache_sets := icache_sets (icache h);
                  icache_cacheline := icache_cacheline (icache h);
                  icache_depth := Some v |};
     hive_cores := hive_cores h |}.

Definition set_hive_cores (cs : list core_cfg) (h : hive_cfg) : hive_cfg :=
  {| icache := icache h; hive_cores := cs |}.

(** ** Sanity checks of the configuration *)

Inductive log_record : Type :=
| LogError (msg : string)
| LogWarn (msg : string).

(** The chain of [if]/[elif] of [cfg_validate]: the message of the first
    check that fires, [None] when the [else] branch clears [failed].
    Each check is only evaluated when those before it did not fire, and
    the last three can raise. *)
Definition cfg_validate_chain (c : cluster_cfg) : result (option string) :=
  if addr_width c <? 30 then
    Ok (Some "`addr_width` must be greater or equal to 30.")
  else if negb ((data_width c =? 32) || (data_width c =? 64)) then
    Ok (Some "`data_width` must be 32 or 64 bit")
  else if dma_data_width c <=? 0 then
    Ok (Some "`dma_data_width` must be set")
  else
    r ← pymod (dma_data_width c) (data_width c);
    if negb (r =? 0) then
      Ok (Some ("DMA port " +:+ pretty (dma_data_width c) +:+
                " has to be multiple of " +:+ pretty (data_width c) +:+
                " (bank width)"))
    else
      p ← is_pow2 (dma_data_width c);
      if (p : bool) then Ok (Some "`dma_data_width` must be a power of two")
      else
        r ← pymod (tcdm_size (tcdm c)) (tcdm_banks (tcdm c));
        if negb (r =? 0) then
          Ok (Some "The total size of the TCDM must be divisible by the requested amount of banks.")
        else
          p ← is_pow2 (tcdm_size (tcdm c));
          if (p : bool) then Ok (Some "The TCDM size must be a power of two.")
          else
            p ← is_pow2 (tcdm_banks (tcdm c));
            if (p : bool) then Ok (Some "The amount of banks must be a power of two.")
            else Ok None.

(** [cfg_validate(self)]: what was logged, and the returned [failed]
    flag or the exception that ended the call.  The warning comes after
    the chain, so a raising chain logs nothing. *)
Definition cfg_validate (c : cluster_cfg) : list log_record * result bool :=
  match cfg_validate_chain c with
  | Raise e => ([], Raise e)
  | Ok fired =>
      let errors := match fired with Some msg => [LogError msg] | None => [] end in
      let failed := match fired with Some _ => true | None => false end in
      let warnings :=
        if negb (dma_data_width c =? 512)
        then [LogWarn "Design was never tested with this configuration"]
        else [] in
      (errors ++ warnings, Ok failed)
  end.

(** ** The cluster object *)

(** The key of a memory: (width, words, byte_width, ports, latency,
    byte_enable, speed_optimized, density_optimized). *)
Definition mem_key : Type := Z * Z * Z * Z * Z * bool * bool * bool.

(** The attributes of a [SnitchCluster] instance.  [tag_width] is only
    bound once [calc_cache_sizes] went through a hive. *)
Record SnitchCluster : Type := {
  cfg : cluster_cfg;
  mems : gset mem_key;
  mems_desc : gmap mem_key (list (option string));
  tag_width : option Z
}.

Definition with_cfg (c : cluster_cfg) (self : SnitchCluster) : SnitchCluster :=
  {| cfg := c; mems := mems self; mems_desc := mems_desc self;
     tag_width := tag_width self |}.

Definition with_tag_width (w : Z) (self : SnitchCluster) : SnitchCluster :=
  {| cfg := cfg self; mems := mems self; mems_desc := mems_desc self;
     tag_width := Some w |}.

(** A method body: it starts from the object, leaves it as far as it
    mutated it, and returns or raises. *)
Definition method (A : Type) : Type := SnitchCluster → SnitchCluster * result A.

#[global] Instance method_ret : MRet method := λ A a self, (self, Ok a).
#[global] Instance method_bind : MBind method := λ A B k c self,
  match c self with
  | (self', Ok a) => k a self'
  | (self', Raise e) => (self', Raise e)
  end.

Definition get_self : method SnitchCluster := λ self, (self, Ok self).
Definition modify (f : SnitchCluster → SnitchCluster) : method unit :=
  λ self, (f self, Ok tt).
Definition lift {A} (r : result A) : method A := λ self, (self, r).
Definition from_option {A} (e : exn) (o : option A) : method A :=
  lift (match o with Some a => Ok a | None => Raise e end).

(** [for x in xs: body(x)] *)
Fixpoint for_each {A} (xs : list A) (body : A → method unit) : method unit :=
  match xs with
  | [] => mret tt
  | x :: rest => (body x ≫= λ _, for_each rest body)
  end.

(** The body of the loop of [calc_cache_sizes] for the hive at index [i].
    [hive] and [self.cfg['hives'][i]] are the same object, so the tag
    width reads the depth that was just stored. *)
Definition calc_hive (i : nat) : method unit :=
  self ← get_self;
  h ← from_option IndexError (hives (cfg self) !! i);
  let cl_bytes := icache_cacheline (icache h) / 8 in
  q ← lift (floordiv (icache_size (icache h) * 1024) (icache_sets (icache h)));
  depth ← lift (floordiv q cl_bytes);
  modify (λ self, with_cfg
    (set_hives (<[i := set_icache_depth depth h]> (hives (cfg self))) (cfg self)) self);;
  l1 ← lift (clog2 (icache_cacheline (icache h) / 8));
  l2 ← lift (clog2 depth);
  modify (with_tag_width (addr_width (cfg self) - l1 - l2 + 3)).

(** [calc_cache_sizes(self)] *)
Definition calc_cache_sizes : method unit :=
  self ← get_self;
  let c := cfg self in
  let tcdm_bytes := data_width c / 8 in
  depth ← lift (floordiv (tcdm_size (tcdm c) * 1024) (tcdm_banks (tcdm c) * tcdm_bytes));
  modify (λ self, with_cfg (set_tcdm_depth depth (cfg self)) self);;
  for_each (seq 0 (length (hives c))) calc_hive.

(** [desc or ""] *)
Definition desc_or_empty (desc : option string) : string :=
  match desc with
  | Some (String c rest) => String c rest
  | _ => ""
  end.

(** [add_mem(self, words, width, byte_enable, desc, speed_optimized,
    density_optimized)]; the defaults of the keyword arguments
    ([True], [None], [True], [False]) are written out by the callers. *)
Definition add_mem (words width : Z) (byte_enable : bool) (desc : option string)
    (speed_optimized density_optimized : bool) (self : SnitchCluster) : SnitchCluster :=
  let mem : mem_key :=
    (width, words, 8, 1, 1, byte_enable, speed_optimized, density_optimized) in
  {| cfg := cfg self;
     mems := mems self ∪ {[ mem ]};
     mems_desc :=
       match mems_desc self !! mem with
       | Some descs => <[mem := descs ++ [desc]]> (mems_desc self)
       | None => <[mem := [Some (desc_or_empty desc)]]> (mems_desc self)
       end;
     tag_width := tag_width self |}.

(** One entry of the list that [memory_cfg] serialises. *)
Record mem_entry : Type := {
  description : list (option string);
  width : Z;
  words : Z;
  byte_width : Z;
  ports : Z;
  latency : Z;
  byte_enable : bool;
  speed_optimized : bool;
  density_optimized : bool
}.

Definition entry_of (descs : list (option string)) (k : mem_key) : mem_entry :=
  let '(w, n, bw, p, l, be, so, do) := k in
  {| description := descs; width := w; words := n; byte_width := bw;
     ports := p; latency := l; byte_enable := be; speed_optimized := so;
     density_optimized := do |}.

(** The key that an entry was made from. *)
Definition key_of (d : mem_entry) : mem_key :=
  (width d, words d, byte_width d, ports d, latency d, byte_enable d,
   speed_optimized d, density_optimized d).

(** The second loop of [memory_cfg]: one entry per member of
    [self.mems], in the iteration order of the set (which Python leaves
    unspecified: [elements] is one such order). *)
Definition mem_entries : method (list mem_entry) := λ self,
  (self,
   mapM (M := result) (λ k : mem_key,
     match mems_desc self !! k with
     | Some descs => Ok (entry_of descs k)
     | None => Raise (KeyError "mem")
     end) (elements (mems self))).

(** ['... (hive {})'.format(i)] *)
Definition hive_desc (what : string) (i : nat) : string :=
  what +:+ " (hive " +:+ pretty i +:+ ")".

(** The body of the first loop of [memory_cfg], for [(i, h)] of
    [enumerate(self.cfg['hives'])]. *)
Definition add_hive_mems (ih : nat * hive_cfg) : method unit :=
  let '(i, h) := ih in
  depth ← from_option (KeyError "depth") (icache_depth (icache h));
  modify (add_mem depth (icache_cacheline (icache h)) false
            (Some (hive_desc "icache data" i)) true false);;
  depth ← from_option (KeyError "depth") (icache_depth (icache h));
  self ← get_self;
  tw ← from_option (AttributeError "tag_width") (tag_width self);
  modify (add_mem depth tw false (Some (hive_desc "icache tag" i)) true false).

(** [memory_cfg(self)], up to the list [cfg] that it hands to
    [json.dumps]. *)
Definition memory_cfg : method (list mem_entry) :=
  self ← get_self;
  depth ← from_option (KeyError "depth") (tcdm_depth (tcdm (cfg self)));
  modify (add_mem depth (data_width (cfg self)) true (Some "tcdm") true false);;
  for_each (imap pair (hives (cfg self))) add_hive_mems;;
  mem_entries.

(** [self.cfg['pmas']['cached'].append(x)] *)
Definition append_cached (x : Z * Z) : method unit :=
  self ← get_self;
  p ← from_option (KeyError "pmas") (pmas (cfg self));
  modify (with_cfg (set_pmas {| cached := cached p ++ [x] |} (cfg self))).

(** [parse_pma_cfg(self, pma_cfg)] *)
Definition parse_pma_cfg (pma_cfg : PMACfg) : method unit :=
  modify (λ self, with_cfg (set_pmas {| cached := [] |} (cfg self)) self);;
  for_each (regions pma_cfg) (λ pma : region,
    let '(tag, base, mask) := pma in
    if decide (tag = CACHED) then append_cached (base, mask) else mret tt).

(** [for x in xs: acc = body(x, acc)], for a loop that also grows a
    local list. *)
Fixpoint fold_each {A B} (xs : list A) (body : A → B → method B) (acc : B) : method B :=
  match xs with
  | [] => mret acc
  | x :: rest => (body x acc ≫= fold_each rest body)
  end.

(** Store a core back at its place in the document: the loops of
    [parse_cores] mutate the core objects that the hives hold. *)
Definition store_core (i j : nat) (core : core_cfg) (self : SnitchCluster) : SnitchCluster :=
  match hives (cfg self) !! i with
  | Some h =>
      with_cfg (set_hives
        (<[i := set_hive_cores (<[j := core]> (hive_cores h)) h]> (hives (cfg self)))
        (cfg self)) self
  | None => self
  end.

(** The body of the inner loop of [parse_cores] for core [j] of hive [i]. *)
Definition parse_core (i j : nat) (acc : list core_cfg) : method (list core_cfg) :=
  self ← get_self;
  h ← from_option IndexError (hives (cfg self) !! i);
  core ← from_option IndexError (hive_cores h !! j);
  let core := {| isa := isa core; hive := Some (Z.of_nat i);
                 isa_parsed := isa_parsed core |} in
  modify (store_core i j core);;
  parsed ← lift (parse_isa_string (isa core));
  let core := {| isa := isa core; hive := hive core;
                 isa_parsed := Some parsed |} in
  modify (store_core i j core);;
  mret (acc ++ [core]).

(** [parse_cores(self)] *)
Definition parse_cores : method unit :=
  self ← get_self;
  cores ← fold_each (imap pair (hives (cfg self)))
    (λ (ih : nat * hive_cfg) acc,
       fold_each (seq 0 (length (hive_cores ih.2))) (parse_core ih.1) acc) [];
  modify (λ self, with_cfg
    (set_counts (Z.of_nat (length (hives (cfg self)))) (Z.of_nat (length cores))
       cores (cfg self)) self).

(** ** The test bench document *)

Record dram_cfg : Type := { dram_address : Z; dram_length : Z }.

Record tb_cfg : Type := { dram : dram_cfg; cluster : cluster_cfg }.

Record SnitchClusterTB : Type := {
  tb_self_cfg : tb_cfg;
  tb_self_cluster : SnitchCluster
}.

Section Generator.
(** [Generator.validate] works from the schema documents, which are
    data outside the generator.  What it does to a document of the
    cluster schema or of the test bench schema (fill defaults in, or
    [exit] on a violation) is a parameter of the constructors. *)
Variable validate_cluster : cluster_cfg → result cluster_cfg.
Variable validate_tb : tb_cfg → result tb_cfg.

(** The statements of [SnitchCluster.__init__] after [self.cfg = cfg]. *)
Definition SnitchCluster_construct (pma_cfg : PMACfg) : method unit :=
  self ← get_self;
  failed ← lift (cfg_validate (cfg self)).2;
  (if (failed : bool)
   then lift (Raise (SystemExit "Failed parameter validation."))
   else mret tt);;
  modify (λ self, with_cfg (set_pkg_name (name (cfg self) +:+ "_pkg") (cfg self)) self);;
  calc_cache_sizes;;
  parse_pma_cfg pma_cfg;;
  parse_cores.

(** [SnitchCluster(cfg, pma_cfg)]: the object, or the exception that
    ended the constructor. *)
Definition SnitchCluster_init (doc : cluster_cfg) (pma_cfg : PMACfg)
    : result SnitchCluster :=
  doc ← validate_cluster doc;
  let self := {| cfg := doc; mems := ∅; mems_desc := ∅; tag_width := None |} in
  match SnitchCluster_construct pma_cfg self with
  | (self, Ok _) => Ok self
  | (_, Raise e) => Raise e
  end.

(** What [SnitchClusterTB.__init__] builds before it constructs the
    cluster: the PMA configuration and the document of the cluster. *)
Definition tb_prepare (doc : tb_cfg) : PMACfg * tb_cfg :=
  let pma_cfg := PMACfg_init in
  let pma_cfg := add_region pma_cfg CACHED (dram_address (dram doc))
                   (dram_length (dram doc)) in
  (pma_cfg, {| dram := dram doc; cluster := set_tie_ports true (cluster doc) |}).

(** [SnitchClusterTB(cfg)].  [cfg['cluster']] and the [cfg] of the
    cluster are one object, so the document of the test bench shows
    what the cluster wrote into its own. *)
Definition SnitchClusterTB_init (doc : tb_cfg) : result SnitchClusterTB :=
  doc ← validate_tb doc;
  let '(pma_cfg, doc) := tb_prepare doc in
  cl ← SnitchCluster_init (cluster doc) pma_cfg;
  Ok {| tb_self_cfg := {| dram := dram doc; cluster := cfg cl |};
        tb_self_cluster := cl |}.
End Generator.

(** ** Schema validation with defaults

    Configuration documents as [json.load] gives them. *)
#[local] Set Warnings "-register-all".
Inductive json : Type :=
| JNull
| JBool (b : bool)
| JNum (z : Z)
| JStr (s : string)
| JArr (elems : list json)
| JObj (fields : list (string * json)).

(** A [dict] keeps its keys in insertion order. *)
Fixpoint dict_get (k : string) (fields : list (string * json)) : option json :=
  match fields with
  | [] => None
  | (k', v) :: rest => if String.eqb k k' then Some v else dict_get k rest
  end.

(** [d[k] = v] for a key that [d] has: the value changes in place. *)
Fixpoint dict_set (k : string) (v : json) (fields : list (string * json))
    : list (string * json) :=
  match fields with
  | [] => []
  | (k', v') :: rest =>
      if String.eqb k k' then (k', v) :: rest else (k', v') :: dict_set k v rest
  end.

(** [d.setdefault(k, v)] *)
Definition setdefault (k : string) (v : json) (fields : list (string * json))
    : list (string * json) :=
  match dict_get k fields with
  | Some _ => fields
  | None => fields ++ [(k, v)]
  end.

(** A schema document, keyword by keyword in the order of its [dict]:
    ["default"], ["properties"] (itself a [dict] from property names to
    schemas), ["items"], and the keywords that only inspect the instance
    (["type"], ["required"], ["enum"], ["minimum"], ...), each as the
    test it makes.  References are taken as resolved. *)
Inductive schema : Type :=
| SEnd
| SDefault (v : json) (rest : schema)
| SProperties (ps : properties) (rest : schema)
| SItems (sub : schema) (rest : schema)
| SOther (check : json → bool) (rest : schema)
with properties : Type :=
| PEnd
| PProp (name : string) (sub : schema) (rest : properties).

(** [subschema["default"]], when ["default" in subschema]. *)
Fixpoint default_of (s : schema) : option json :=
  match s with
  | SEnd => None
  | SDefault v _ => Some v
  | SProperties _ rest | SItems _ rest | SOther _ rest => default_of rest
  end.

(** ["default" in subschema] *)
Definition has_default (s : schema) : bool :=
  match default_of s with Some _ => true | None => false end.

(** The first loop of [set_defaults]:
    [for property, subschema in properties.items():
       if "default" in subschema:
         instance.setdefault(property, subschema["default"])].
    Only a [dict] has [setdefault]. *)
Fixpoint fill_defaults (ps : properties) (instance : json) : json * result unit :=
  match ps with
  | PEnd => (instance, Ok tt)
  | PProp property subschema rest =>
      match default_of subschema with
      | Some dv =>
          match instance with
          | JObj fields => fill_defaults rest (JObj (setdefault property dv fields))
          | _ => (instance, Raise (AttributeError "setdefault"))
          end
      | None => fill_defaults rest instance
      end
  end.

(** [for item in instance: descend(item, items)], stopping at the first
    error; the items before it keep what their descent wrote. *)
Fixpoint descend_each (f : json → json * result unit) (xs : list json)
    : list json * result unit :=
  match xs with
  | [] => ([], Ok tt)
  | x :: rest =>
      match f x with
      | (x', Ok _) =>
          let '(rest', r) := descend_each f rest in (x' :: rest', r)
      | (x', Raise e) => (x' :: rest, Raise e)
      end
  end.

(** Modelled from the spec: the traversal of the validation library,
    which [extend_with_default] plugs [set_defaults] into and which is
    not part of this repository.  [descend] runs the keywords of a
    schema in order on an instance and stops at the first error (the
    caller, [validate], raises the first error that the lazy iteration
    yields).  For ["properties"] it is [set_defaults]: the defaults are
    inserted, then [validate_properties] descends into each property
    that the instance has, with the schema of the property; this is
    the spec's "the default is inserted into the instance before normal
    property validation proceeds, recursively, depth-first, before the
    value is checked against its own subschema".  ["items"] descends
    into each element of an array.  The instance is mutated in place:
    the result is the instance as the call left it, and how it ended. *)
Fixpoint descend (s : schema) (instance : json) : json * result unit :=
  match s with
  | SEnd => (instance, Ok tt)
  | SDefault _ rest => descend rest instance
  | SOther check rest =>
      if check instance then descend rest instance
      else (instance, Raise ValidationError)
  | SProperties ps rest =>
      match fill_defaults ps instance with
      | (instance, Ok _) =>
          match validate_properties ps instance with
          | (instance, Ok _) => descend rest instance
          | (instance, Raise e) => (instance, Raise e)
          end
      | (instance, Raise e) => (instance, Raise e)
      end
  | SItems sub rest =>
      match instance with
      | JArr xs =>
          match descend_each (descend sub) xs with
          | (xs, Ok _) => descend rest (JArr xs)
          | (xs, Raise e) => (JArr xs, Raise e)
          end
      | _ => descend rest instance
      end
  end
with validate_properties (ps : properties) (instance : json) : json * result unit :=
  match ps with
  | PEnd => (instance, Ok tt)
  | PProp property subschema rest =>
      match instance with
      | JObj fields =>
          match dict_get property fields with
          | Some v =>
              match descend subschema v with
              | (v, Ok _) =>
                  validate_properties rest (JObj (dict_set property v fields))
              | (v, Raise e) => (JObj (dict_set property v fields), Raise e)
              end
          | None => validate_properties rest instance
          end
      | _ => (instance, Ok tt)
      end
  end.

(** [Generator.validate(self, cfg)] with [root_schema] the schema of the
    generator: a [ValidationError] is printed and turned into an
    [exit]; what else is raised goes through. *)
Definition Generator_validate (root_schema : schema) (cfg : json) : json * result unit :=
  match descend root_schema cfg with
  | (cfg, Raise ValidationError) => (cfg, Raise (SystemExit "ValidationError"))
  | r => r
  end.

(** Every schema property with a declared default is already present in
    the document, at every level that the schema describes: a property
    that is absent has no default, and what is present is fully
    specified for its own schema. *)
Fixpoint fully_specified (s : schema) (instance : json) : bool :=
  match s with
  | SEnd => true
  | SDefault _ rest | SOther _ rest => fully_specified rest instance
  | SProperties ps rest =>
      properties_specified ps instance && fully_specified rest instance
  | SItems sub rest =>
      match instance with
      | JArr xs => forallb (fully_specified sub) xs
      | _ => true
      end && fully_specified rest instance
  end
with properties_specified (ps : properties) (instance : json) : bool :=
  match ps with
  | PEnd => true
  | PProp property subschema rest =>
      match instance with
      | JObj fields =>
          match dict_get property fields with
          | Some v => fully_specified subschema v
          | None => negb (has_default subschema)
          end
      | _ => negb (has_default subschema)
      end && properties_specified rest instance
  end.

(** * What the specification says, as definitions

    Definitions that follow the words of the specification, to compare
    the code with. *)

(** The grammar as the specification words it: [rv32], exactly one base
    letter, then zero or more letters from m, a, f, d. *)
Definition is_ext_letter (c : ascii) : bool :=
  Ascii.eqb c "m" || Ascii.eqb c "a" || Ascii.eqb c "f" || Ascii.eqb c "d".

Fixpoint all_chars (p : ascii → bool) (s : string) : bool :=
  match s with
  | EmptyString => true
  | String c rest => p c && all_chars p rest
  end.

Fixpoint has_char (x : ascii) (s : string) : bool :=
  match s with
  | EmptyString => false
  | String c rest => Ascii.eqb c x || has_char x rest
  end.

Definition isa_grammar (s : string) : bool :=
  match strip_prefix "rv32" s with
  | Some (String c rest) => is_base c && all_chars is_ext_letter rest
  | _ => false
  end.

(** The cached partition that the specification describes: the (base,
    length) pairs of the regions tagged CACHED, in declaration order. *)
Definition cached_regions (declared : list region) : list (Z * Z) :=
  map (λ r : region, (r.1.2, r.2))
      (filter (λ r : region, r.1.1 = CACHED) declared).

(** Declaring regions one after the other on a new [PMACfg]. *)
Definition declare (declared : list region) : PMACfg :=
  fold_left (λ (p : PMACfg) (r : region), add_region p r.1.1 r.1.2 r.2)
            declared PMACfg_init.

(** "x is a power of two" *)
Definition power_of_two (x : Z) : Prop := ∃ k, 0 ≤ k ∧ x = 2 ^ k.

(** The eight rules of the cross-field sanity validation. *)
Record sanity_rules (c : cluster_cfg) : Prop := {
  rule_addr_width : 30 ≤ addr_width c;
  rule_data_width : data_width c = 32 ∨ data_width c = 64;
  rule_dma_set : 0 < dma_data_width c;
  rule_dma_multiple : (data_width c | dma_data_width c);
  rule_dma_pow2 : power_of_two (dma_data_width c);
  rule_tcdm_divisible : (tcdm_banks (tcdm c) | tcdm_size (tcdm c));
  rule_tcdm_size_pow2 : power_of_two (tcdm_size (tcdm c));
  rule_tcdm_banks_pow2 : power_of_two (tcdm_banks (tcdm c))
}.

(** The advisory about an untested DMA width. *)
Definition untested_warning : log_record :=
  LogWarn "Design was never tested with this configuration".

(** The depth of the TCDM as the specification writes it, with
    truncating division. *)
Definition tcdm_depth_spec (c : cluster_cfg) : Z :=
  Z.quot (tcdm_size (tcdm c) * 1024)
         (tcdm_banks (tcdm c) * Z.quot (data_width c) 8).

(** The arguments of one [add_mem] call. *)
Record mem_call : Type := {
  call_words : Z;
  call_width : Z;
  call_byte_enable : bool;
  call_desc : option string;
  call_speed_optimized : bool;
  call_density_optimized : bool
}.

Definition do_call (self : SnitchCluster) (c : mem_call) : SnitchCluster :=
  add_mem (call_words c) (call_width c) (call_byte_enable c) (call_desc c)
          (call_speed_optimized c) (call_density_optimized c) self.

(** A sequence of [add_mem] calls, first to last. *)
Definition do_calls (cs : list mem_call) (self : SnitchCluster) : SnitchCluster :=
  fold_left do_call cs self.

(** An object whose memory builder is as [__init__] creates it,
    [self.mems = set()] and [self.mems_desc = dict()], whatever its
    document and tag width are by now ([add_mem] touches neither). *)
Definition new_builder (c : cluster_cfg) (tw : option Z) : SnitchCluster :=
  {| cfg := c; mems := ∅; mems_desc := ∅; tag_width := tw |}.

(** The parts of the key of a memory that a call supplies; two calls
    have identical key tuples when these agree. *)
Definition call_shape (c : mem_call) : Z * Z * bool * bool * bool :=
  (call_width c, call_words c, call_byte_enable c, call_speed_optimized c,
   call_density_optimized c).

(** [x] then [y] occur in [l], in this order. *)
Definition in_order {A} (x y : A) (l : list A) : Prop :=
  ∃ l1 l2 l3, l = l1 ++ x :: l2 ++ y :: l3.

(** The entries of a memory map that have the key [k]. *)
Definition entries_with_key (k : mem_key) (entries : list mem_entry) : list mem_entry :=
  filter (λ e, key_of e = k) entries.

(** The tag width of a hive as the specification derives it, from the
    cacheline and the depth of that hive. *)
Definition own_tag_width (c : cluster_cfg) (h : hive_cfg) : option Z :=
  depth ← icache_depth (icache h);
  Some (addr_width c - Z.log2_up (icache_cacheline (icache h) / 8)
        - Z.log2_up depth + 3).

(** A document with two hives of different instruction cache sizes. *)
Definition two_hives_doc : cluster_cfg :=
  {| name := "snitch_cluster"; pkg_name := None;
     addr_width := 48; data_width := 64; dma_data_width := 512;
     cluster_base_addr := 0; tie_ports := false;
     tcdm := {| tcdm_size := 128; tcdm_banks := 32; tcdm_depth := None |};
     hives :=
       [ {| icache := {| icache_size := 8; icache_sets := 2;
                         icache_cacheline := 128; icache_depth := None |};
            hive_cores := [ {| isa := "rv32imafd"; hive := None; isa_parsed := None |} ] |};
         {| icache := {| icache_size := 16; icache_sets := 2;
                         icache_cacheline := 128; icache_depth := None |};
            hive_cores := [ {| isa := "rv32ima"; hive := None; isa_parsed := None |} ] |} ];
     pmas := None; nr_hives := None; nr_cores := None; cores := None |}.

(** The entries of a memory map that carry a description. *)
Definition entries_described (desc : string) (entries : list mem_entry) : list mem_entry :=
  filter (λ e, Some desc ∈ description e) entries.

(** A schema document is a [dict], and so is the value of its
    ["properties"]: a keyword occurs at most once in a schema, and a
    property name at most once among the properties. *)
Fixpoint has_properties_keyword (s : schema) : bool :=
  match s with
  | SEnd => false
  | SProperties _ _ => true
  | SDefault _ rest | SItems _ rest | SOther _ rest => has_properties_keyword rest
  end.

Fixpoint has_items_keyword (s : schema) : bool :=
  match s with
  | SEnd => false
  | SItems _ _ => true
  | SDefault _ rest | SProperties _ rest | SOther _ rest => has_items_keyword rest
  end.

Fixpoint property_names (ps : properties) : list string :=
  match ps with
  | PEnd => []
  | PProp property _ rest => property :: property_names rest
  end.

Fixpoint unique_keys (s : schema) : bool :=
  match s with
  | SEnd => true
  | SDefault _ rest | SOther _ rest => unique_keys rest
  | SProperties ps rest =>
      negb (has_properties_keyword rest) && unique_names ps && unique_keys rest
  | SItems sub rest =>
      negb (has_items_keyword rest) && unique_keys sub && unique_keys rest
  end
with unique_names (ps : properties) : bool :=
  match ps with
  | PEnd => true
  | PProp property subschema rest =>
      negb (bool_decide (property ∈ property_names rest))
      && unique_keys subschema && unique_names rest
  end.

(** * Notions for the proofs *)

(** A property of the object that a method keeps, however it ends. *)
Definition preserves {A} (I : SnitchCluster → Prop) (m : method A) : Prop :=
  ∀ self, I self → I (m self).1.

(** The key under which a call files its memory. *)
Definition key_of_call (c : mem_call) : mem_key :=
  let '(w, n, be, so, do) := call_shape c in (w, n, 8, 1, 1, be, so, do).

(** How a call changes the descriptions filed under a key. *)
Definition file_desc (o : option (list (option string))) (c : mem_call)
    : option (list (option string)) :=
  match o with
  | Some descs => Some (descs ++ [call_desc c])
  | None => Some [Some (desc_or_empty (call_desc c))]
  end.

(** The first description filed under a key goes through [desc or ""]. *)
Definition filed (descs : list (option string)) : list (option string) :=
  match descs with
  | [] => []
  | first :: rest => Some (desc_or_empty first) :: rest
  end.

(** The builder keeps a description list for exactly the keys of the
    set, and every key has the three constants of [add_mem]. *)
Record builder_ok (self : SnitchCluster) : Prop := {
  builder_dom : ∀ k, k ∈ mems self → is_Some (mems_desc self !! k);
  builder_consts : ∀ k, k ∈ mems self →
    ∃ w n be so do, k = (w, n, 8, 1, 1, be, so, do)
}.

(** What is filed under a key of the set. *)
Definition descs_at (self : SnitchCluster) (k : mem_key) : list (option string) :=
  default [] (mems_desc self !! k).

(** A method that, when it returns, has done nothing to the object but
    [add_mem] calls. *)
Definition only_calls {A} (m : method A) : Prop :=
  ∀ self self' a, m self = (self', Ok a) → ∃ cs, self' = do_calls cs self.

(** The three fields of a key that [add_mem] writes as constants. *)
Definition fixed_constants (e : mem_entry) : Prop :=
  byte_width e = 8 ∧ ports e = 1 ∧ latency e = 1.

(** Induction over a schema together with its properties. *)
Scheme schema_mut_ind := Induction for schema Sort Prop
  with properties_mut_ind := Induction for properties Sort Prop.
Combined Scheme schema_properties_ind from schema_mut_ind, properties_mut_ind.

(** [instance[k]] when the instance is a [dict] that has the key. *)
Definition get (k : string) (j : json) : option json :=
  match j with JObj fields => dict_get k fields | _ => None end.

Definition is_obj (j : json) : bool :=
  match j with JObj _ => true | _ => false end.

Definition is_arr (j : json) : bool :=
  match j with JArr _ => true | _ => false end.

Definition same_kind (a b : json) : Prop :=
  is_obj a = is_obj b ∧ is_arr a = is_arr b.

(** The two halves of [properties_specified]: the properties with a
    default are present, and the properties that are present are fully
    specified. *)
Fixpoint defaults_present (ps : properties) (instance : json) : bool :=
  match ps with
  | PEnd => true
  | PProp property subschema rest =>
      (negb (has_default subschema) || bool_decide (is_Some (get property instance)))
      && defaults_present rest instance
  end.

Fixpoint present_specified (ps : properties) (instance : json) : bool :=
  match ps with
  | PEnd => true
  | PProp property subschema rest =>
      match get property instance with
      | Some v => fully_specified subschema v
      | None => true
      end && present_specified rest instance
  end.

(** Two schemas that differ at most in the values of their defaults.
    A default that was inserted is the very object of the schema, so
    what the traversal then adds to it shows in the schema as well:
    the schema that a second validation reads is the first one up to
    the values of the defaults. *)
Fixpoint same_keywords (s s2 : schema) : Prop :=
  match s, s2 with
  | SEnd, SEnd => True
  | SDefault _ rest, SDefault _ rest2 => same_keywords rest rest2
  | SProperties ps rest, SProperties ps2 rest2 =>
      same_properties ps ps2 ∧ same_keywords rest rest2
  | SItems sub rest, SItems sub2 rest2 =>
      same_keywords sub sub2 ∧ same_keywords rest rest2
  | SOther check rest, SOther check2 rest2 =>
      check = check2 ∧ same_keywords rest rest2
  | _, _ => False
  end
with same_properties (ps ps2 : properties) : Prop :=
  match ps, ps2 with
  | PEnd, PEnd => True
  | PProp property sub rest, PProp property2 sub2 rest2 =>
      property = property2 ∧ same_keywords sub sub2 ∧ same_properties rest rest2
  | _, _ => False
  end.

(** * Sample documents *)

(** A document that satisfies the eight rules, for a DMA width. *)
Definition doc_with_dma (dma : Z) : cluster_cfg :=
  {| name := "snitch_cluster"; pkg_name := None;
     addr_width := 48; data_width := 64; dma_data_width := dma;
     cluster_base_addr := 0; tie_ports := false;
     tcdm := {| tcdm_size := 128; tcdm_banks := 8; tcdm_depth := None |};
     hives := []; pmas := None; nr_hives := None; nr_cores := None; cores := None |}.

(** The cluster constructed from the document with two hives. *)
Definition two_hives_cluster : SnitchCluster :=
  match SnitchCluster_init Ok two_hives_doc PMACfg_init with
  | Ok self => self
  | Raise _ => new_builder two_hives_doc None
  end.

(** Two calls for memories of one shape. *)
Definition call_a : mem_call :=
  {| call_words := 256; call_width := 128; call_byte_enable := false;
     call_desc := Some "icache data (hive 0)"; call_speed_optimized := true;
     call_density_optimized := false |}.

Definition call_b : mem_call :=
  {| call_words := 256; call_width := 128; call_byte_enable := false;
     call_desc := Some "icache data (hive 1)"; call_speed_optimized := true;
     call_density_optimized := false |}.

(** A test bench document around the document with two hives. *)
Definition tb_doc : tb_cfg :=
  {| dram := {| dram_address := 0x80000000; dram_length := 0x10000000 |};
     cluster := two_hives_doc |}.

(** A schema with defaults at two levels, and a document that leaves
    them out. *)
Definition type_object (j : json) : bool :=
  match j with JObj _ => true | _ => false end.

Definition type_number (j : json) : bool :=
  match j with JNum _ => true | _ => false end.

Definition tcdm_schema : schema :=
  SOther type_object
    (SDefault (JObj [("size", JNum 128)])
      (SProperties
        (PProp "size" (SOther type_number (SDefault (JNum 128) SEnd))
          (PProp "banks" (SOther type_number (SDefault (JNum 32) SEnd)) PEnd))
        SEnd)).

Definition cluster_schema : schema :=
  SOther type_object
    (SProperties
      (PProp "name" (SOther (λ _, true) SEnd)
        (PProp "tcdm" tcdm_schema
          (PProp "hives"
            (SItems (SProperties (PProp "icache" tcdm_schema PEnd) SEnd) SEnd)
            PEnd)))
      SEnd).

Definition sparse_doc : json :=
  JObj [("hives", JArr [JObj []; JObj [("icache", JObj [("banks", JNum 1)])]])].

(** A document with every default of the schema written out. *)
Definition filled_doc : json :=
  JObj [("name", JStr "snitch_cluster");
        ("tcdm", JObj [("size", JNum 64); ("banks", JNum 16)]);
        ("hives", JArr [JObj [("icache", JObj [("banks", JNum 1); ("size", JNum 8)])]])].

(** * Further functions of the generator *)

(** [hex(x)]: ["0x"] and the digits in lower case, a minus sign first
    for a negative number. *)
Definition hex (x : Z) : string := HexString.of_Z x.

(** [s[2:]] *)
Definition drop2 (s : string) : string :=
  match s with
  | String _ (String _ rest) => rest
  | _ => ""
  end.

(** [to_sv_hex(x, length=None)]:
    ["{}'h{}".format(length or "", hex(x)[2:])]. *)
Definition to_sv_hex (x : Z) (length : option Z) : string :=
  match length with
  | Some l => if l =? 0 then "" else pretty l
  | None => ""
  end +:+ "'h" +:+ drop2 (hex x).

(** [l1_region(self)] *)
Definition l1_region (self : SnitchCluster) : Z * Z :=
  (cluster_base_addr (cfg self), tcdm_size (tcdm (cfg self))).

(** The result of the parser on an accepted string with the base letter
    [c] and the run [ext] of characters of the class. *)
Definition isa_of (c : ascii) (ext : string) : RiscvISA.t :=
  {| RiscvISA.i := Ascii.eqb c "i"; RiscvISA.e := Ascii.eqb c "e";
     RiscvISA.m := has_char "m" ext; RiscvISA.a := has_char "a" ext;
     RiscvISA.f := has_char "f" ext; RiscvISA.d := has_char "d" ext;
     RiscvISA.others := if has_char "|" ext then ["|"] else [] |}.

(** The depth that the loop of [calc_cache_sizes] computes for a hive:
    [size * 1024 // sets // (cacheline // 8)]. *)
Definition derived_depth (h : hive_cfg) : Z :=
  icache_size (icache h) * 1024 / icache_sets (icache h)
  / (icache_cacheline (icache h) / 8).

(** The range on which [clog2] is the value of the source.  For a
    number up to [2^32] that is not a power of two the logarithm is
    more than [2^-31] above the integer below it, and a double below 32
    resolves [2^-48]: the rounding of [log2] cannot reach that integer,
    and the conversion of the number to a double is exact. *)
Definition log2_exact (x : Z) : Prop := x ≤ 2 ^ 32.

(** The two logarithms that the loop of [calc_cache_sizes] takes for a
    hive are in this range. *)
Definition in_log2_range (h : hive_cfg) : Prop :=
  log2_exact (icache_cacheline (icache h) / 8) ∧ log2_exact (derived_depth h).

(** The tag width that the loop computes for a hive. *)
Definition derived_tag_width (aw : Z) (h : hive_cfg) : Z :=
  aw - Z.log2_up (icache_cacheline (icache h) / 8) - Z.log2_up (derived_depth h) + 3.

(** The hive as the loop leaves it. *)
Definition derive (h : hive_cfg) : hive_cfg := set_icache_depth (derived_depth h) h.

(** What the loop needs of a hive to go through: no division by zero
    and both logarithms inside their domain. *)
Definition derivable (h : hive_cfg) : Prop :=
  icache_sets (icache h) ≠ 0
  ∧ 0 < icache_cacheline (icache h) / 8
  ∧ 0 < derived_depth h.

(** The object with other hives and tag width. *)
Definition with_hives (hs : list hive_cfg) (tw : option Z) (self : SnitchCluster)
    : SnitchCluster :=
  {| cfg := set_hives hs (cfg self); mems := mems self;
     mems_desc := mems_desc self; tag_width := tw |}.

(** The object with other hives in its document. *)
Definition put_hives (hs : list hive_cfg) (self : SnitchCluster) : SnitchCluster :=
  with_cfg (set_hives hs (cfg self)) self.

(** A core whose ISA string the parser accepts. *)
Definition legal (core : core_cfg) : bool := is_ok (parse_isa_string (isa core)).

(** A core of hive [i] as [parse_cores] leaves it: the index of the hive
    and the parsed ISA are written into it. *)
Definition annotated (i : nat) (core : core_cfg) : core_cfg :=
  {| isa := isa core; hive := Some (Z.of_nat i);
     isa_parsed :=
       match parse_isa_string (isa core) with
       | Ok parsed => Some parsed
       | Raise _ => isa_parsed core
       end |}.

(** Hive [i] with its cores as [parse_cores] leaves them. *)
Definition annotated_hive (i : nat) (h : hive_cfg) : hive_cfg :=
  set_hive_cores (annotated i <$> hive_cores h) h.

(** The body of the outer loop of [parse_cores]. *)
Definition parse_hive_cores (ih : nat * hive_cfg) (acc : list core_cfg)
    : method (list core_cfg) :=
  fold_each (seq 0 (length (hive_cores ih.2))) (parse_core ih.1) acc.

(** What [parse_cores] leaves of the counts when it raises: nothing. *)
Definition counts_of (c : cluster_cfg) : option Z * option Z * option (list core_cfg) :=
  (nr_hives c, nr_cores c, cores c).

(** Every core of every hive has a legal ISA string. *)
Definition all_legal (hs : list hive_cfg) : Prop :=
  Forall (λ h, Forall (λ c, legal c = true) (hive_cores h)) hs.

(** The cluster object that the constructor builds from a validated
    document and a PMA configuration: the document with its derived
    keys, the memory builder still empty.  The tag width is the one of
    the last hive, with the logarithms of [clog2]: it is what the
    source stores when this hive is in the range [in_log2_range]. *)
Definition constructed (doc : cluster_cfg) (pma_cfg : PMACfg) : SnitchCluster :=
  let hs := imap annotated_hive (derive <$> hives doc) in
  let flat := concat (hive_cores <$> hs) in
  {| cfg :=
       {| name := name doc;
          pkg_name := Some (name doc +:+ "_pkg");
          addr_width := addr_width doc;
          data_width := data_width doc;
          dma_data_width := dma_data_width doc;
          cluster_base_addr := cluster_base_addr doc;
          tie_ports := tie_ports doc;
          tcdm := {| tcdm_size := tcdm_size (tcdm doc);
                     tcdm_banks := tcdm_banks (tcdm doc);
                     tcdm_depth :=
                       Some (tcdm_size (tcdm doc) * 1024
                             / (tcdm_banks (tcdm doc) * (data_width doc / 8))) |};
          hives := hs;
          pmas := Some {| cached := cached_regions (regions pma_cfg) |};
          nr_hives := Some (Z.of_nat (length (hives doc)));
          nr_cores := Some (Z.of_nat (length flat));
          cores := Some flat |};
     mems := ∅;
     mems_desc := ∅;
     tag_width :=
       match last (hives doc) with
       | Some h => Some (derived_tag_width (addr_width doc) h)
       | None => None
       end |}.

(** What the constructor needs of a validated document to go through. *)
Definition constructible (doc : cluster_cfg) : Prop :=
  sanity_rules doc ∧ Forall derivable (hives doc) ∧ all_legal (hives doc).

(** The two [add_mem] calls of [memory_cfg] for hive [i], given the
    tag width of the object: the data memory and the tag memory. *)
Definition hive_calls (tw : Z) (i : nat) (h : hive_cfg) : list mem_call :=
  let depth := default 0 (icache_depth (icache h)) in
  [ {| call_words := depth; call_width := icache_cacheline (icache h);
       call_byte_enable := false; call_desc := Some (hive_desc "icache data" i);
       call_speed_optimized := true; call_density_optimized := false |};
    {| call_words := depth; call_width := tw;
       call_byte_enable := false; call_desc := Some (hive_desc "icache tag" i);
       call_speed_optimized := true; call_density_optimized := false |} ].

(** The [add_mem] calls of [memory_cfg], in order: the TCDM, then the
    two memories of each hive. *)
Definition memory_calls (self : SnitchCluster) : list mem_call :=
  {| call_words := default 0 (tcdm_depth (tcdm (cfg self)));
     call_width := data_width (cfg self);
     call_byte_enable := true; call_desc := Some "tcdm";
     call_speed_optimized := true; call_density_optimized := false |}
  :: concat (imap (hive_calls (default 0 (tag_width self))) (hives (cfg self))).

(** What [memory_cfg] reads is there: the depths, and the tag width
    when there is a hive. *)
Definition memory_ready (self : SnitchCluster) : Prop :=
  is_Some (tcdm_depth (tcdm (cfg self)))
  ∧ Forall (λ h, is_Some (icache_depth (icache h))) (hives (cfg self))
  ∧ (hives (cfg self) = [] ∨ is_Some (tag_width self)).

(** An entry with every description twice. *)
Definition described_twice (e : mem_entry) : mem_entry :=
  {| description := description e ++ description e;
     width := width e; words := words e; byte_width := byte_width e;
     ports := ports e; latency := latency e; byte_enable := byte_enable e;
     speed_optimized := speed_optimized e;
     density_optimized := density_optimized e |}.

(** The tag width after the loop of [calc_cache_sizes] went through the
    hives [hs]: that of the last of them. *)
Definition tag_width_after (self : SnitchCluster) (hs : list hive_cfg) : option Z :=
  match last hs with
  | Some h => Some (derived_tag_width (addr_width (cfg self)) h)
  | None => tag_width self
  end.

(** The descriptions that the calls with the key [k] pass, in the order
    of the calls. *)
Definition descriptions_for (k : mem_key) (cs : list mem_call) : list (option string) :=
  call_desc <$> filter (λ x, key_of_call x = k) cs.

(** The default that the properties declare for a name: that of the
    first property of this name that has one. *)
Fixpoint declared_default (ps : properties) (k : string) : option json :=
  match ps with
  | PEnd => None
  | PProp property subschema rest =>
      match default_of subschema with
      | Some dv => if String.eqb k property then Some dv else declared_default rest k
      | None => declared_default rest k
      end
  end.

(** Some property has a default. *)
Fixpoint any_default (ps : properties) : bool :=
  match ps with
  | PEnd => false
  | PProp _ subschema rest => has_default subschema || any_default rest
  end.

(** [b] is [a] with keys added: the same value, or an array with the
    same number of elements that are extended one by one, or a [dict]
    that has the keys of [a] first and in the same order, with extended
    values, and then new keys. *)
Inductive extends : json → json → Prop :=
| extends_same j : extends j j
| extends_arr xs ys : Forall2 extends xs ys → extends (JArr xs) (JArr ys)
| extends_obj fs gs added :
    Forall2 (λ f g : string * json, f.1 = g.1 ∧ extends f.2 g.2) fs gs →
    extends (JObj fs) (JObj (gs ++ added)).

(** ** Further sample documents *)

(** A document with the given number of TCDM banks. *)
Definition doc_with_banks (banks : Z) : cluster_cfg :=
  {| name := "snitch_cluster"; pkg_name := None;
     addr_width := 48; data_width := 64; dma_data_width := 512;
     cluster_base_addr := 0; tie_ports := false;
     tcdm := {| tcdm_size := 128; tcdm_banks := banks; tcdm_depth := None |};
     hives := []; pmas := None; nr_hives := None; nr_cores := None; cores := None |}.

(** A document with one hive of one core with the given ISA string. *)
Definition doc_with_isa (s : string) : cluster_cfg :=
  {| name := "snitch_cluster"; pkg_name := None;
     addr_width := 48; data_width := 64; dma_data_width := 512;
     cluster_base_addr := 0; tie_ports := false;
     tcdm := {| tcdm_size := 128; tcdm_banks := 32; tcdm_depth := None |};
     hives :=
       [ {| icache := {| icache_size := 8; icache_sets := 2;
                         icache_cacheline := 128; icache_depth := None |};
            hive_cores := [ {| isa := s; hive := None; isa_parsed := None |} ] |} ];
     pmas := None; nr_hives := None; nr_cores := None; cores := None |}.

(** * Properties *)

(** ** ISA strings *)

Lemma is_ext_letter_cases c :
  is_ext_letter c = true → c = "m"%char ∨ c = "a"%char ∨ c = "f"%char ∨ c = "d"%char.
Proof.
  unfold is_ext_letter. rewrite !orb_true_iff, !Ascii.eqb_eq. tauto.
Qed.

Lemma is_ext_letter_in_class c : is_ext_letter c = true → in_ext_class c = true.
Proof.
  intros H. destruct (is_ext_letter_cases c H) as [->|[->|[->| ->]]]; reflexivity.
Qed.

Lemma span_class_all p s :
  all_chars p s = true → span_class p s = (s, EmptyString).
Proof.
  induction s as [|c rest IH]; simpl; [done|].
  intros [Hc Hrest]%andb_true_iff. rewrite Hc, (IH Hrest). done.
Qed.

Lemma all_chars_weaken (p q : ascii → bool) s :
  (∀ c, p c = true → q c = true) → all_chars p s = true → all_chars q s = true.
Proof.
  intros Hpq. induction s as [|c rest IH]; simpl; [done|].
  intros [Hc Hrest]%andb_true_iff. rewrite (Hpq c Hc). simpl. auto.
Qed.

Lemma strip_prefix_Some p s t : strip_prefix p s = Some t → s = p +:+ t.
Proof.
  revert s. induction p as [|x p' IH]; intros s; simpl.
  - destruct s; intros [= <-]; done.
  - destruct s as [|y s']; [done|].
    destruct (Ascii.eqb x y) eqn:E; [|done].
    apply Ascii.eqb_eq in E. subst y. intros H. by rewrite (IH _ H).
Qed.

(** Setting the flags of a run of extension letters: each flag ends up
    set when it was set before or its letter occurs, and no other
    attribute appears. *)
Lemma fold_setattr_letters g2 isa :
  all_chars is_ext_letter g2 = true →
  let isa' := fold_left RiscvISA.setattr_true (chars g2) isa in
  RiscvISA.i isa' = RiscvISA.i isa ∧
  RiscvISA.e isa' = RiscvISA.e isa ∧
  RiscvISA.m isa' = RiscvISA.m isa || has_char "m" g2 ∧
  RiscvISA.a isa' = RiscvISA.a isa || has_char "a" g2 ∧
  RiscvISA.f isa' = RiscvISA.f isa || has_char "f" g2 ∧
  RiscvISA.d isa' = RiscvISA.d isa || has_char "d" g2 ∧
  RiscvISA.others isa' = RiscvISA.others isa.
Proof.
  revert isa. induction g2 as [|c rest IH]; intros isa; simpl.
  - intros _. rewrite !orb_false_r. done.
  - intros [Hc Hrest]%andb_true_iff.
    specialize (IH (RiscvISA.setattr_true isa (String c EmptyString)) Hrest).
    simpl in IH. destruct IH as (Hi & He & Hm & Ha & Hf & Hd & Ho).
    rewrite Hi, He, Hm, Ha, Hf, Hd, Ho.
    destruct (is_ext_letter_cases c Hc) as [->|[->|[->| ->]]]; simpl;
      rewrite ?orb_true_r, ?orb_false_r, ?orb_true_l, ?orb_false_l;
      repeat split; try reflexivity;
      destruct (RiscvISA.m isa), (RiscvISA.a isa), (RiscvISA.f isa), (RiscvISA.d isa);
      reflexivity.
Qed.

(** What the parser does on the strings of the grammar: it returns, the
    base flag is the one of the base letter, the extension flags are
    those of the letters present, and nothing else is set. *)
Lemma parse_isa_string_on_grammar s :
  isa_grammar s = true →
  ∃ c rest isa,
    s = "rv32" +:+ String c rest ∧
    parse_isa_string s = Ok isa ∧
    RiscvISA.i isa = Ascii.eqb c "i" ∧
    RiscvISA.e isa = Ascii.eqb c "e" ∧
    RiscvISA.m isa = has_char "m" rest ∧
    RiscvISA.a isa = has_char "a" rest ∧
    RiscvISA.f isa = has_char "f" rest ∧
    RiscvISA.d isa = has_char "d" rest ∧
    RiscvISA.others isa = [].
Proof.
  unfold isa_grammar, parse_isa_string, isa_string_match.
  destruct (strip_prefix "rv32" s) as [[|c rest]|] eqn:Hp; try done.
  apply strip_prefix_Some in Hp.
  intros [Hb Hrest]%andb_true_iff. rewrite Hb.
  rewrite (span_class_all in_ext_class rest
             (all_chars_weaken _ _ _ is_ext_letter_in_class Hrest)). simpl.
  exists c, rest.
  assert (Hbase : c = "i"%char ∨ c = "e"%char).
  { unfold is_base in Hb. rewrite orb_true_iff, !Ascii.eqb_eq in Hb. done. }
  destruct (String.eqb rest "") eqn:Erest.
  - apply String.eqb_eq in Erest. subst rest.
    eexists. split; [done|]. split; [done|].
    destruct Hbase as [-> | ->]; simpl; done.
  - eexists. split; [done|]. split; [done|].
    pose proof (fold_setattr_letters rest
      (RiscvISA.setattr_true RiscvISA.default (String c EmptyString)) Hrest) as H.
    simpl in H. destruct H as (Hi & He & Hm & Ha & Hf & Hd & Ho).
    rewrite Hi, He, Hm, Ha, Hf, Hd, Ho.
    destruct Hbase as [-> | ->]; simpl; done.
Qed.

(** A string that the parser rejects is outside the grammar. *)
Lemma parse_isa_string_raise_not_grammar s e :
  parse_isa_string s = Raise e → isa_grammar s = false.
Proof.
  intros Hr. destruct (isa_grammar s) eqn:Hg; [|done].
  destruct (parse_isa_string_on_grammar s Hg) as (? & ? & ? & _ & Hok & _).
  congruence.
Qed.

(** C2, at the input ["RV32IMAFD"]: lower-casing the string gives
    ["rv32imafd"], which parses to the base I with M, A, F and D set,
    but the parser matches the string as it was given and raises the
    error of an illegal ISA string. *)
Theorem parse_isa_string_upper_case_raises :
  lower "RV32IMAFD" = "rv32imafd" ∧
  parse_isa_string "RV32IMAFD" = Raise (ValueError "Illegal ISA string.") ∧
  parse_isa_string (lower "RV32IMAFD") =
    Ok {| RiscvISA.i := true; RiscvISA.e := false; RiscvISA.m := true;
          RiscvISA.a := true; RiscvISA.f := true; RiscvISA.d := true;
          RiscvISA.others := [] |}.
Proof. repeat split. Qed.

(** C3, at the input ["rv32i|"]: the string is outside the grammar (the
    bar is none of m, a, f, d), yet the parser does not raise: the bar
    is a member of the character class of the pattern, the match
    succeeds and the result has the base flag I and a stray attribute
    named by the bar.  A line feed at the end gets through as well. *)
Theorem parse_isa_string_bar_accepted :
  isa_grammar "rv32i|" = false ∧
  parse_isa_string "rv32i|" =
    Ok {| RiscvISA.i := true; RiscvISA.e := false; RiscvISA.m := false;
          RiscvISA.a := false; RiscvISA.f := false; RiscvISA.d := false;
          RiscvISA.others := ["|"] |} ∧
  isa_grammar ("rv32im" +:+ String LF "") = false ∧
  is_ok (parse_isa_string ("rv32im" +:+ String LF "")) = true ∧
  parse_isa_string "rv32iz" = Raise (ValueError "Illegal ISA string.").
Proof. repeat split. Qed.

(** ** The method monad *)

Lemma method_bind_unfold {A B} (m : method A) (k : A → method B) self :
  (m ≫= k) self =
  match m self with
  | (self', Ok a) => k a self'
  | (self', Raise e) => (self', Raise e)
  end.
Proof. reflexivity. Qed.

Lemma preserves_ret {A} I (a : A) : preserves I (mret a).
Proof. intros self H. exact H. Qed.

Lemma preserves_lift {A} I (r : result A) : preserves I (lift r).
Proof. intros self H. exact H. Qed.

Lemma preserves_from_option {A} I e (o : option A) : preserves I (from_option e o).
Proof. intros self H. exact H. Qed.

Lemma preserves_get_self I : preserves I get_self.
Proof. intros self H. exact H. Qed.

Lemma preserves_modify I f : (∀ self, I self → I (f self)) → preserves I (modify f).
Proof. intros Hf self H. exact (Hf self H). Qed.

Lemma preserves_bind {A B} I (m : method A) (k : A → method B) :
  preserves I m → (∀ a, preserves I (k a)) → preserves I (m ≫= k).
Proof.
  intros Hm Hk self H. rewrite method_bind_unfold.
  specialize (Hm self H). destruct (m self) as [self' [a|e]]; simpl in *.
  - by apply Hk.
  - done.
Qed.

Lemma preserves_for_each {A} I (xs : list A) (body : A → method unit) :
  (∀ x, preserves I (body x)) → preserves I (for_each xs body).
Proof.
  intros Hb. induction xs as [|x rest IH]; simpl.
  - apply preserves_ret.
  - apply preserves_bind; [apply Hb | intros _; exact IH].
Qed.

Lemma preserves_fold_each {A B} I (xs : list A) (body : A → B → method B) acc :
  (∀ x b, preserves I (body x b)) → preserves I (fold_each xs body acc).
Proof.
  intros Hb. revert acc. induction xs as [|x rest IH]; intros acc; simpl.
  - apply preserves_ret.
  - apply preserves_bind; [apply Hb | intros b; apply IH].
Qed.

#[local] Ltac preserves_step :=
  first
    [ apply preserves_ret | apply preserves_lift | apply preserves_from_option
    | apply preserves_get_self
    | apply preserves_for_each; intros ?
    | apply preserves_fold_each; intros ? ?
    | apply preserves_bind; [|intros ?] ].

(** ** Physical memory attributes *)

Lemma declare_regions declared : regions (declare declared) = declared.
Proof.
  unfold declare.
  assert (H : ∀ p, regions (fold_left
      (λ (p : PMACfg) (r : region), add_region p r.1.1 r.1.2 r.2) declared p)
      = regions p ++ declared).
  { induction declared as [|[[t b] l] rest IH]; intros p; simpl.
    - by rewrite app_nil_r.
    - rewrite IH. simpl. by rewrite <- app_assoc. }
  by rewrite H.
Qed.

(** The loop of [parse_pma_cfg] from any content of the cached list. *)
Lemma parse_pma_loop rs self acc :
  pmas (cfg self) = Some {| cached := acc |} →
  for_each rs (λ pma : region,
    let '(tag, base, mask) := pma in
    if decide (tag = CACHED) then append_cached (base, mask) else mret tt) self
  = (with_cfg (set_pmas {| cached := acc ++ cached_regions rs |} (cfg self)) self,
     Ok tt).
Proof.
  revert self acc. induction rs as [|[[tag base] mask] rest IH]; intros self acc Hp.
  - simpl. unfold cached_regions. simpl. rewrite app_nil_r.
    destruct self as [c ? ? ?]. destruct c. simpl in *. by rewrite Hp.
  - simpl. rewrite method_bind_unfold.
    destruct (decide (tag = CACHED)) as [->|Hne].
    + unfold append_cached at 1. rewrite !method_bind_unfold. simpl.
      rewrite Hp. simpl.
      rewrite (IH _ (acc ++ [(base, mask)])); [|done].
      unfold cached_regions. rewrite filter_cons_True by done. simpl.
      by rewrite <- app_assoc.
    + simpl. rewrite (IH _ acc Hp).
      unfold cached_regions. by rewrite filter_cons_False by done.
Qed.

Lemma parse_pma_cfg_run (pma_cfg : PMACfg) (self : SnitchCluster) :
  parse_pma_cfg pma_cfg self =
    (with_cfg (set_pmas {| cached := cached_regions (regions pma_cfg) |} (cfg self)) self,
     Ok tt).
Proof.
  unfold parse_pma_cfg. rewrite method_bind_unfold. simpl.
  rewrite (parse_pma_loop (regions pma_cfg) _ []) by done. simpl.
  destruct self as [c ? ? ?]. by destruct c.
Qed.

(** C7.  For every list of declared regions, [parse_pma_cfg] leaves in
    the configuration a cached partition that is exactly the list of
    the (base, length) pairs of the regions tagged CACHED, in the order
    of declaration: one entry per such region (nothing is merged, even
    for adjacent or overlapping regions) and no entry for a region with
    another attribute. *)
Theorem parse_pma_cfg_cached (declared : list region) (self : SnitchCluster) :
  parse_pma_cfg (declare declared) self =
    (with_cfg (set_pmas {| cached := cached_regions declared |} (cfg self)) self, Ok tt)
  ∧ length (cached_regions declared)
    = length (filter (λ r : region, r.1.1 = CACHED) declared)
  ∧ (∀ base len, (base, len) ∈ cached_regions declared ↔ (CACHED, base, len) ∈ declared)
  ∧ cached_regions [(CACHED, 0x80000000, 0x1000); (ATOMIC, 0, 16);
                    (CACHED, 0x80001000, 0x1000)]
    = [(0x80000000, 0x1000); (0x80001000, 0x1000)].
Proof.
  split; [|split; [|split]].
  - by rewrite parse_pma_cfg_run, declare_regions.
  - unfold cached_regions. by rewrite length_map.
  - intros base len. unfold cached_regions. rewrite list_elem_of_fmap. split.
    + intros ([[t b] l] & [= -> ->] & Hin). apply list_elem_of_filter in Hin.
      simpl in Hin. destruct Hin as [-> Hin]. done.
    + intros Hin. exists (CACHED, base, len). split; [done|].
      apply list_elem_of_filter. done.
  - reflexivity.
Qed.

(** ** Sanity checks *)

Lemma power_of_two_pos x : power_of_two x → 0 < x.
Proof. intros (k & Hk & ->). by apply Z.pow_pos_nonneg. Qed.

(** [is_pow2] returns [False] exactly on the powers of two. *)
Lemma is_pow2_false_iff x : is_pow2 x = Ok false ↔ power_of_two x.
Proof.
  unfold is_pow2, clog2. split.
  - destruct (x <=? 0) eqn:Hx; simpl; [done|].
    intros [= H]. apply negb_false_iff, Z.eqb_eq in H.
    exists (Z.log2_up x). split; [apply Z.log2_up_nonneg | done].
  - intros (k & Hk & ->).
    pose proof (Z.pow_pos_nonneg 2 k ltac:(lia) Hk) as Hpos.
    destruct (2 ^ k <=? 0) eqn:Hx; [lia|]. simpl.
    rewrite Z.log2_up_pow2 by done. by rewrite Z.eqb_refl.
Qed.

Lemma is_pow2_pos x : 0 < x → ∃ b, is_pow2 x = Ok b.
Proof.
  intros Hx. unfold is_pow2, clog2.
  destruct (x <=? 0) eqn:E; [lia|]. simpl. eauto.
Qed.

Lemma is_pow2_nonpos x : x ≤ 0 → is_pow2 x = Raise (ValueError "math domain error").
Proof.
  intros Hx. unfold is_pow2, clog2. destruct (x <=? 0) eqn:E; [done|lia].
Qed.

Lemma pymod_ok a b : b ≠ 0 → pymod a b = Ok (a mod b).
Proof. intros Hb. unfold pymod. destruct (b =? 0) eqn:E; [lia|done]. Qed.

Lemma pymod_zero_iff a b : pymod a b = Ok 0 → (b | a).
Proof.
  unfold pymod. destruct (b =? 0) eqn:E; [done|]. intros [= H].
  apply Z.mod_divide; [lia|done].
Qed.

(** The chain of checks clears the flag exactly when the eight rules
    hold. *)
Lemma cfg_validate_chain_pass_iff c :
  cfg_validate_chain c = Ok None ↔ sanity_rules c.
Proof.
  unfold cfg_validate_chain. split.
  - destruct (addr_width c <? 30) eqn:E1; [done|].
    destruct (negb ((data_width c =? 32) || (data_width c =? 64))) eqn:E2; [done|].
    destruct (dma_data_width c <=? 0) eqn:E3; [done|].
    apply negb_false_iff, orb_true_iff in E2. rewrite !Z.eqb_eq in E2.
    destruct (pymod (dma_data_width c) (data_width c)) as [r4|] eqn:E4; simpl; [|done].
    destruct (negb (r4 =? 0)) eqn:E4'; [done|].
    apply negb_false_iff, Z.eqb_eq in E4'. subst r4.
    destruct (is_pow2 (dma_data_width c)) as [[]|] eqn:E5; simpl; try done.
    destruct (pymod (tcdm_size (tcdm c)) (tcdm_banks (tcdm c))) as [r6|] eqn:E6;
      simpl; [|done].
    destruct (negb (r6 =? 0)) eqn:E6'; [done|].
    apply negb_false_iff, Z.eqb_eq in E6'. subst r6.
    destruct (is_pow2 (tcdm_size (tcdm c))) as [[]|] eqn:E7; simpl; try done.
    destruct (is_pow2 (tcdm_banks (tcdm c))) as [[]|] eqn:E8; simpl; try done.
    intros _. constructor.
    + lia.
    + done.
    + lia.
    + by apply pymod_zero_iff.
    + by apply is_pow2_false_iff.
    + by apply pymod_zero_iff.
    + by apply is_pow2_false_iff.
    + by apply is_pow2_false_iff.
  - intros [R1 R2 R3 R4 R5 R6 R7 R8].
    destruct (addr_width c <? 30) eqn:E1; [lia|].
    destruct (negb ((data_width c =? 32) || (data_width c =? 64))) eqn:E2.
    { apply negb_true_iff, orb_false_iff in E2. lia. }
    destruct (dma_data_width c <=? 0) eqn:E3; [lia|].
    rewrite (pymod_ok (dma_data_width c) (data_width c)) by lia. simpl.
    apply Z.mod_divide in R4; [|lia]. rewrite R4. simpl.
    apply is_pow2_false_iff in R5. rewrite R5. simpl.
    pose proof (power_of_two_pos _ R7) as Hs.
    pose proof (power_of_two_pos _ R8) as Hb.
    rewrite (pymod_ok (tcdm_size (tcdm c)) (tcdm_banks (tcdm c))) by lia. simpl.
    apply Z.mod_divide in R6; [|lia]. rewrite R6. simpl.
    apply is_pow2_false_iff in R7, R8. rewrite R7. simpl. rewrite R8. done.
Qed.

(** With positive TCDM size and bank count no check raises. *)
Lemma cfg_validate_chain_returns c :
  0 < tcdm_size (tcdm c) → 0 < tcdm_banks (tcdm c) →
  ∃ fired, cfg_validate_chain c = Ok fired.
Proof.
  intros Hs Hb. unfold cfg_validate_chain.
  destruct (addr_width c <? 30); [eauto|].
  destruct (negb ((data_width c =? 32) || (data_width c =? 64))) eqn:E2; [eauto|].
  apply negb_false_iff, orb_true_iff in E2. rewrite !Z.eqb_eq in E2.
  destruct (dma_data_width c <=? 0) eqn:E3; [eauto|].
  rewrite (pymod_ok (dma_data_width c) (data_width c)) by lia. simpl.
  destruct (negb _); [eauto|].
  destruct (is_pow2_pos (dma_data_width c)) as [b5 ->]; [lia|]. simpl.
  destruct b5; [eauto|].
  rewrite (pymod_ok (tcdm_size (tcdm c)) (tcdm_banks (tcdm c))) by lia. simpl.
  destruct (negb _); [eauto|].
  destruct (is_pow2_pos _ Hs) as [b7 ->]. simpl. destruct b7; [eauto|].
  destruct (is_pow2_pos _ Hb) as [b8 ->]. simpl. destruct b8; eauto.
Qed.

Lemma cfg_validate_result c :
  (cfg_validate c).2 =
  match cfg_validate_chain c with
  | Ok (Some _) => Ok true
  | Ok None => Ok false
  | Raise e => Raise e
  end.
Proof. unfold cfg_validate. by destruct (cfg_validate_chain c) as [[?|]|]. Qed.

(** X25.  [cfg_validate] passes (returns [False]) exactly when the eight
    rules hold.  When a rule is violated the validation does not pass:
    it returns [True], the failure flag on which the constructor exits,
    or it ends in an exception of the arithmetic of a check (for a TCDM
    size or bank count that is not positive), which ends the
    constructor as well; with positive TCDM size and bank count it is
    always the flag.  A configuration that satisfies the eight rules
    passes with nothing logged but, when [dma_data_width] is not 512,
    the advisory, which does not change the result. *)
Theorem cfg_validate_sanity (c : cluster_cfg) :
  ((cfg_validate c).2 = Ok false ↔ sanity_rules c)
  ∧ (¬ sanity_rules c ↔
       (cfg_validate c).2 = Ok true ∨ ∃ e, (cfg_validate c).2 = Raise e)
  ∧ (0 < tcdm_size (tcdm c) → 0 < tcdm_banks (tcdm c) →
       ((cfg_validate c).2 = Ok true ↔ ¬ sanity_rules c))
  ∧ (sanity_rules c →
       cfg_validate c =
         (if dma_data_width c =? 512 then [] else [untested_warning], Ok false)).
Proof.
  pose proof (cfg_validate_chain_pass_iff c) as Hiff.
  pose proof (cfg_validate_result c) as Hres.
  split; [|split; [|split]].
  - rewrite Hres, <- Hiff. destruct (cfg_validate_chain c) as [[?|]|]; split; done.
  - rewrite Hres, <- Hiff.
    destruct (cfg_validate_chain c) as [[msg|]|e].
    + split; [intros _; by left | intros _ [=]].
    + split; [intros H; by destruct H | intros [H|[? H]]; done].
    + split; [intros _; right; eauto | intros _ [=]].
  - intros Hs Hb. destruct (cfg_validate_chain_returns c Hs Hb) as [fired Hf].
    rewrite Hres, <- Hiff, Hf. destruct fired; split; done.
  - intros HR. apply Hiff in HR. unfold cfg_validate. rewrite HR. simpl.
    by destruct (dma_data_width c =? 512).
Qed.

(** C4, at a document without a TCDM bank, whose other fields are those
    of a valid document: rules 6 and 8 are violated, and [cfg_validate]
    reports no failure.  The check of rule 6, [size % banks], divides
    by zero, so the call ends in [ZeroDivisionError] with nothing
    logged and no flag returned.  A bank count that does not divide the
    size (three banks) takes the sibling path: the message of the rule
    is logged and the flag returned. *)
Theorem cfg_validate_zero_banks :
  ¬ sanity_rules (doc_with_banks 0)
  ∧ cfg_validate (doc_with_banks 0) = ([], Raise ZeroDivisionError)
  ∧ cfg_validate (doc_with_banks 3) =
      ([LogError
          "The total size of the TCDM must be divisible by the requested amount of banks."],
       Ok true).
Proof.
  split; [|split; vm_compute; reflexivity].
  intros [_ _ _ _ _ _ _ R8]. apply power_of_two_pos in R8. simpl in R8. lia.
Qed.

(** ** Derived parameters *)

(** The loop over the hives leaves the TCDM part of the document alone,
    also when it raises on the way. *)
Lemma calc_hive_preserves_tcdm t i :
  preserves (λ self, tcdm (cfg self) = t) (calc_hive i).
Proof.
  unfold calc_hive.
  repeat preserves_step; apply preserves_modify; intros s Hs; exact Hs.
Qed.

Lemma floordiv_ok a b : b ≠ 0 → floordiv a b = Ok (a / b).
Proof. intros Hb. unfold floordiv. destruct (b =? 0) eqn:E; [lia|done]. Qed.

Lemma calc_cache_sizes_unfold self :
  calc_cache_sizes self =
  match floordiv (tcdm_size (tcdm (cfg self)) * 1024)
                 (tcdm_banks (tcdm (cfg self)) * (data_width (cfg self) / 8)) with
  | Ok depth =>
      for_each (seq 0 (length (hives (cfg self)))) calc_hive
               (with_cfg (set_tcdm_depth depth (cfg self)) self)
  | Raise e => (self, Raise e)
  end.
Proof.
  unfold calc_cache_sizes. rewrite !method_bind_unfold. simpl.
  rewrite method_bind_unfold. unfold lift.
  destruct (floordiv _ _); reflexivity.
Qed.

(** C6.  For every validated configuration (one on which
    [cfg_validate] returns [False]), [calc_cache_sizes] writes into
    [tcdm.depth] the value (size * 1024) / (banks * (data_width / 8))
    of truncating integer division, whether or not the loop over the
    hives that follows goes through; for a size of 128 KiB, 8 banks
    and a data width of 64 the depth is 2048. *)
Theorem calc_cache_sizes_tcdm_depth (self : SnitchCluster) :
  (cfg_validate (cfg self)).2 = Ok false →
  tcdm_depth (tcdm (cfg (calc_cache_sizes self).1))
    = Some (tcdm_depth_spec (cfg self))
  ∧ (tcdm_size (tcdm (cfg self)) = 128 → tcdm_banks (tcdm (cfg self)) = 8 →
     data_width (cfg self) = 64 →
     tcdm_depth (tcdm (cfg (calc_cache_sizes self).1)) = Some 2048).
Proof.
  intros Hv.
  assert (HR : sanity_rules (cfg self)).
  { apply cfg_validate_chain_pass_iff. rewrite cfg_validate_result in Hv.
    by destruct (cfg_validate_chain (cfg self)) as [[?|]|]. }
  destruct HR as [_ R2 _ _ _ _ R7 R8].
  apply power_of_two_pos in R7, R8.
  assert (Hbytes : data_width (cfg self) / 8 = Z.quot (data_width (cfg self)) 8
                   ∧ 0 < data_width (cfg self) / 8).
  { destruct R2 as [-> | ->]; split; reflexivity. }
  destruct Hbytes as [Hq Hpos].
  assert (Hdepth : tcdm_depth (tcdm (cfg (calc_cache_sizes self).1))
                   = Some (tcdm_depth_spec (cfg self))).
  { rewrite calc_cache_sizes_unfold, floordiv_ok by nia.
    match goal with
    | |- context [for_each ?xs calc_hive ?s] =>
        pose proof (preserves_for_each (λ s', tcdm (cfg s') = tcdm (cfg s)) xs calc_hive
                      (calc_hive_preserves_tcdm _) s eq_refl) as Hloop
    end.
    simpl in Hloop. rewrite Hloop. simpl.
    unfold tcdm_depth_spec. rewrite <- Hq.
    rewrite Z.quot_div_nonneg by nia. done. }
  split; [exact Hdepth|].
  intros Hs Hb Hd. rewrite Hdepth. unfold tcdm_depth_spec. rewrite Hs, Hb, Hd.
  reflexivity.
Qed.

(** ** The memory map *)

Lemma do_call_mems self c : mems (do_call self c) = mems self ∪ {[ key_of_call c ]}.
Proof. reflexivity. Qed.

Lemma do_call_desc self c k :
  mems_desc (do_call self c) !! k =
  if decide (k = key_of_call c) then file_desc (mems_desc self !! k) c
  else mems_desc self !! k.
Proof.
  unfold do_call, add_mem. simpl.
  change (call_width c, call_words c, 8, 1, 1, call_byte_enable c,
          call_speed_optimized c, call_density_optimized c) with (key_of_call c).
  destruct (decide (k = key_of_call c)) as [->|Hne].
  - destruct (mems_desc self !! key_of_call c); simpl; by rewrite lookup_insert_eq.
  - destruct (mems_desc self !! key_of_call c); simpl; by rewrite lookup_insert_ne.
Qed.

Lemma do_calls_app cs1 cs2 self :
  do_calls (cs1 ++ cs2) self = do_calls cs2 (do_calls cs1 self).
Proof. apply fold_left_app. Qed.

Lemma do_calls_mems cs self :
  mems (do_calls cs self) = mems self ∪ list_to_set (key_of_call <$> cs).
Proof.
  revert self. induction cs as [|c rest IH]; intros self; simpl.
  - set_solver.
  - rewrite IH, do_call_mems. set_solver.
Qed.

Lemma do_calls_desc cs self k :
  mems_desc (do_calls cs self) !! k =
  fold_left file_desc (filter (λ c, key_of_call c = k) cs) (mems_desc self !! k).
Proof.
  revert self. induction cs as [|c rest IH]; intros self; simpl; [done|].
  rewrite IH, do_call_desc.
  destruct (decide (k = key_of_call c)) as [->|Hne].
  - by rewrite filter_cons_True.
  - by rewrite filter_cons_False.
Qed.

Lemma fold_file_desc_Some cs descs :
  fold_left file_desc cs (Some descs) = Some (descs ++ (call_desc <$> cs)).
Proof.
  revert descs. induction cs as [|c rest IH]; intros descs; simpl.
  - by rewrite app_nil_r.
  - rewrite IH. by rewrite <- app_assoc.
Qed.

Lemma fold_file_desc_None cs :
  cs ≠ [] → fold_left file_desc cs None = Some (filed (call_desc <$> cs)).
Proof.
  destruct cs as [|c rest]; [done|]. intros _. simpl.
  by rewrite fold_file_desc_Some.
Qed.

Lemma new_builder_ok c tw : builder_ok (new_builder c tw).
Proof. split; intros k Hk; simpl in Hk; set_solver. Qed.

Lemma add_mem_ok n w be desc so do self :
  builder_ok self → builder_ok (add_mem n w be desc so do self).
Proof.
  intros [Hdom Hconst].
  pose (c := {| call_words := n; call_width := w; call_byte_enable := be;
                call_desc := desc; call_speed_optimized := so;
                call_density_optimized := do |}).
  change (add_mem n w be desc so do self) with (do_call self c).
  split; intros k Hk; rewrite do_call_mems in Hk;
    apply elem_of_union in Hk as [Hk|Hk%elem_of_singleton].
  - rewrite do_call_desc. case_decide.
    + destruct (mems_desc self !! k); simpl; eauto.
    + by apply Hdom.
  - rewrite do_call_desc. subst k. rewrite decide_True by done.
    destruct (mems_desc self !! key_of_call c); simpl; eauto.
  - by apply Hconst.
  - subst k. unfold key_of_call, call_shape. simpl. eauto 10.
Qed.

Lemma do_calls_ok cs self : builder_ok self → builder_ok (do_calls cs self).
Proof.
  revert self. induction cs as [|c rest IH]; intros self H; simpl; [done|].
  apply IH. by apply add_mem_ok.
Qed.

Lemma mapM_result_ok {A B} (f : A → result B) (g : A → B) (l : list A) :
  (∀ x, x ∈ l → f x = Ok (g x)) → mapM f l = Ok (g <$> l).
Proof.
  induction l as [|x rest IH]; intros H; simpl; [done|].
  rewrite (H x) by left. simpl.
  rewrite IH by (intros y Hy; apply H; by right). done.
Qed.

(** On a builder in order, [mem_entries] returns one entry per key of
    the set, with the descriptions filed under that key. *)
Lemma mem_entries_ok self :
  builder_ok self →
  mem_entries self =
    (self, Ok ((λ k, entry_of (descs_at self k) k) <$> elements (mems self))).
Proof.
  intros [Hdom _]. unfold mem_entries. f_equal.
  apply mapM_result_ok. intros k Hk%elem_of_elements.
  unfold descs_at. destruct (Hdom k Hk) as [descs ->]. done.
Qed.

Lemma key_of_entry_of descs k : key_of (entry_of descs k) = k.
Proof. by destruct k as [[[[[[[w n] bw] p] l] be] so] do]. Qed.

Lemma entries_with_key_elements (g : mem_key → list (option string)) k (l : list mem_key) :
  NoDup l → k ∈ l →
  entries_with_key k ((λ k, entry_of (g k) k) <$> l) = [entry_of (g k) k].
Proof.
  unfold entries_with_key.
  induction l as [|x rest IH]; intros Hnd Hin; [by apply elem_of_nil in Hin|].
  apply NoDup_cons in Hnd as [Hx Hnd]. simpl.
  destruct (decide (x = k)) as [->|Hne].
  - rewrite filter_cons_True by apply key_of_entry_of. f_equal.
    clear IH Hin. induction rest as [|y rest IH]; [done|]. simpl.
    rewrite filter_cons_False.
    + apply IH. { set_solver. } by apply NoDup_cons in Hnd as [_ ?].
    + rewrite key_of_entry_of. set_solver.
  - rewrite filter_cons_False by (by rewrite key_of_entry_of).
    apply IH; [done|]. set_solver.
Qed.

Lemma only_calls_pure {A} (m : method A) :
  (∀ self, (m self).1 = self) → only_calls m.
Proof.
  intros H self self' a Hm. exists []. simpl.
  specialize (H self). rewrite Hm in H. done.
Qed.

Lemma only_calls_add_mem n w be desc so do :
  only_calls (modify (add_mem n w be desc so do)).
Proof.
  intros self self' a [= <-].
  exists [{| call_words := n; call_width := w; call_byte_enable := be;
             call_desc := desc; call_speed_optimized := so;
             call_density_optimized := do |}]. done.
Qed.

Lemma only_calls_bind {A B} (m : method A) (k : A → method B) :
  only_calls m → (∀ a, only_calls (k a)) → only_calls (m ≫= k).
Proof.
  intros Hm Hk self self' b. rewrite method_bind_unfold.
  destruct (m self) as [s1 [a|e]] eqn:E; [|done].
  intros Hkb. destruct (Hm _ _ _ E) as [cs1 ->].
  destruct (Hk a _ _ _ Hkb) as [cs2 ->].
  exists (cs1 ++ cs2). by rewrite do_calls_app.
Qed.

Lemma only_calls_for_each {A} (xs : list A) (body : A → method unit) :
  (∀ x, only_calls (body x)) → only_calls (for_each xs body).
Proof.
  intros Hb. induction xs as [|x rest IH]; simpl.
  - by apply only_calls_pure.
  - apply only_calls_bind; [apply Hb | intros _; exact IH].
Qed.

Lemma add_hive_mems_only_calls ih : only_calls (add_hive_mems ih).
Proof.
  destruct ih as [i h]. unfold add_hive_mems.
  repeat first
    [ apply only_calls_add_mem
    | apply only_calls_bind; [|intros ?]
    | by apply only_calls_pure ].
Qed.

(** [memory_cfg], when it returns, returns the entries of the builder
    after some more [add_mem] calls. *)
Lemma memory_cfg_calls self entries :
  (memory_cfg self).2 = Ok entries →
  ∃ cs, (mem_entries (do_calls cs self)).2 = Ok entries.
Proof.
  unfold memory_cfg. rewrite method_bind_unfold. simpl.
  rewrite method_bind_unfold.
  destruct (from_option (KeyError "depth") (tcdm_depth (tcdm (cfg self))) self)
    as [s1 [depth|e]] eqn:E1; [|done].
  assert (s1 = self) as -> by (by destruct (tcdm_depth (tcdm (cfg self))); inversion E1).
  rewrite method_bind_unfold. simpl. rewrite method_bind_unfold.
  match goal with
  | |- context [for_each ?xs add_hive_mems ?s] =>
      destruct (for_each xs add_hive_mems s) as [s2 [[]|e]] eqn:E2; [|done];
      destruct (only_calls_for_each xs add_hive_mems add_hive_mems_only_calls _ _ _ E2)
        as [cs ->]
  end.
  intros H.
  exists ({| call_words := depth; call_width := data_width (cfg self);
             call_byte_enable := true; call_desc := Some "tcdm";
             call_speed_optimized := true; call_density_optimized := false |} :: cs).
  exact H.
Qed.

Lemma mem_entries_fixed_constants self :
  builder_ok self →
  ∃ entries, (mem_entries self).2 = Ok entries ∧ Forall fixed_constants entries.
Proof.
  intros Hok. rewrite (mem_entries_ok self Hok). simpl. eexists. split; [done|].
  apply Forall_fmap, Forall_forall. intros k Hk%elem_of_elements.
  destruct (builder_consts _ Hok k Hk) as (w & n & be & so & do & ->).
  by repeat split.
Qed.

(** C10.  Whatever the arguments of a sequence of [add_mem] calls on a
    new builder, the builder then gives a memory map, and every
    descriptor in it has a byte width of 8, one port and a latency of 1;
    the same holds of every entry of the list that [memory_cfg]
    serialises as the manifest, when it returns one. *)
Theorem add_mem_fixed_constants (c : cluster_cfg) (tw : option Z) (cs : list mem_call) :
  (∃ entries, (mem_entries (do_calls cs (new_builder c tw))).2 = Ok entries
              ∧ Forall fixed_constants entries)
  ∧ (∀ entries, (memory_cfg (do_calls cs (new_builder c tw))).2 = Ok entries →
                Forall fixed_constants entries).
Proof.
  split.
  - apply mem_entries_fixed_constants, do_calls_ok, new_builder_ok.
  - intros entries [cs' H]%memory_cfg_calls.
    destruct (mem_entries_fixed_constants (do_calls cs' (do_calls cs (new_builder c tw))))
      as (entries' & H' & Hall).
    { apply do_calls_ok, do_calls_ok, new_builder_ok. }
    rewrite H in H'. by injection H' as <-.
Qed.

Lemma desc_or_empty_Some d : desc_or_empty (Some d) = d.
Proof. by destruct d. Qed.

(** After any calls on a new builder, the memory map has exactly one
    entry for each key that a call filed, and its descriptions are those
    of the calls with that key, in the order of the calls. *)
Lemma mem_entries_one_per_key c tw cs k :
  k ∈ key_of_call <$> cs →
  ∃ entries,
    (mem_entries (do_calls cs (new_builder c tw))).2 = Ok entries ∧
    entries_with_key k entries =
      [entry_of (filed (call_desc <$> filter (λ c, key_of_call c = k) cs)) k].
Proof.
  intros Hk.
  assert (Hok : builder_ok (do_calls cs (new_builder c tw)))
    by apply do_calls_ok, new_builder_ok.
  rewrite (mem_entries_ok _ Hok). simpl. eexists. split; [done|].
  rewrite (entries_with_key_elements _ k).
  - f_equal. f_equal. unfold descs_at. rewrite do_calls_desc. simpl.
    rewrite lookup_empty, fold_file_desc_None; [done|].
    apply list_elem_of_fmap in Hk as (c0 & -> & Hc0).
    intros Hnil. assert (Hin : c0 ∈ filter (λ c1, key_of_call c1 = key_of_call c0) cs)
      by (by apply list_elem_of_filter).
    rewrite Hnil in Hin. by apply elem_of_nil in Hin.
  - apply NoDup_elements.
  - apply elem_of_elements. rewrite do_calls_mems. simpl.
    apply elem_of_union_r, elem_of_list_to_set. done.
Qed.

Lemma filed_in_order c1 c2 d1 d2 (pre mid post : list mem_call) :
  call_desc c1 = Some d1 → call_desc c2 = Some d2 →
  in_order (Some d1) (Some d2)
    (filed (call_desc <$> (pre ++ c1 :: mid ++ c2 :: post))).
Proof.
  intros H1 H2. destruct pre as [|p0 pre].
  - rewrite app_nil_l, fmap_cons, fmap_app, fmap_cons, H1, H2.
    unfold filed. rewrite desc_or_empty_Some.
    by exists [], (call_desc <$> mid), (call_desc <$> post).
  - rewrite <- app_comm_cons, fmap_cons, fmap_app, fmap_cons, fmap_app, fmap_cons,
      H1, H2.
    unfold filed.
    by exists (Some (desc_or_empty (call_desc p0)) :: (call_desc <$> pre)),
              (call_desc <$> mid), (call_desc <$> post).
Qed.

Lemma key_of_call_shape c1 c2 :
  call_shape c1 = call_shape c2 → key_of_call c1 = key_of_call c2.
Proof. unfold key_of_call. by intros ->. Qed.

(** C5.  Take two [add_mem] calls with identical key tuples whose
    descriptions are the strings [d1] and [d2], the first before the
    second, among any other calls on a new builder.  The memory map
    then has exactly one descriptor with that key, and its description
    list has [d1] and then [d2]; it is the list of [d1] and [d2] when
    these two are the only calls.  The same is true of the list that
    [memory_cfg] builds after the two calls, when it returns one. *)
Theorem add_mem_deduplicates (c : cluster_cfg) (tw : option Z)
    (pre mid post : list mem_call) (c1 c2 : mem_call) (d1 d2 : string) :
  call_shape c1 = call_shape c2 →
  call_desc c1 = Some d1 → call_desc c2 = Some d2 →
  (∃ entries e,
      (mem_entries (do_calls (pre ++ c1 :: mid ++ c2 :: post) (new_builder c tw))).2
        = Ok entries
      ∧ entries_with_key (key_of_call c1) entries = [e]
      ∧ in_order (Some d1) (Some d2) (description e))
  ∧ (∃ entries e,
      (mem_entries (do_calls [c1; c2] (new_builder c tw))).2 = Ok entries
      ∧ entries_with_key (key_of_call c1) entries = [e]
      ∧ description e = [Some d1; Some d2])
  ∧ (∀ entries,
      (memory_cfg (do_calls (pre ++ c1 :: mid ++ [c2]) (new_builder c tw))).2
        = Ok entries →
      ∃ e, entries_with_key (key_of_call c1) entries = [e]
           ∧ in_order (Some d1) (Some d2) (description e)).
Proof.
  intros Hshape H1 H2. apply key_of_call_shape in Hshape.
  assert (Hgen : ∀ pre mid post, ∃ entries e,
      (mem_entries (do_calls (pre ++ c1 :: mid ++ c2 :: post) (new_builder c tw))).2
        = Ok entries
      ∧ entries_with_key (key_of_call c1) entries = [e]
      ∧ description e =
          filed (call_desc <$> (filter (λ c, key_of_call c = key_of_call c1) pre
            ++ c1 :: filter (λ c, key_of_call c = key_of_call c1) mid
            ++ c2 :: filter (λ c, key_of_call c = key_of_call c1) post))).
  { intros pre' mid' post'.
    destruct (mem_entries_one_per_key c tw (pre' ++ c1 :: mid' ++ c2 :: post')
                (key_of_call c1)) as (entries & Hent & Hone).
    { rewrite fmap_app, fmap_cons. apply elem_of_app. right. left. }
    exists entries. eexists. split; [exact Hent|]. split; [exact Hone|].
    rewrite filter_app, filter_cons_True by done.
    rewrite filter_app, filter_cons_True by done.
    by destruct (key_of_call c1) as [[[[[[[? ?] ?] ?] ?] ?] ?] ?]. }
  split; [|split].
  - destruct (Hgen pre mid post) as (entries & e & Hent & Hone & Hdesc).
    exists entries, e. split; [done|]. split; [done|].
    rewrite Hdesc. by apply filed_in_order.
  - destruct (Hgen [] [] []) as (entries & e & Hent & Hone & Hdesc).
    exists entries, e. split; [done|]. split; [done|].
    rewrite Hdesc. rewrite !filter_nil, !app_nil_l, !fmap_cons, H1, H2.
    unfold filed. by rewrite desc_or_empty_Some.
  - intros entries [post' Hm]%memory_cfg_calls.
    rewrite <- do_calls_app in Hm.
    replace ((pre ++ c1 :: mid ++ [c2]) ++ post')
      with (pre ++ c1 :: mid ++ c2 :: post') in Hm
      by (rewrite <- app_assoc; simpl; by rewrite <- app_assoc).
    destruct (Hgen pre mid post') as (entries' & e & Hent & Hone & Hdesc).
    rewrite Hm in Hent. injection Hent as <-.
    exists e. split; [done|]. rewrite Hdesc. by apply filed_in_order.
Qed.

Lemma for_each_app {A} (xs ys : list A) (body : A → method unit) self :
  for_each (xs ++ ys) body self =
  match for_each xs body self with
  | (s1, Ok _) => for_each ys body s1
  | (s1, Raise e) => (s1, Raise e)
  end.
Proof.
  revert self. induction xs as [|x rest IH]; intros self; simpl; [done|].
  rewrite !method_bind_unfold. destruct (body x self) as [s1 [[]|e]]; [apply IH|done].
Qed.

Lemma calc_hive_length n i :
  preserves (λ self, length (hives (cfg self)) = n) (calc_hive i).
Proof.
  unfold calc_hive.
  repeat preserves_step; apply preserves_modify; intros s Hs; simpl;
    by rewrite ?length_insert.
Qed.

(** One turn of the loop of [calc_cache_sizes] that went through. *)
Lemma calc_hive_run i self self' :
  calc_hive i self = (self', Ok tt) →
  ∃ h depth,
    hives (cfg self) !! i = Some h
    ∧ hives (cfg self') = <[i := set_icache_depth depth h]> (hives (cfg self))
    ∧ addr_width (cfg self') = addr_width (cfg self)
    ∧ tag_width self' =
        Some (addr_width (cfg self) - Z.log2_up (icache_cacheline (icache h) / 8)
              - Z.log2_up depth + 3).
Proof.
  unfold calc_hive, from_option, lift, get_self, modify.
  rewrite !method_bind_unfold. cbn [fst snd].
  destruct (hives (cfg self) !! i) as [h|]; [|done].
  rewrite ?method_bind_unfold.
  destruct (floordiv (icache_size (icache h) * 1024) (icache_sets (icache h)))
    as [q|]; [|done].
  rewrite ?method_bind_unfold.
  destruct (floordiv q (icache_cacheline (icache h) / 8)) as [depth|]; [|done].
  rewrite ?method_bind_unfold. cbn [fst snd].
  rewrite ?method_bind_unfold.
  unfold clog2.
  destruct (icache_cacheline (icache h) / 8 <=? 0); [done|].
  rewrite ?method_bind_unfold.
  destruct (depth <=? 0); [done|].
  intros [= <-]. exists h, depth. done.
Qed.

(** The tag width that [calc_cache_sizes] leaves in the object is the
    one of the last hive. *)
Lemma calc_cache_sizes_tag_width_last self self' hs h_last :
  calc_cache_sizes self = (self', Ok tt) →
  hives (cfg self') = hs ++ [h_last] →
  tag_width self' = own_tag_width (cfg self') h_last.
Proof.
  rewrite calc_cache_sizes_unfold.
  destruct (floordiv _ _) as [d0|]; [|done].
  set (s0 := with_cfg (set_tcdm_depth d0 (cfg self)) self).
  set (n := length (hives (cfg self))).
  intros Hrun Hlast.
  assert (Hlen : length (hives (cfg self')) = n).
  { pose proof (preserves_for_each (λ s, length (hives (cfg s)) = n) (seq 0 n)
                  calc_hive (calc_hive_length n) s0 eq_refl) as H.
    by rewrite Hrun in H. }
  rewrite Hlast, length_app in Hlen. simpl in Hlen.
  assert (Hn : n = S (length hs)) by lia. rewrite Hn in Hrun.
  rewrite seq_S, for_each_app in Hrun. simpl in Hrun.
  destruct (for_each (seq 0 (length hs)) calc_hive s0) as [s1 [[]|e]] eqn:Hpre; [|done].
  rewrite method_bind_unfold in Hrun.
  destruct (calc_hive (length hs) s1) as [s2 [[]|e]] eqn:Hturn; [|done].
  injection Hrun as ->.
  destruct (calc_hive_run _ _ _ Hturn) as (h & depth & Hh & Hhs & Haw & Htw).
  assert (Hl : hives (cfg self') !! length hs = Some h_last).
  { rewrite Hlast. by rewrite lookup_app_r, Nat.sub_diag by lia. }
  rewrite Hhs, list_lookup_insert_eq in Hl by (by eapply lookup_lt_Some).
  injection Hl as <-. rewrite Htw. unfold own_tag_width. simpl. by rewrite Haw.
Qed.

(** [memory_cfg] files the tag memory of every hive with the one
    [tag_width] of the object, whatever the geometry of the hive. *)
Lemma add_hive_mems_run i h self depth tw :
  icache_depth (icache h) = Some depth → tag_width self = Some tw →
  add_hive_mems (i, h) self =
    (do_calls
       [ {| call_words := depth; call_width := icache_cacheline (icache h);
            call_byte_enable := false; call_desc := Some (hive_desc "icache data" i);
            call_speed_optimized := true; call_density_optimized := false |};
         {| call_words := depth; call_width := tw;
            call_byte_enable := false; call_desc := Some (hive_desc "icache tag" i);
            call_speed_optimized := true; call_density_optimized := false |} ]
       self,
     Ok tt).
Proof.
  intros Hd Htw. unfold add_hive_mems, from_option, lift, get_self, modify.
  rewrite Hd. rewrite !method_bind_unfold. cbn [fst snd].
  rewrite ?method_bind_unfold. cbn [tag_width add_mem]. rewrite Htw.
  reflexivity.
Qed.

(** C1, at a document with two hives, of 8 KiB and 16 KiB of
    instruction cache.  The constructor derives the depths 256 and 512,
    so the tag width of hive 0 is 48 - 4 - 8 + 3 = 39 and the one of
    hive 1 is 38.  [calc_cache_sizes] keeps a single [tag_width], the
    one of the last hive, and [memory_cfg] files the tag memory of
    every hive with it: the descriptor of the tag memory of hive 0 has
    the width 38 of hive 1, not its own 39. *)
Theorem memory_cfg_tag_width_of_last_hive :
  ∃ self h0 h1 entries,
    SnitchCluster_init Ok two_hives_doc PMACfg_init = Ok self
    ∧ hives (cfg self) = [h0; h1]
    ∧ own_tag_width (cfg self) h0 = Some 39
    ∧ own_tag_width (cfg self) h1 = Some 38
    ∧ tag_width self = Some 38
    ∧ (memory_cfg self).2 = Ok entries
    ∧ entries_described "icache tag (hive 0)" entries =
        [ {| description := [Some "icache tag (hive 0)"]; width := 38; words := 256;
             byte_width := 8; ports := 1; latency := 1; byte_enable := false;
             speed_optimized := true; density_optimized := false |} ].
Proof.
  eexists _, _, _, _.
  split; [vm_compute; reflexivity|].
  split; [reflexivity|].
  split; [vm_compute; reflexivity|].
  split; [vm_compute; reflexivity|].
  split; [reflexivity|].
  split; [vm_compute; reflexivity|].
  vm_compute. reflexivity.
Qed.

(** ** Construction *)

Lemma method_bind_Ok {A B} (m : method A) (k : A → method B) self self' b :
  (m ≫= k) self = (self', Ok b) →
  ∃ s1 a, m self = (s1, Ok a) ∧ k a s1 = (self', Ok b).
Proof.
  rewrite method_bind_unfold. destruct (m self) as [s1 [a|e]]; [|done]. eauto.
Qed.

Lemma store_core_preserves (P : SnitchCluster → Prop) i j core :
  (∀ self hs, P self → P (with_cfg (set_hives hs (cfg self)) self)) →
  ∀ self, P self → P (store_core i j core self).
Proof.
  intros HP self H. unfold store_core.
  destruct (hives (cfg self) !! i); [by apply HP | done].
Qed.

Lemma parse_cores_preserves (P : SnitchCluster → Prop) :
  (∀ self hs, P self → P (with_cfg (set_hives hs (cfg self)) self)) →
  (∀ self nh nc cs, P self → P (with_cfg (set_counts nh nc cs (cfg self)) self)) →
  preserves P parse_cores.
Proof.
  intros Hh Hc. unfold parse_cores, parse_core.
  repeat preserves_step;
    try (apply preserves_modify; intros s Hs;
         first [ by apply store_core_preserves | by apply Hc ]).
Qed.

Lemma calc_cache_sizes_preserves (P : SnitchCluster → Prop) :
  (∀ self hs, P self → P (with_cfg (set_hives hs (cfg self)) self)) →
  (∀ self v, P self → P (with_cfg (set_tcdm_depth v (cfg self)) self)) →
  (∀ self w, P self → P (with_tag_width w self)) →
  preserves P calc_cache_sizes.
Proof.
  intros Hh Hd Hw. unfold calc_cache_sizes, calc_hive.
  repeat preserves_step;
    try (apply preserves_modify; intros s Hs;
         first [ by apply Hh | by apply Hd | by apply Hw ]).
Qed.

Section Construction.
Variable validate_cluster : cluster_cfg → result cluster_cfg.
Variable validate_tb : tb_cfg → result tb_cfg.

(** A cluster that was constructed has as its cached partition the
    CACHED regions of the PMA configuration it was given. *)
Lemma SnitchCluster_init_pmas doc pma_cfg self :
  SnitchCluster_init validate_cluster doc pma_cfg = Ok self →
  pmas (cfg self) = Some {| cached := cached_regions (regions pma_cfg) |}.
Proof.
  unfold SnitchCluster_init.
  destruct (validate_cluster doc) as [doc'|]; simpl; [|done].
  match goal with
  | |- context [SnitchCluster_construct pma_cfg ?s] =>
      destruct (SnitchCluster_construct pma_cfg s) as [s' [[]|]] eqn:E; [|done]
  end.
  intros [= ->]. unfold SnitchCluster_construct in E.
  apply method_bind_Ok in E as (s1 & a1 & _ & E).
  apply method_bind_Ok in E as (s2 & a2 & _ & E).
  apply method_bind_Ok in E as (s3 & a3 & _ & E).
  apply method_bind_Ok in E as (s4 & a4 & _ & E).
  apply method_bind_Ok in E as (s5 & a5 & _ & E).
  apply method_bind_Ok in E as (s6 & a6 & Hpma & E).
  rewrite parse_pma_cfg_run in Hpma. injection Hpma as <- _.
  match type of E with
  | parse_cores ?s = _ =>
      pose proof (parse_cores_preserves
        (λ s', pmas (cfg s') = Some {| cached := cached_regions (regions pma_cfg) |})
        ltac:(done) ltac:(done) s eq_refl) as Hp;
      rewrite E in Hp
  end.
  exact Hp.
Qed.

(** Construction leaves the memory builder as it created it. *)
Lemma SnitchCluster_init_new_builder doc pma_cfg self :
  SnitchCluster_init validate_cluster doc pma_cfg = Ok self →
  self = new_builder (cfg self) (tag_width self).
Proof.
  unfold SnitchCluster_init.
  destruct (validate_cluster doc) as [doc'|]; simpl; [|done].
  match goal with
  | |- context [SnitchCluster_construct pma_cfg ?s] =>
      assert (Hp : preserves (λ s', mems s' = ∅ ∧ mems_desc s' = ∅)
                     (SnitchCluster_construct pma_cfg));
      [|specialize (Hp s (conj eq_refl eq_refl));
        destruct (SnitchCluster_construct pma_cfg s) as [s' [[]|]]; [|done]]
  end.
  - unfold SnitchCluster_construct.
    repeat first
      [ apply calc_cache_sizes_preserves; try done
      | apply parse_cores_preserves; try done
      | apply preserves_modify; done
      | preserves_step ].
    + match goal with
      | |- preserves _ (if ?failed then _ else _) => destruct failed
      end; preserves_step.
    + unfold parse_pma_cfg, append_cached.
      repeat first [ apply preserves_modify; done | preserves_step ].
      match goal with
      | pma : region |- _ => destruct pma as [[tag base] mask]
      end.
      case_decide; [|preserves_step].
      repeat first [ apply preserves_modify; done | preserves_step ].
  - intros [= <-]. simpl in Hp. destruct Hp as [Hm Hd].
    destruct s' as [c ms md tw]. simpl in *. by subst.
Qed.

(** C8.  For a test bench document that passes its schema validation
    (leaving [doc']), the constructor builds a PMA configuration with
    exactly one region, tagged CACHED, from the DRAM address and of
    the DRAM length that the document declares, sets [tie_ports] of
    the embedded cluster document to [True], and then constructs the
    cluster from that document and that PMA configuration.  A cluster
    that comes out of it has the DRAM range as its only cached
    region. *)
Theorem SnitchClusterTB_init_composition (doc doc' : tb_cfg) :
  validate_tb doc = Ok doc' →
  let pma_cfg := (tb_prepare doc').1 in
  let cluster_doc := cluster (tb_prepare doc').2 in
  regions pma_cfg = [(CACHED, dram_address (dram doc'), dram_length (dram doc'))]
  ∧ tie_ports cluster_doc = true
  ∧ cluster_doc = set_tie_ports true (cluster doc')
  ∧ SnitchClusterTB_init validate_cluster validate_tb doc =
      (cl ← SnitchCluster_init validate_cluster cluster_doc pma_cfg;
       Ok {| tb_self_cfg := {| dram := dram doc'; cluster := cfg cl |};
             tb_self_cluster := cl |})
  ∧ (∀ tb, SnitchClusterTB_init validate_cluster validate_tb doc = Ok tb →
       pmas (cfg (tb_self_cluster tb)) =
         Some {| cached := [(dram_address (dram doc'), dram_length (dram doc'))] |}).
Proof.
  intros Hv. simpl.
  split; [done|]. split; [done|]. split; [done|].
  assert (Hinit : SnitchClusterTB_init validate_cluster validate_tb doc =
    (cl ← SnitchCluster_init validate_cluster (set_tie_ports true (cluster doc'))
            (add_region PMACfg_init CACHED (dram_address (dram doc'))
               (dram_length (dram doc')));
     Ok {| tb_self_cfg := {| dram := dram doc'; cluster := cfg cl |};
           tb_self_cluster := cl |})).
  { unfold SnitchClusterTB_init. rewrite Hv. reflexivity. }
  split; [exact Hinit|].
  intros tb. rewrite Hinit.
  destruct (SnitchCluster_init _ _ _) as [cl|] eqn:E; simpl; [|done].
  intros [= <-]. simpl. by rewrite (SnitchCluster_init_pmas _ _ _ E).
Qed.
End Construction.

(** ** Default filling *)

Lemma dict_set_same k v fields :
  dict_get k fields = Some v → dict_set k v fields = fields.
Proof.
  induction fields as [|[k' v'] rest IH]; simpl; [done|].
  destruct (String.eqb k k'); [by intros [= ->]|].
  intros H. by rewrite IH.
Qed.

Lemma dict_get_set k k' v fields :
  dict_get k (dict_set k' v fields) =
  if String.eqb k k' then (λ _, v) <$> dict_get k fields else dict_get k fields.
Proof.
  induction fields as [|[k0 v0] rest IH]; simpl.
  - by destruct (String.eqb k k').
  - destruct (String.eqb k' k0) eqn:E0; simpl.
    + apply String.eqb_eq in E0. subst k0.
      destruct (String.eqb k k') eqn:E; simpl; [done|done].
    + destruct (String.eqb k k0) eqn:E1; simpl.
      * apply String.eqb_eq in E1. subst k0.
        destruct (String.eqb k k') eqn:E; [|done].
        apply String.eqb_eq in E. subst k'. by rewrite String.eqb_refl in E0.
      * exact IH.
Qed.

Lemma dict_get_setdefault k k' v fields :
  is_Some (dict_get k fields) → is_Some (dict_get k (setdefault k' v fields)).
Proof.
  unfold setdefault. destruct (dict_get k' fields); [done|].
  induction fields as [|[k0 v0] rest IH]; simpl; [by intros [? [=]]|].
  destruct (String.eqb k k0); auto.
Qed.

Lemma dict_get_setdefault_same k v fields :
  is_Some (dict_get k (setdefault k v fields)).
Proof.
  unfold setdefault. destruct (dict_get k fields) eqn:E; [by rewrite E|].
  clear E. induction fields as [|[k0 v0] rest IH]; simpl.
  - rewrite String.eqb_refl. eauto.
  - destruct (String.eqb k k0); eauto.
Qed.

Lemma descend_each_unchanged (f : json → json * result unit) xs :
  (∀ x, x ∈ xs → (f x).1 = x) → (descend_each f xs).1 = xs.
Proof.
  induction xs as [|x rest IH]; intros H; simpl; [done|].
  pose proof (H x ltac:(left)) as Hx.
  destruct (f x) as [x' [[]|e]]; simpl in *; subst x'; [|done].
  specialize (IH (λ y Hy, H y ltac:(by right))).
  destruct (descend_each f rest) as [rest' r]. simpl in *. by subst.
Qed.

(** With every default in place the first loop of [set_defaults]
    inserts nothing (and does not raise). *)
Lemma fill_defaults_specified ps instance :
  properties_specified ps instance = true →
  fill_defaults ps instance = (instance, Ok tt).
Proof.
  induction ps as [|property sub rest IH] using properties_ind; simpl; [done|].
  intros [Hp Hrest]%andb_true_iff. specialize (IH Hrest).
  unfold has_default in Hp.
  destruct (default_of sub) as [dv|]; [|exact IH].
  destruct instance as [| | | | |fields]; try done.
  unfold setdefault. destruct (dict_get property fields); [exact IH|done].
Qed.

(** A fully specified document goes through the traversal unchanged,
    however the traversal ends. *)
Lemma descend_fully_specified :
  (∀ s instance,
     fully_specified s instance = true → (descend s instance).1 = instance)
  ∧ (∀ ps instance,
     properties_specified ps instance = true →
     (validate_properties ps instance).1 = instance).
Proof.
  apply schema_properties_ind.
  - done.
  - intros v rest IH instance H. simpl in *. by apply IH.
  - intros ps IHps rest IH instance [Hps Hrest]%andb_true_iff. simpl.
    rewrite (fill_defaults_specified ps instance Hps).
    specialize (IHps instance Hps).
    destruct (validate_properties ps instance) as [i2 [[]|e]]; simpl in *; subst i2.
    + by apply IH.
    + done.
  - intros sub IHsub rest IH instance [Hitems Hrest]%andb_true_iff. simpl.
    destruct instance as [| | | |xs|fields]; try (by apply IH).
    assert (Hxs : (descend_each (descend sub) xs).1 = xs).
    { apply descend_each_unchanged. intros x Hx. apply IHsub.
      rewrite forallb_forall in Hitems. apply Hitems. by apply list_elem_of_In. }
    destruct (descend_each (descend sub) xs) as [xs' [[]|e]]; simpl in *; subst xs'.
    + by apply IH.
    + done.
  - intros check rest IH instance H. simpl in *.
    destruct (check instance); [by apply IH|done].
  - done.
  - intros property sub IHsub rest IH instance [Hp Hrest]%andb_true_iff. simpl.
    destruct instance as [| | | | |fields]; try done.
    destruct (dict_get property fields) as [v|] eqn:Hget; [|by apply IH].
    specialize (IHsub v Hp).
    destruct (descend sub v) as [v' [[]|e]]; simpl in *; subst v';
      rewrite (dict_set_same _ _ _ Hget); [by apply IH|done].
Qed.

Lemma properties_specified_split ps instance :
  properties_specified ps instance =
  defaults_present ps instance && present_specified ps instance.
Proof.
  induction ps as [|property sub rest IH] using properties_ind; simpl; [done|].
  rewrite IH. clear IH.
  destruct instance as [| | | | |fields]; simpl;
    try (destruct (has_default sub), (defaults_present rest _),
           (present_specified rest _); done).
  destruct (dict_get property fields) as [v|]; simpl.
  - rewrite orb_true_r. simpl.
    destruct (fully_specified sub v), (defaults_present rest _),
      (present_specified rest _); done.
  - rewrite orb_false_r.
    destruct (has_default sub), (defaults_present rest _),
      (present_specified rest _); done.
Qed.

Lemma same_kind_refl a : same_kind a a.
Proof. done. Qed.

Lemma same_kind_trans a b c : same_kind a b → same_kind b c → same_kind a c.
Proof. intros [? ?] [? ?]. split; congruence. Qed.

Lemma get_non_obj k j : is_obj j = false → get k j = None.
Proof. by destruct j. Qed.

Lemma fill_defaults_non_obj ps instance :
  is_obj instance = false → (fill_defaults ps instance).1 = instance.
Proof.
  intros Hno. induction ps as [|property sub rest IH] using properties_ind; simpl; [done|].
  destruct (default_of sub); [|exact IH]. by destruct instance.
Qed.

Lemma fill_defaults_kind ps instance :
  same_kind (fill_defaults ps instance).1 instance.
Proof.
  revert instance.
  induction ps as [|property sub rest IH] using properties_ind; intros instance; simpl;
    [done|].
  destruct (default_of sub); [|apply IH].
  destruct instance; try done.
  eapply same_kind_trans; [apply IH|done].
Qed.

Lemma fill_defaults_keys ps instance k :
  is_Some (get k instance) → is_Some (get k (fill_defaults ps instance).1).
Proof.
  revert instance.
  induction ps as [|property sub rest IH] using properties_ind; intros instance; simpl;
    [done|].
  destruct (default_of sub); [|apply IH].
  destruct instance as [| | | | |fields]; try done.
  intros H. apply IH. simpl. by apply dict_get_setdefault.
Qed.

Lemma defaults_present_mono ps a b :
  (∀ k, is_Some (get k a) → is_Some (get k b)) →
  defaults_present ps a = true → defaults_present ps b = true.
Proof.
  intros Hab. induction ps as [|property sub rest IH] using properties_ind; simpl; [done|].
  intros [Hp Hrest]%andb_true_iff. rewrite (IH Hrest), andb_true_r.
  apply orb_true_iff in Hp as [Hp|Hp]; [by rewrite Hp|].
  apply bool_decide_eq_true in Hp. rewrite (bool_decide_true _ (Hab _ Hp)).
  by rewrite orb_true_r.
Qed.

(** After the first loop of [set_defaults] returned, the properties
    with a default are present. *)
Lemma fill_defaults_present ps instance instance' :
  fill_defaults ps instance = (instance', Ok tt) →
  defaults_present ps instance' = true.
Proof.
  revert instance.
  induction ps as [|property sub rest IH] using properties_ind; intros instance; simpl;
    [done|].
  unfold has_default. destruct (default_of sub) as [dv|]; simpl.
  - destruct instance as [| | | | |fields]; try done.
    intros H. rewrite (IH _ H), andb_true_r.
    apply bool_decide_eq_true.
    pose proof (fill_defaults_keys rest (JObj (setdefault property dv fields)) property
                  (dict_get_setdefault_same _ _ _)) as Hk.
    by rewrite H in Hk.
  - intros H. by rewrite (IH _ H).
Qed.

Lemma validate_properties_non_obj ps instance :
  is_obj instance = false → validate_properties ps instance = (instance, Ok tt).
Proof. intros H. destruct ps; [done|]. by destruct instance. Qed.

Lemma validate_properties_kind ps instance :
  same_kind (validate_properties ps instance).1 instance.
Proof.
  revert instance.
  induction ps as [|property sub rest IH] using properties_ind; intros instance; simpl;
    [done|].
  destruct instance as [| | | | |fields]; try done.
  destruct (dict_get property fields) as [v|]; [|apply IH].
  destruct (descend sub v) as [v' [[]|e]]; [|done].
  eapply same_kind_trans; [apply IH|done].
Qed.

(** [validate_properties] keeps the keys of the instance, and the
    values under the keys that are not property names. *)
Lemma validate_properties_keys ps instance k :
  is_Some (get k instance) → is_Some (get k (validate_properties ps instance).1).
Proof.
  revert instance.
  induction ps as [|property sub rest IH] using properties_ind; intros instance; simpl;
    [done|].
  destruct instance as [| | | | |fields]; try done.
  destruct (dict_get property fields) as [v|] eqn:Hget; [|apply IH].
  assert (Hset : ∀ v', is_Some (get k (JObj fields)) →
                       is_Some (get k (JObj (dict_set property v' fields)))).
  { intros v'. simpl. rewrite dict_get_set.
    destruct (String.eqb k property); [|done]. intros [w ->]. simpl. eauto. }
  destruct (descend sub v) as [v' [[]|e]]; intros H.
  - apply IH. by apply Hset.
  - by apply Hset.
Qed.

Lemma validate_properties_frame ps instance k :
  k ∉ property_names ps →
  get k (validate_properties ps instance).1 = get k instance.
Proof.
  revert instance.
  induction ps as [|property sub rest IH] using properties_ind; intros instance; simpl;
    [done|].
  intros Hk. apply not_elem_of_cons in Hk as [Hne Hk].
  destruct instance as [| | | | |fields]; try done.
  destruct (dict_get property fields) as [v|] eqn:Hget; [|by apply IH].
  assert (Hset : ∀ v', get k (JObj (dict_set property v' fields)) = get k (JObj fields)).
  { intros v'. simpl. rewrite dict_get_set.
    destruct (String.eqb k property) eqn:E; [|done].
    by apply String.eqb_eq in E. }
  destruct (descend sub v) as [v' [[]|e]].
  - rewrite IH by done. apply Hset.
  - apply Hset.
Qed.

Lemma descend_kind s instance : same_kind (descend s instance).1 instance.
Proof.
  revert instance.
  induction s as [|v rest IH|ps rest IH|sub _ rest IH|check rest IH] using schema_ind;
    intros instance; simpl.
  - done.
  - apply IH.
  - pose proof (fill_defaults_kind ps instance) as H1.
    destruct (fill_defaults ps instance) as [i1 [[]|e]]; [|done]. simpl in H1.
    pose proof (validate_properties_kind ps i1) as H2.
    destruct (validate_properties ps i1) as [i2 [[]|e]]; simpl in H2.
    + eapply same_kind_trans; [apply IH|]. by eapply same_kind_trans.
    + by eapply same_kind_trans.
  - destruct instance as [| | | |xs|fields]; try apply IH.
    destruct (descend_each (descend sub) xs) as [xs' [[]|e]]; [|done].
    eapply same_kind_trans; [apply IH|done].
  - destruct (check instance); [apply IH|done].
Qed.

(** Without a ["properties"] keyword the traversal leaves a [dict]
    alone, and without an ["items"] keyword it leaves a [list] alone. *)
Lemma descend_obj_unchanged s instance :
  has_properties_keyword s = false → is_obj instance = true →
  (descend s instance).1 = instance.
Proof.
  intros Hs Ho.
  induction s as [|v rest IH|ps rest IH|sub _ rest IH|check rest IH] using schema_ind;
    simpl in *; try done.
  - by apply IH.
  - destruct instance; try done. by apply IH.
  - destruct (check instance); [by apply IH|done].
Qed.

Lemma descend_arr_unchanged s instance :
  has_items_keyword s = false → is_arr instance = true →
  (descend s instance).1 = instance.
Proof.
  intros Hs Ha.
  assert (Hno : is_obj instance = false) by (by destruct instance).
  induction s as [|v rest IH|ps rest IH|sub _ rest IH|check rest IH] using schema_ind;
    simpl in *; try done.
  - by apply IH.
  - pose proof (fill_defaults_non_obj ps instance Hno) as H1.
    destruct (fill_defaults ps instance) as [i1 [[]|e]]; simpl in H1; subst i1; [|done].
    rewrite (validate_properties_non_obj ps instance Hno). by apply IH.
  - destruct (check instance); [by apply IH|done].
Qed.

Lemma descend_each_Ok (f : json → json * result unit) xs xs' :
  descend_each f xs = (xs', Ok tt) → Forall2 (λ x x', f x = (x', Ok tt)) xs xs'.
Proof.
  revert xs'. induction xs as [|x rest IH]; intros xs'; simpl.
  - intros [= <-]. constructor.
  - destruct (f x) as [x' [[]|e]] eqn:Hx; [|done].
    destruct (descend_each f rest) as [rest' r] eqn:Hrest.
    intros [= <- ->]. constructor; [done|]. by apply IH.
Qed.

Lemma present_specified_non_obj ps instance :
  is_obj instance = false → present_specified ps instance = true.
Proof.
  intros Hno. induction ps as [|property sub rest IH] using properties_ind; simpl; [done|].
  by rewrite (get_non_obj _ _ Hno), IH.
Qed.

(** A traversal that went through leaves a fully specified document. *)
Lemma descend_specifies :
  (∀ s, unique_keys s = true → ∀ instance instance',
     descend s instance = (instance', Ok tt) →
     fully_specified s instance' = true)
  ∧ (∀ ps, unique_names ps = true → ∀ instance instance',
     validate_properties ps instance = (instance', Ok tt) →
     present_specified ps instance' = true).
Proof.
  apply schema_properties_ind.
  - done.
  - intros v rest IH Hu instance instance' H. simpl in *. by eapply IH.
  - intros ps IHps rest IH Hu instance instance'. simpl in *.
    apply andb_true_iff in Hu as [[Hnp Hups]%andb_true_iff Hurest].
    apply negb_true_iff in Hnp.
    destruct (fill_defaults ps instance) as [i1 [[]|e]] eqn:E1; [|done].
    destruct (validate_properties ps i1) as [i2 [[]|e]] eqn:E2; [|done].
    intros E3. rewrite (IH Hurest _ _ E3), andb_true_r.
    rewrite properties_specified_split.
    pose proof (fill_defaults_present _ _ _ E1) as Hd1.
    pose proof (IHps Hups _ _ E2) as Hp2.
    destruct (is_obj i2) eqn:Ho2.
    + pose proof (descend_obj_unchanged rest i2 Hnp Ho2) as Hsame.
      rewrite E3 in Hsame. simpl in Hsame. subst instance'.
      rewrite Hp2, andb_true_r.
      apply (defaults_present_mono ps i1); [|done].
      intros k Hk. pose proof (validate_properties_keys ps i1 k Hk) as Hk'.
      by rewrite E2 in Hk'.
    + assert (Ho1 : is_obj i1 = false).
      { pose proof (validate_properties_kind ps i1) as [Hk _].
        rewrite E2 in Hk. simpl in Hk. congruence. }
      assert (Ho' : is_obj instance' = false).
      { pose proof (descend_kind rest i2) as [Hk _].
        rewrite E3 in Hk. simpl in Hk. congruence. }
      rewrite (present_specified_non_obj _ _ Ho'), andb_true_r.
      apply (defaults_present_mono ps i1); [|done].
      intros k. rewrite (get_non_obj _ _ Ho1). by intros [? [=]].
  - intros sub IHsub rest IH Hu instance instance'. simpl in *.
    apply andb_true_iff in Hu as [[Hni Husub]%andb_true_iff Hurest].
    apply negb_true_iff in Hni.
    assert (Hnon : is_arr instance = false →
                   descend rest instance = (instance', Ok tt) →
                   match instance' with
                   | JArr xs => forallb (fully_specified sub) xs
                   | _ => true
                   end && fully_specified rest instance' = true).
    { intros Hna E. rewrite (IH Hurest _ _ E), andb_true_r.
      pose proof (descend_kind rest instance) as [_ Hk].
      rewrite E in Hk. simpl in Hk. rewrite Hna in Hk. by destruct instance'. }
    destruct instance as [| | | |xs|fields]; try (by apply Hnon).
    destruct (descend_each (descend sub) xs) as [xs' [[]|e]] eqn:E1; [|done].
    intros E3. rewrite (IH Hurest _ _ E3), andb_true_r.
    pose proof (descend_arr_unchanged rest (JArr xs') Hni eq_refl) as Hsame.
    rewrite E3 in Hsame. simpl in Hsame. subst instance'.
    apply descend_each_Ok in E1. apply forallb_forall. intros x' Hx'.
    apply list_elem_of_In in Hx'.
    destruct (proj1 (list_elem_of_lookup xs' x') Hx') as [i Hi].
    destruct (Forall2_lookup_r _ _ _ _ _ E1 Hi) as (x & _ & Hx).
    by eapply IHsub.
  - intros check rest IH Hu instance instance'. simpl in *.
    destruct (check instance); [|done]. by apply IH.
  - done.
  - intros property sub IHsub rest IH Hu instance instance'. simpl in *.
    apply andb_true_iff in Hu as [[Hnin Husub]%andb_true_iff Hurest].
    apply negb_true_iff, bool_decide_eq_false in Hnin.
    destruct instance as [| | | | |fields];
      try (intros [= <-]; simpl; by rewrite present_specified_non_obj).
    destruct (dict_get property fields) as [v|] eqn:Hget.
    + destruct (descend sub v) as [v' [[]|e]] eqn:E1; [|done].
      intros E2. rewrite (IH Hurest _ _ E2), andb_true_r.
      pose proof (validate_properties_frame rest (JObj (dict_set property v' fields))
                    property Hnin) as Hf.
      rewrite E2 in Hf. simpl in Hf. rewrite Hf, dict_get_set, String.eqb_refl, Hget.
      simpl. by eapply IHsub.
    + intros E2. rewrite (IH Hurest _ _ E2), andb_true_r.
      pose proof (validate_properties_frame rest (JObj fields) property Hnin) as Hf.
      rewrite E2 in Hf. simpl in Hf. by rewrite Hf, Hget.
Qed.

Lemma Generator_validate_document root_schema doc :
  (Generator_validate root_schema doc).1 = (descend root_schema doc).1.
Proof.
  unfold Generator_validate.
  by destruct (descend root_schema doc) as [doc' [[]|[]]].
Qed.

Lemma Generator_validate_Ok root_schema doc :
  (Generator_validate root_schema doc).2 = Ok tt →
  descend root_schema doc = ((descend root_schema doc).1, Ok tt).
Proof.
  unfold Generator_validate.
  by destruct (descend root_schema doc) as [doc' [[]|[]]].
Qed.

Lemma same_keywords_refl :
  (∀ s, same_keywords s s) ∧ (∀ ps, same_properties ps ps).
Proof. apply schema_properties_ind; simpl; auto. Qed.

Lemma same_keywords_has_default s s2 :
  same_keywords s s2 → has_default s = has_default s2.
Proof.
  unfold has_default. revert s2.
  induction s as [|v rest IH|ps rest IH|sub _ rest IH|check rest IH] using schema_ind;
    intros [] H; simpl in *; try done; try (by apply IH); by apply IH, H.
Qed.

Lemma forallb_pointwise {A} (f g : A → bool) (l : list A) :
  (∀ x, f x = g x) → forallb f l = forallb g l.
Proof. intros H. induction l as [|x l IH]; simpl; [done|]. by rewrite H, IH. Qed.

Lemma same_keywords_fully_specified :
  (∀ s s2, same_keywords s s2 →
     ∀ instance, fully_specified s instance = fully_specified s2 instance)
  ∧ (∀ ps ps2, same_properties ps ps2 →
     ∀ instance, properties_specified ps instance = properties_specified ps2 instance).
Proof.
  apply schema_properties_ind.
  - by intros [].
  - intros v rest IH [] H instance; simpl in *; try done. by apply IH.
  - intros ps IHps rest IH [] H instance; simpl in *; try done.
    destruct H as [Hps Hrest]. by rewrite (IHps _ Hps), (IH _ Hrest).
  - intros sub IHsub rest IH [] H instance; simpl in *; try done.
    destruct H as [Hsub Hrest]. rewrite (IH _ Hrest). f_equal.
    destruct instance; try done.
    apply forallb_pointwise. intros x. by apply IHsub.
  - intros check rest IH [] H instance; simpl in *; try done.
    destruct H as [_ Hrest]. by apply IH.
  - by intros [].
  - intros property sub IHsub rest IH [] H instance; simpl in *; try done.
    destruct H as (<- & Hsub & Hrest).
    rewrite (IH _ Hrest), (same_keywords_has_default _ _ Hsub). f_equal.
    destruct instance; try done.
    destruct (dict_get property fields); [by apply IHsub|done].
Qed.

(** C9.  Validation with default filling leaves a document unchanged
    when every schema property with a declared default is already
    present in it, at every level; and a validation that went through
    leaves such a document, so that validating once more (with the
    schema as the first run left it) changes nothing: running it twice
    gives the document that running it once gives. *)
Theorem default_filling_idempotent (root_schema : schema) (doc : json) :
  (fully_specified root_schema doc = true →
     (Generator_validate root_schema doc).1 = doc)
  ∧ (unique_keys root_schema = true →
     (Generator_validate root_schema doc).2 = Ok tt →
     fully_specified root_schema (Generator_validate root_schema doc).1 = true
     ∧ (Generator_validate root_schema (Generator_validate root_schema doc).1).1
       = (Generator_validate root_schema doc).1
     ∧ ∀ schema2, same_keywords root_schema schema2 →
         (Generator_validate schema2 (Generator_validate root_schema doc).1).1
         = (Generator_validate root_schema doc).1).
Proof.
  split.
  - intros H. rewrite Generator_validate_document.
    by apply descend_fully_specified.
  - intros Hu Hok.
    assert (Hfull : fully_specified root_schema (Generator_validate root_schema doc).1
                    = true).
    { rewrite Generator_validate_document.
      eapply (proj1 descend_specifies); [done|]. by apply Generator_validate_Ok. }
    assert (Hgen : ∀ schema2, same_keywords root_schema schema2 →
         (Generator_validate schema2 (Generator_validate root_schema doc).1).1
         = (Generator_validate root_schema doc).1).
    { intros schema2 Hsame.
      rewrite (Generator_validate_document schema2).
      apply descend_fully_specified.
      by rewrite <- (proj1 same_keywords_fully_specified _ _ Hsame). }
    split; [done|]. split; [|done].
    apply Hgen, same_keywords_refl.
Qed.

(** ** Instances *)

Lemma cfg_validate_sanity_witness :
  sanity_rules (doc_with_dma 1024)
  ∧ cfg_validate (doc_with_dma 1024) = ([untested_warning], Ok false)
  ∧ ((cfg_validate (doc_with_dma 1024)).2 = Ok true ↔ ¬ sanity_rules (doc_with_dma 1024)).
Proof.
  destruct (cfg_validate_sanity (doc_with_dma 1024)) as (H1 & _ & H3 & H4).
  assert (HR : sanity_rules (doc_with_dma 1024)) by (apply H1; vm_compute; reflexivity).
  split; [exact HR|]. split; [exact (H4 HR)|]. apply H3; simpl; lia.
Defined.

Lemma calc_cache_sizes_tcdm_depth_witness :
  tcdm_depth (tcdm (cfg (calc_cache_sizes (new_builder (doc_with_dma 512) None)).1))
  = Some 2048.
Proof.
  destruct (calc_cache_sizes_tcdm_depth (new_builder (doc_with_dma 512) None))
    as [_ H]; [vm_compute; reflexivity|].
  apply H; reflexivity.
Defined.

Lemma add_mem_deduplicates_witness :
  (∃ entries e,
     (mem_entries (do_calls [call_a; call_b] (new_builder two_hives_doc None))).2
       = Ok entries
     ∧ entries_with_key (key_of_call call_a) entries = [e]
     ∧ description e = [Some "icache data (hive 0)"; Some "icache data (hive 1)"])
  ∧ (∃ entries e,
     (memory_cfg (do_calls [call_a; call_b]
        (new_builder (cfg two_hives_cluster) (tag_width two_hives_cluster)))).2
       = Ok entries
     ∧ entries_with_key (key_of_call call_a) entries = [e]
     ∧ in_order (Some "icache data (hive 0)") (Some "icache data (hive 1)")
         (description e)).
Proof.
  split.
  - exact (proj1 (proj2 (add_mem_deduplicates two_hives_doc None [] [] [] call_a call_b
                           "icache data (hive 0)" "icache data (hive 1)"
                           eq_refl eq_refl eq_refl))).
  - pose proof (proj2 (proj2 (add_mem_deduplicates (cfg two_hives_cluster)
                  (tag_width two_hives_cluster) [] [] [] call_a call_b
                  "icache data (hive 0)" "icache data (hive 1)"
                  eq_refl eq_refl eq_refl))) as H.
    cbn [app] in H.
    assert (Hm : ∃ entries,
      (memory_cfg (do_calls [call_a; call_b]
         (new_builder (cfg two_hives_cluster) (tag_width two_hives_cluster)))).2
        = Ok entries) by (eexists; vm_compute; reflexivity).
    destruct Hm as [entries Hm].
    destruct (H entries Hm) as (e & He & Ho).
    exists entries, e. split; [exact Hm|]. split; [exact He | exact Ho].
Defined.

Lemma add_mem_fixed_constants_witness :
  ∃ entries,
    (memory_cfg (do_calls [call_a; call_b]
       (new_builder (cfg two_hives_cluster) (tag_width two_hives_cluster)))).2
      = Ok entries
    ∧ Forall fixed_constants entries.
Proof.
  eexists. split; [vm_compute; reflexivity|].
  apply (proj2 (add_mem_fixed_constants (cfg two_hives_cluster)
                  (tag_width two_hives_cluster) [call_a; call_b])).
  vm_compute. reflexivity.
Defined.

Lemma SnitchClusterTB_init_composition_witness :
  ∃ tb,
    SnitchClusterTB_init Ok Ok tb_doc = Ok tb
    ∧ pmas (cfg (tb_self_cluster tb)) = Some {| cached := [(0x80000000, 0x10000000)] |}
    ∧ tie_ports (cfg (tb_self_cluster tb)) = true.
Proof.
  destruct (SnitchClusterTB_init_composition Ok Ok tb_doc tb_doc eq_refl)
    as (_ & _ & _ & _ & H).
  eexists. split; [vm_compute; reflexivity|].
  split; [apply H; vm_compute; reflexivity | vm_compute; reflexivity].
Defined.

Lemma default_filling_idempotent_witness :
  (Generator_validate cluster_schema sparse_doc).2 = Ok tt
  ∧ (Generator_validate cluster_schema sparse_doc).1 ≠ sparse_doc
  ∧ (Generator_validate cluster_schema
       (Generator_validate cluster_schema sparse_doc).1).1
    = (Generator_validate cluster_schema sparse_doc).1
  ∧ (Generator_validate cluster_schema filled_doc).1 = filled_doc.
Proof.
  split; [vm_compute; reflexivity|]. split; [vm_compute; discriminate|].
  split.
  - destruct (default_filling_idempotent cluster_schema sparse_doc) as [_ H].
    destruct H as (_ & H & _); [vm_compute; reflexivity | vm_compute; reflexivity|].
    exact H.
  - apply (proj1 (default_filling_idempotent cluster_schema filled_doc)).
    vm_compute. reflexivity.
Defined.


(** * Further properties *)

(** ** ISA strings *)

Lemma span_class_app p ext tail :
  all_chars p ext = true →
  match tail with EmptyString => True | String c _ => p c = false end →
  span_class p (ext +:+ tail) = (ext, tail).
Proof.
  intros Hext Htail. induction ext as [|c rest IH]; simpl in *.
  - destruct tail as [|c t]; [done|]. simpl. by rewrite Htail.
  - apply andb_true_iff in Hext as [Hc Hrest]. by rewrite Hc, (IH Hrest).
Qed.

Lemma span_class_inv p s taken remaining :
  span_class p s = (taken, remaining) →
  s = taken +:+ remaining ∧ all_chars p taken = true.
Proof.
  revert taken remaining. induction s as [|c rest IH]; intros taken remaining; simpl.
  - by intros [= <- <-].
  - destruct (p c) eqn:Hc; [|by intros [= <- <-]].
    destruct (span_class p rest) as [t r]. intros [= <- <-].
    destruct (IH _ _ eq_refl) as [-> Ht]. simpl. by rewrite Hc.
Qed.

Lemma at_dollar_cases s : at_dollar s = true → s = "" ∨ s = String LF "".
Proof.
  destruct s as [|c [|c' s']]; simpl; try done; [by left|].
  intros H%Ascii.eqb_eq. subst. by right.
Qed.

(** Setting the flags of a run of characters of the class. *)
Lemma fold_setattr_class ext isa :
  all_chars in_ext_class ext = true →
  RiscvISA.others isa = [] ∨ RiscvISA.others isa = ["|"] →
  let isa' := fold_left RiscvISA.setattr_true (chars ext) isa in
  RiscvISA.i isa' = RiscvISA.i isa ∧
  RiscvISA.e isa' = RiscvISA.e isa ∧
  RiscvISA.m isa' = RiscvISA.m isa || has_char "m" ext ∧
  RiscvISA.a isa' = RiscvISA.a isa || has_char "a" ext ∧
  RiscvISA.f isa' = RiscvISA.f isa || has_char "f" ext ∧
  RiscvISA.d isa' = RiscvISA.d isa || has_char "d" ext ∧
  RiscvISA.others isa' =
    if has_char "|" ext then ["|"] else RiscvISA.others isa.
Proof.
  revert isa. induction ext as [|c rest IH]; intros isa; simpl.
  - intros _ _. rewrite !orb_false_r. done.
  - intros [Hc Hrest]%andb_true_iff Ho.
    assert (Hcases : c = "m"%char ∨ c = "|"%char ∨ c = "a"%char ∨ c = "f"%char
                     ∨ c = "d"%char).
    { unfold in_ext_class in Hc. rewrite !orb_true_iff, !Ascii.eqb_eq in Hc. tauto. }
    assert (Ho' : RiscvISA.others (RiscvISA.setattr_true isa (String c EmptyString)) = []
                  ∨ RiscvISA.others (RiscvISA.setattr_true isa (String c EmptyString))
                    = ["|"]).
    { destruct Hcases as [->|[->|[->|[->| ->]]]]; simpl; try done.
      destruct Ho as [-> | ->]; simpl; by right. }
    specialize (IH (RiscvISA.setattr_true isa (String c EmptyString)) Hrest Ho').
    simpl in IH. destruct IH as (Hi & He & Hm & Ha & Hf & Hd & Hoth).
    rewrite Hi, He, Hm, Ha, Hf, Hd, Hoth.
    destruct Hcases as [->|[->|[->|[->| ->]]]]; simpl;
      rewrite ?orb_true_r, ?orb_false_r, ?orb_true_l, ?orb_false_l;
      repeat split; try reflexivity;
      try (destruct (RiscvISA.m isa), (RiscvISA.a isa), (RiscvISA.f isa),
             (RiscvISA.d isa); reflexivity).
    destruct (has_char "|" rest); [done|]. destruct Ho as [-> | ->]; done.
Qed.

(** The parser on a string of the shape that the pattern accepts. *)
Lemma parse_isa_string_shape c ext tail :
  is_base c = true → all_chars in_ext_class ext = true →
  tail = "" ∨ tail = String LF "" →
  parse_isa_string ("rv32" +:+ String c (ext +:+ tail)) = Ok (isa_of c ext).
Proof.
  intros Hb Hext Htail. unfold parse_isa_string, isa_string_match.
  change (strip_prefix "rv32" ("rv32" +:+ String c (ext +:+ tail)))
    with (Some (String c (ext +:+ tail))).
  cbv beta iota.
  rewrite Hb, (span_class_app in_ext_class ext tail Hext)
    by (destruct Htail as [-> | ->]; done).
  assert (Hd : at_dollar tail = true) by (destruct Htail as [-> | ->]; done).
  rewrite Hd. f_equal.
  assert (Hbase : c = "i"%char ∨ c = "e"%char).
  { unfold is_base in Hb. rewrite orb_true_iff, !Ascii.eqb_eq in Hb. done. }
  destruct (String.eqb ext "") eqn:Eext.
  - apply String.eqb_eq in Eext. subst ext.
    destruct Hbase as [-> | ->]; reflexivity.
  - pose proof (fold_setattr_class ext
      (RiscvISA.setattr_true RiscvISA.default (String c EmptyString)) Hext) as H.
    simpl in H. destruct H as (Hi & He & Hm & Ha & Hf & Hd' & Ho).
    { destruct Hbase as [-> | ->]; by left. }
    destruct (fold_left _ _ _) as [fi fe fm fa ff fd fo]. simpl in *. subst.
    unfold isa_of. destruct Hbase as [-> | ->]; simpl;
      by destruct (has_char "|" ext).
Qed.

Lemma parse_isa_string_accepted_inv s isa :
  parse_isa_string s = Ok isa →
  ∃ c ext tail,
    s = "rv32" +:+ String c (ext +:+ tail) ∧ is_base c = true
    ∧ all_chars in_ext_class ext = true ∧ (tail = "" ∨ tail = String LF "").
Proof.
  unfold parse_isa_string, isa_string_match.
  destruct (strip_prefix "rv32" s) as [[|c rest]|] eqn:Hp; try done.
  apply strip_prefix_Some in Hp.
  destruct (is_base c) eqn:Hb; [|done].
  destruct (span_class in_ext_class rest) as [g2 remaining] eqn:Hs.
  destruct (at_dollar remaining) eqn:Hd; [|done].
  intros _. apply span_class_inv in Hs as [-> Hall].
  exists c, g2, remaining. split; [done|]. split; [done|]. split; [done|].
  by apply at_dollar_cases.
Qed.

(** X1.  The strings that [parse_isa_string] accepts are exactly
    [rv32], one base letter i or e, any run of the characters m, a, f,
    d and the bar, and at most one line feed at the very end; every
    other string raises the error of an illegal ISA string. *)
Theorem parse_isa_string_accepts_iff (s : string) :
  (is_ok (parse_isa_string s) = true ↔
     ∃ c ext tail,
       s = "rv32" +:+ String c (ext +:+ tail) ∧ is_base c = true
       ∧ all_chars in_ext_class ext = true ∧ (tail = "" ∨ tail = String LF ""))
  ∧ (is_ok (parse_isa_string s) = false →
     parse_isa_string s = Raise (ValueError "Illegal ISA string.")).
Proof.
  split; [split|].
  - destruct (parse_isa_string s) as [isa|] eqn:E; [|done].
    intros _. by eapply parse_isa_string_accepted_inv.
  - intros (c & ext & tail & -> & Hb & Hext & Htail).
    by rewrite parse_isa_string_shape.
  - unfold parse_isa_string. by destruct (isa_string_match s) as [[g1 g2]|].
Qed.

(** X2.  On an accepted string the flags are read off the characters:
    the base flag is the one of the base letter, each of M, A, F, D is
    set exactly when its letter occurs among the extension characters,
    and a bar among them leaves one stray attribute named by the bar.
    Nothing depends on the line feed at the end. *)
Theorem parse_isa_string_flags (c : ascii) (ext tail : string) :
  is_base c = true → all_chars in_ext_class ext = true →
  tail = "" ∨ tail = String LF "" →
  parse_isa_string ("rv32" +:+ String c (ext +:+ tail)) = Ok (isa_of c ext).
Proof. apply parse_isa_string_shape. Qed.

(** X3.  Every [RiscvISA] that the parser returns has exactly one of
    the two base flags set. *)
Theorem parse_isa_string_one_base (s : string) (isa : RiscvISA.t) :
  parse_isa_string s = Ok isa →
  RiscvISA.i isa = negb (RiscvISA.e isa).
Proof.
  intros H.
  destruct (parse_isa_string_accepted_inv _ _ H) as (c & ext & tail & -> & Hb & He & Ht).
  rewrite parse_isa_string_shape in H by done. injection H as <-. simpl.
  unfold is_base in Hb. rewrite orb_true_iff, !Ascii.eqb_eq in Hb.
  destruct Hb as [-> | ->]; reflexivity.
Qed.

(** X4.  The order of the extension characters and their repetition do
    not matter: two accepted strings with the same base letter in which
    the same characters occur parse to the same result. *)
Theorem parse_isa_string_order_irrelevant (c : ascii) (ext1 ext2 : string) :
  is_base c = true →
  all_chars in_ext_class ext1 = true → all_chars in_ext_class ext2 = true →
  (∀ x, has_char x ext1 = has_char x ext2) →
  parse_isa_string ("rv32" +:+ String c ext1)
  = parse_isa_string ("rv32" +:+ String c ext2).
Proof.
  intros Hb H1 H2 Hsame.
  pose proof (parse_isa_string_shape c ext1 "" Hb H1 (or_introl eq_refl)) as E1.
  pose proof (parse_isa_string_shape c ext2 "" Hb H2 (or_introl eq_refl)) as E2.
  assert (Hnil : ∀ t, t +:+ "" = t).
  { intros t. induction t as [|x t IH]; [done|].
    change (String x (t +:+ "") = String x t). by rewrite IH. }
  rewrite Hnil in E1, E2. rewrite E1, E2. unfold isa_of. by rewrite !Hsame.
Qed.

(** ** Numeric helpers *)

(** X5.  [is_pow2] has its name the wrong way round and a domain: it
    raises the domain error of the logarithm on zero and on negative
    numbers, returns [False] on the powers of two and [True] on every
    other positive number. *)
Theorem is_pow2_answers (x : Z) :
  (x ≤ 0 → is_pow2 x = Raise (ValueError "math domain error"))
  ∧ (power_of_two x → is_pow2 x = Ok false)
  ∧ (0 < x → ¬ power_of_two x → is_pow2 x = Ok true).
Proof.
  split; [apply is_pow2_nonpos|]. split; [apply is_pow2_false_iff|].
  intros Hx Hn. destruct (is_pow2_pos x Hx) as [[] Hb]; [done|].
  by apply is_pow2_false_iff in Hb.
Qed.

Lemma hex_nonneg x : 0 ≤ x → hex x = "0x" +:+ drop2 (hex x).
Proof. destruct x as [|p|p]; [done|done|lia]. Qed.

(** X6.  For a number that is not negative [to_sv_hex] writes the
    hexadecimal digits of the number after the base marker, so that
    reading the digits back gives the number; the length comes first,
    in decimal, and a length of 0 is left out like a missing one. *)
Theorem to_sv_hex_digits (x : Z) :
  0 ≤ x →
  ∃ digits,
    HexString.to_Z ("0x" +:+ digits) = x
    ∧ to_sv_hex x None = "'h" +:+ digits
    ∧ to_sv_hex x (Some 0) = "'h" +:+ digits
    ∧ ∀ l, l ≠ 0 → to_sv_hex x (Some l) = pretty l +:+ "'h" +:+ digits.
Proof.
  intros Hx. exists (drop2 (hex x)). split.
  - rewrite <- (hex_nonneg x Hx). apply HexString.to_Z_of_Z.
  - split; [done|]. split; [done|].
    intros l Hl. unfold to_sv_hex. by destruct (l =? 0) eqn:E; [lia|].
Qed.

(** X7.  For a negative number the two characters that [to_sv_hex]
    cuts off are the sign and the zero of the prefix: the result has
    the letter x and then the digits of the absolute value, and the
    sign is lost. *)
Theorem to_sv_hex_negative (x : Z) :
  x < 0 →
  HexString.to_Z ("0x" +:+ drop2 (hex (- x))) = - x
  ∧ to_sv_hex x None = "'hx" +:+ drop2 (hex (- x))
  ∧ ∀ l, l ≠ 0 → to_sv_hex x (Some l) = pretty l +:+ "'hx" +:+ drop2 (hex (- x)).
Proof.
  intros Hx. split.
  - rewrite <- (hex_nonneg (- x)) by lia. apply HexString.to_Z_of_Z.
  - destruct x as [|p|p]; [lia|lia|]. split; [done|].
    intros l Hl. unfold to_sv_hex. by destruct (l =? 0) eqn:E; [lia|].
Qed.

(** ** Sanity checks *)

Lemma cfg_validate_raise_chain c e :
  cfg_validate c = ([], Raise e) ↔ cfg_validate_chain c = Raise e.
Proof.
  unfold cfg_validate. destruct (cfg_validate_chain c) as [fired|e']; split;
    try done; congruence.
Qed.

(** X8.  [cfg_validate] ends in an exception, with nothing logged,
    exactly when the first five rules hold and the checks of the TCDM
    meet a number outside their domain: a bank count of zero gives
    [ZeroDivisionError]; a size that is not positive but divisible by
    the bank count, or a negative bank count under a size that is a
    power of two and divisible by it, gives the domain error of the
    logarithm. *)
Theorem cfg_validate_raises (c : cluster_cfg) (e : exn) :
  cfg_validate c = ([], Raise e) ↔
  (30 ≤ addr_width c ∧ (data_width c = 32 ∨ data_width c = 64)
   ∧ 0 < dma_data_width c ∧ (data_width c | dma_data_width c)
   ∧ power_of_two (dma_data_width c))
  ∧ ((tcdm_banks (tcdm c) = 0 ∧ e = ZeroDivisionError)
     ∨ (tcdm_banks (tcdm c) ≠ 0 ∧ (tcdm_banks (tcdm c) | tcdm_size (tcdm c))
        ∧ tcdm_size (tcdm c) ≤ 0 ∧ e = ValueError "math domain error")
     ∨ (tcdm_banks (tcdm c) < 0 ∧ (tcdm_banks (tcdm c) | tcdm_size (tcdm c))
        ∧ power_of_two (tcdm_size (tcdm c)) ∧ e = ValueError "math domain error")).
Proof.
  rewrite cfg_validate_raise_chain. unfold cfg_validate_chain. split.
  - destruct (addr_width c <? 30) eqn:E1; [done|].
    destruct (negb ((data_width c =? 32) || (data_width c =? 64))) eqn:E2; [done|].
    destruct (dma_data_width c <=? 0) eqn:E3; [done|].
    apply negb_false_iff, orb_true_iff in E2. rewrite !Z.eqb_eq in E2.
    rewrite (pymod_ok (dma_data_width c) (data_width c)) by lia. simpl.
    destruct (negb (dma_data_width c mod data_width c =? 0)) eqn:E4; [done|].
    apply negb_false_iff, Z.eqb_eq in E4.
    destruct (is_pow2_pos (dma_data_width c)) as [b5 E5]; [lia|]. rewrite E5. simpl.
    destruct b5; [done|]. apply is_pow2_false_iff in E5.
    intros H. split.
    { repeat split; try lia; [apply Z.mod_divide; [lia|done] | done]. }
    revert H. unfold pymod at 1.
    destruct (tcdm_banks (tcdm c) =? 0) eqn:E6; simpl.
    { intros [= <-]. left. split; [lia|done]. }
    destruct (negb (tcdm_size (tcdm c) mod tcdm_banks (tcdm c) =? 0)) eqn:E6'; [done|].
    apply negb_false_iff, Z.eqb_eq in E6'.
    assert (Hdiv : (tcdm_banks (tcdm c) | tcdm_size (tcdm c)))
      by (apply Z.mod_divide; [lia|done]).
    destruct (Z_le_gt_dec (tcdm_size (tcdm c)) 0) as [Hs|Hs].
    { rewrite (is_pow2_nonpos _ Hs). simpl. intros [= <-]. right. left.
      repeat split; [lia|done|done]. }
    destruct (is_pow2_pos (tcdm_size (tcdm c))) as [b7 E7]; [lia|]. rewrite E7. simpl.
    destruct b7; [done|]. apply is_pow2_false_iff in E7.
    destruct (Z_le_gt_dec (tcdm_banks (tcdm c)) 0) as [Hb|Hb].
    { rewrite (is_pow2_nonpos _ Hb). simpl. intros [= <-]. right. right.
      repeat split; [lia|done|done]. }
    destruct (is_pow2_pos (tcdm_banks (tcdm c))) as [b8 E8]; [lia|]. rewrite E8. simpl.
    by destruct b8.
  - intros [(R1 & R2 & R3 & R4 & R5) Hcase].
    destruct (addr_width c <? 30) eqn:E1; [lia|].
    destruct (negb ((data_width c =? 32) || (data_width c =? 64))) eqn:E2.
    { apply negb_true_iff, orb_false_iff in E2. lia. }
    destruct (dma_data_width c <=? 0) eqn:E3; [lia|].
    rewrite (pymod_ok (dma_data_width c) (data_width c)) by lia. simpl.
    apply Z.mod_divide in R4; [|lia]. rewrite R4. simpl.
    apply is_pow2_false_iff in R5. rewrite R5. simpl.
    destruct Hcase as [[Hb ->]|[(Hb & Hdiv & Hs & ->)|(Hb & Hdiv & Hs & ->)]].
    + unfold pymod. rewrite Hb. done.
    + rewrite (pymod_ok (tcdm_size (tcdm c)) (tcdm_banks (tcdm c))) by done. simpl.
      apply Z.mod_divide in Hdiv; [|done]. rewrite Hdiv. simpl.
      by rewrite (is_pow2_nonpos _ Hs).
    + rewrite (pymod_ok (tcdm_size (tcdm c)) (tcdm_banks (tcdm c))) by lia. simpl.
      apply Z.mod_divide in Hdiv; [|lia]. rewrite Hdiv. simpl.
      apply is_pow2_false_iff in Hs. rewrite Hs. simpl.
      by rewrite (is_pow2_nonpos (tcdm_banks (tcdm c))) by lia.
Qed.

(** ** Derived parameters *)

Lemma calc_hive_ok i self h :
  hives (cfg self) !! i = Some h → derivable h →
  calc_hive i self =
    (with_hives (<[i := derive h]> (hives (cfg self)))
       (Some (derived_tag_width (addr_width (cfg self)) h)) self,
     Ok tt).
Proof.
  intros Hh (Hsets & Hcl & Hdepth).
  unfold calc_hive, from_option, lift, get_self, modify.
  rewrite !method_bind_unfold. cbn [fst snd]. rewrite Hh.
  rewrite ?method_bind_unfold.
  rewrite floordiv_ok by done. rewrite ?method_bind_unfold.
  rewrite floordiv_ok by lia. rewrite ?method_bind_unfold. cbn [fst snd].
  rewrite ?method_bind_unfold. unfold clog2.
  destruct (icache_cacheline (icache h) / 8 <=? 0) eqn:E1; [lia|].
  rewrite ?method_bind_unfold.
  fold (derived_depth h).
  destruct (derived_depth h <=? 0) eqn:E2; [lia|].
  reflexivity.
Qed.

Lemma calc_hive_ok_inv i self self' h :
  hives (cfg self) !! i = Some h → calc_hive i self = (self', Ok tt) → derivable h.
Proof.
  intros Hh.
  unfold calc_hive, from_option, lift, get_self, modify.
  rewrite !method_bind_unfold. cbn [fst snd]. rewrite Hh.
  rewrite ?method_bind_unfold. unfold floordiv at 1.
  destruct (icache_sets (icache h) =? 0) eqn:E0; [done|].
  rewrite ?method_bind_unfold. unfold floordiv.
  destruct (icache_cacheline (icache h) / 8 =? 0) eqn:E1; [done|].
  rewrite ?method_bind_unfold. cbn [fst snd].
  rewrite ?method_bind_unfold. unfold clog2.
  destruct (icache_cacheline (icache h) / 8 <=? 0) eqn:E2; [done|].
  rewrite ?method_bind_unfold.
  fold (derived_depth h).
  destruct (derived_depth h <=? 0) eqn:E3; [done|].
  intros _. repeat split; lia.
Qed.

Lemma with_hives_with_hives hs tw hs' tw' self :
  with_hives hs' tw' (with_hives hs tw self) = with_hives hs' tw' self.
Proof. destruct self as [c ? ? ?]. by destruct c. Qed.

Lemma derive_prefix_step (hs : list hive_cfg) k h :
  hs !! k = Some h →
  <[k := derive h]> ((derive <$> take k hs) ++ drop k hs)
  = (derive <$> take (S k) hs) ++ drop (S k) hs.
Proof.
  intros Hk. pose proof (lookup_lt_Some _ _ _ Hk) as Hlt.
  rewrite (take_S_r _ _ _ Hk), fmap_app, <- app_assoc. simpl.
  rewrite (drop_S _ _ _ Hk).
  assert (Hlen : length (derive <$> take k hs) = k)
    by (rewrite length_fmap, length_take; lia).
  rewrite insert_app_r_alt by lia. by rewrite Hlen, Nat.sub_diag.
Qed.

(** The first [k] turns of the loop, over hives that allow them. *)
Lemma calc_hive_loop self (k : nat) :
  (k ≤ length (hives (cfg self)))%nat →
  Forall derivable (take k (hives (cfg self))) →
  for_each (seq 0 k) calc_hive self =
    (with_hives ((derive <$> take k (hives (cfg self))) ++ drop k (hives (cfg self)))
       (tag_width_after self (take k (hives (cfg self)))) self,
     Ok tt).
Proof.
  induction k as [|k IH]; intros Hk Hall.
  - simpl. rewrite drop_0. unfold with_hives, tag_width_after. simpl.
    destruct self as [c ? ? ?]. by destruct c.
  - destruct (lookup_lt_is_Some_2 (hives (cfg self)) k ltac:(lia)) as [h Hh].
    rewrite (take_S_r _ _ _ Hh) in Hall. apply Forall_app in Hall as [Hpre Hh'].
    rewrite Forall_singleton in Hh'.
    rewrite seq_S, for_each_app, (IH ltac:(lia) Hpre). simpl.
    rewrite method_bind_unfold.
    rewrite (calc_hive_ok k _ h); [| |done].
    + simpl. rewrite with_hives_with_hives. f_equal.
      rewrite derive_prefix_step by done.
      unfold tag_width_after. rewrite (take_S_r _ _ _ Hh), last_snoc. simpl.
      destruct self as [c ? ? ?]. by destruct c.
    + simpl. rewrite lookup_app_r; rewrite length_fmap, length_take, Nat.min_l by lia;
        [|lia]. rewrite Nat.sub_diag, lookup_drop, Nat.add_0_r. done.
Qed.

(** A loop that went through met only hives that allow it. *)
Lemma calc_hive_loop_inv self self' (n k : nat) :
  n = length (hives (cfg self)) → (k ≤ n)%nat →
  for_each (seq 0 n) calc_hive self = (self', Ok tt) →
  Forall derivable (take k (hives (cfg self))).
Proof.
  intros Hn Hk Hrun. induction k as [|k IH]; [by rewrite take_0|].
  specialize (IH ltac:(lia)).
  destruct (lookup_lt_is_Some_2 (hives (cfg self)) k ltac:(lia)) as [h Hh].
  rewrite (take_S_r _ _ _ Hh). apply Forall_app. split; [done|].
  apply Forall_singleton.
  replace n with (k + S (n - S k))%nat in Hrun by lia.
  rewrite seq_app, for_each_app, (calc_hive_loop self k ltac:(lia) IH) in Hrun.
  simpl in Hrun. rewrite method_bind_unfold in Hrun.
  match type of Hrun with
  | context [calc_hive k ?s] =>
      destruct (calc_hive k s) as [s1 [[]|e]] eqn:E; [|done];
      apply (calc_hive_ok_inv k s s1 h); [|done]
  end.
  simpl. rewrite lookup_app_r; rewrite length_fmap, length_take, Nat.min_l by lia;
    [|lia]. rewrite Nat.sub_diag, lookup_drop, Nat.add_0_r. done.
Qed.

(** When [calc_cache_sizes] goes through. *)
Lemma calc_cache_sizes_ok_iff (self : SnitchCluster) :
  is_ok (calc_cache_sizes self).2 = true ↔
  tcdm_banks (tcdm (cfg self)) * (data_width (cfg self) / 8) ≠ 0
  ∧ Forall derivable (hives (cfg self)).
Proof.
  rewrite calc_cache_sizes_unfold. unfold floordiv.
  destruct (tcdm_banks (tcdm (cfg self)) * (data_width (cfg self) / 8) =? 0) eqn:E.
  { split; [done|]. intros [H _]. lia. }
  set (s0 := with_cfg _ self).
  assert (Hhs : hives (cfg s0) = hives (cfg self)) by done.
  split.
  - destruct (for_each _ _ s0) as [s' [[]|e]] eqn:Hrun; [|done]. intros _.
    split; [lia|].
    rewrite <- Hhs in Hrun.
    pose proof (calc_hive_loop_inv s0 s' _ (length (hives (cfg s0))) eq_refl
                  ltac:(lia) Hrun) as H.
    by rewrite firstn_all, Hhs in H.
  - intros [_ Hall]. rewrite <- Hhs.
    rewrite (calc_hive_loop s0 (length (hives (cfg s0)))); [done|lia|].
    by rewrite firstn_all, Hhs.
Qed.

(** The object that [calc_cache_sizes] leaves when it goes through. *)
Lemma calc_cache_sizes_run_inv (self self' : SnitchCluster) :
  calc_cache_sizes self = (self', Ok tt) →
  self' =
    with_hives (derive <$> hives (cfg self))
      (tag_width_after self (hives (cfg self)))
      (with_cfg
         (set_tcdm_depth
            (tcdm_size (tcdm (cfg self)) * 1024
             / (tcdm_banks (tcdm (cfg self)) * (data_width (cfg self) / 8)))
            (cfg self))
         self).
Proof.
  intros Hrun.
  assert (Hok : is_ok (calc_cache_sizes self).2 = true) by (by rewrite Hrun).
  apply calc_cache_sizes_ok_iff in Hok as [Hdiv Hall].
  rewrite calc_cache_sizes_unfold, floordiv_ok in Hrun by done.
  set (s0 := with_cfg _ self) in *.
  assert (Hhs : hives (cfg s0) = hives (cfg self)) by done.
  rewrite <- Hhs in Hrun at 1.
  rewrite (calc_hive_loop s0 (length (hives (cfg s0)))) in Hrun;
    [|lia|by rewrite firstn_all, Hhs].
  injection Hrun as <-.
  rewrite firstn_all, drop_all, app_nil_r. reflexivity.
Qed.

(** ** Cores *)

Lemma fold_each_app {A B} (xs ys : list A) (body : A → B → method B) acc self :
  fold_each (xs ++ ys) body acc self =
  match fold_each xs body acc self with
  | (s1, Ok acc1) => fold_each ys body acc1 s1
  | (s1, Raise e) => (s1, Raise e)
  end.
Proof.
  revert acc self. induction xs as [|x rest IH]; intros acc self; simpl; [done|].
  rewrite !method_bind_unfold.
  destruct (body x acc self) as [s1 [acc1|e]]; [apply IH|done].
Qed.

Lemma fmap_prefix_step {A} (f : A → A) (l : list A) k x :
  l !! k = Some x →
  <[k := f x]> ((f <$> take k l) ++ drop k l)
  = (f <$> take (S k) l) ++ drop (S k) l.
Proof.
  intros Hk. pose proof (lookup_lt_Some _ _ _ Hk) as Hlt.
  rewrite (take_S_r _ _ _ Hk), fmap_app, <- app_assoc. simpl.
  rewrite (drop_S _ _ _ Hk).
  assert (Hlen : length (f <$> take k l) = k)
    by (rewrite length_fmap, length_take; lia).
  rewrite insert_app_r_alt by lia. by rewrite Hlen, Nat.sub_diag.
Qed.

Lemma lookup_prefix_step {A} (f : A → A) (l : list A) k :
  ((f <$> take k l) ++ drop k l) !! k = l !! k.
Proof.
  destruct (decide (k < length l)%nat) as [Hlt|Hge].
  - rewrite lookup_app_r; rewrite length_fmap, length_take, Nat.min_l by lia; [|lia].
    by rewrite Nat.sub_diag, lookup_drop, Nat.add_0_r.
  - rewrite take_ge, drop_ge, app_nil_r by lia.
    rewrite list_lookup_fmap, (lookup_ge_None_2 l k) by lia. done.
Qed.

Lemma put_hives_put_hives hs hs' self :
  put_hives hs' (put_hives hs self) = put_hives hs' self.
Proof. destruct self as [c ? ? ?]. by destruct c. Qed.

Lemma put_hives_same self : put_hives (hives (cfg self)) self = self.
Proof. destruct self as [c ? ? ?]. by destruct c. Qed.

Lemma store_core_run i j core self h :
  hives (cfg self) !! i = Some h →
  store_core i j core self =
    put_hives (<[i := set_hive_cores (<[j := core]> (hive_cores h)) h]> (hives (cfg self)))
      self.
Proof. intros Hh. unfold store_core. by rewrite Hh. Qed.

Lemma parse_isa_string_raise s e :
  parse_isa_string s = Raise e → e = ValueError "Illegal ISA string.".
Proof.
  unfold parse_isa_string. destruct (isa_string_match s) as [[g1 g2]|]; [done|].
  by intros [= <-].
Qed.

(** One turn of the inner loop of [parse_cores]. *)
Lemma parse_core_run i j acc self h core :
  hives (cfg self) !! i = Some h → hive_cores h !! j = Some core →
  parse_core i j acc self =
    if legal core
    then (put_hives (<[i := set_hive_cores (<[j := annotated i core]> (hive_cores h)) h]>
                       (hives (cfg self))) self,
          Ok (acc ++ [annotated i core]))
    else (put_hives
            (<[i := set_hive_cores
                      (<[j := {| isa := isa core; hive := Some (Z.of_nat i);
                                 isa_parsed := isa_parsed core |}]> (hive_cores h)) h]>
               (hives (cfg self))) self,
          Raise (ValueError "Illegal ISA string.")).
Proof.
  intros Hh Hc. pose proof (lookup_lt_Some _ _ _ Hh) as Hi.
  unfold parse_core, from_option, lift, get_self, modify, legal, annotated.
  rewrite !method_bind_unfold. cbn [fst snd]. rewrite Hh.
  rewrite ?method_bind_unfold. rewrite Hc. rewrite ?method_bind_unfold.
  cbn [fst snd isa hive isa_parsed].
  rewrite (store_core_run _ _ _ _ h Hh). rewrite ?method_bind_unfold.
  destruct (parse_isa_string (isa core)) as [parsed|e] eqn:Hparse; cbn [is_ok].
  - rewrite ?method_bind_unfold. cbn [fst snd].
    erewrite store_core_run
      by (cbn [put_hives with_cfg cfg set_hives hives]; by apply list_lookup_insert_eq).
    rewrite put_hives_put_hives. cbn [put_hives with_cfg cfg set_hives hives].
    rewrite list_insert_insert_eq. cbn [set_hive_cores hive_cores icache].
    rewrite list_insert_insert_eq. reflexivity.
  - by rewrite (parse_isa_string_raise _ _ Hparse).
Qed.

Lemma set_hive_cores_same h : set_hive_cores (hive_cores h) h = h.
Proof. by destruct h. Qed.

Lemma set_hive_cores_twice cs cs' h :
  set_hive_cores cs' (set_hive_cores cs h) = set_hive_cores cs' h.
Proof. done. Qed.

Lemma fold_each_one {A B} (x : A) (body : A → B → method B) acc self :
  fold_each [x] body acc self = body x acc self.
Proof.
  simpl. rewrite method_bind_unfold. by destruct (body x acc self) as [s1 [acc1|e]].
Qed.

(** The first [k] turns of the inner loop for hive [i]: they go
    through when the first [k] cores are legal, and otherwise end in
    the error of the parser. *)
Lemma parse_core_loop i h self acc (k : nat) :
  hives (cfg self) !! i = Some h → (k ≤ length (hive_cores h))%nat →
  (Forall (λ c, legal c = true) (take k (hive_cores h)) →
     fold_each (seq 0 k) (parse_core i) acc self =
       (put_hives
          (<[i := set_hive_cores
                    ((annotated i <$> take k (hive_cores h)) ++ drop k (hive_cores h)) h]>
             (hives (cfg self))) self,
        Ok (acc ++ (annotated i <$> take k (hive_cores h)))))
  ∧ (¬ Forall (λ c, legal c = true) (take k (hive_cores h)) →
     ∃ s', fold_each (seq 0 k) (parse_core i) acc self =
             (s', Raise (ValueError "Illegal ISA string."))).
Proof.
  intros Hh. pose proof (lookup_lt_Some _ _ _ Hh) as Hi.
  induction k as [|k IH]; intros Hk.
  - split.
    + intros _. simpl. rewrite drop_0, set_hive_cores_same, app_nil_r.
      by rewrite (list_insert_id _ _ _ Hh), put_hives_same.
    + intros Hn. destruct Hn. rewrite take_0. constructor.
  - destruct (lookup_lt_is_Some_2 (hive_cores h) k ltac:(lia)) as [core Hcore].
    rewrite (take_S_r _ _ _ Hcore), seq_S. simpl.
    destruct (IH ltac:(lia)) as [IHok IHbad].
    destruct (Forall_dec (λ c, legal c = true) (take k (hive_cores h))) as [Hpre|Hpre].
    2:{ split.
        - intros [? _]%Forall_app. done.
        - intros _. destruct (IHbad Hpre) as [s' Hs'].
          exists s'. by rewrite fold_each_app, Hs'. }
    specialize (IHok Hpre).
    assert (Hrun : fold_each (seq 0 k ++ [k]) (parse_core i) acc self =
      if legal core
      then (put_hives
              (<[i := set_hive_cores
                        ((annotated i <$> take (S k) (hive_cores h))
                         ++ drop (S k) (hive_cores h)) h]> (hives (cfg self))) self,
            Ok (acc ++ (annotated i <$> take (S k) (hive_cores h))))
      else ((fold_each (seq 0 k ++ [k]) (parse_core i) acc self).1,
            Raise (ValueError "Illegal ISA string."))).
    { rewrite fold_each_app, IHok, fold_each_one.
      rewrite (parse_core_run i k _ _
                 (set_hive_cores ((annotated i <$> take k (hive_cores h))
                                  ++ drop k (hive_cores h)) h) core); cycle 1.
      - cbn [put_hives with_cfg cfg set_hives hives].
        apply list_lookup_insert_eq. exact Hi.
      - cbn [set_hive_cores hive_cores]. rewrite lookup_prefix_step. exact Hcore.
      - destruct (legal core); [|reflexivity].
        rewrite put_hives_put_hives. cbn [put_hives with_cfg cfg set_hives hives].
        rewrite list_insert_insert_eq. cbn [set_hive_cores hive_cores icache].
        rewrite (fmap_prefix_step (annotated i) _ _ _ Hcore).
        rewrite (take_S_r _ _ _ Hcore), fmap_app, <- !app_assoc. reflexivity. }
    rewrite (take_S_r _ _ _ Hcore) in Hrun.
    split.
    + intros [_ Hc]%Forall_app. rewrite Forall_singleton in Hc.
      by rewrite Hrun, Hc.
    + intros Hn. eexists. rewrite Hrun.
      destruct (legal core) eqn:Hc; [|done].
      destruct Hn. apply Forall_app. split; [done|]. by apply Forall_singleton.
Qed.

Lemma imap_take_S {A B} (f : nat → A → B) (l : list A) m x :
  l !! m = Some x →
  imap f (take (S m) l) = imap f (take m l) ++ [f m x].
Proof.
  intros Hm. pose proof (lookup_lt_Some _ _ _ Hm) as Hlt.
  rewrite (take_S_r _ _ _ Hm), imap_app. simpl.
  by rewrite length_take, Nat.min_l, Nat.add_0_r by lia.
Qed.

Lemma parse_hive_cores_loop_preserves (P : SnitchCluster → Prop) xs acc :
  (∀ self hs, P self → P (with_cfg (set_hives hs (cfg self)) self)) →
  preserves P (fold_each xs parse_hive_cores acc).
Proof.
  intros HP. apply preserves_fold_each. intros ih acc'.
  unfold parse_hive_cores, parse_core.
  repeat preserves_step;
    apply preserves_modify; intros s Hs; by apply store_core_preserves.
Qed.

(** The outer loop of [parse_cores] over the first [m] hives. *)
Lemma parse_hives_loop self (m : nat) :
  (m ≤ length (hives (cfg self)))%nat →
  (all_legal (take m (hives (cfg self))) →
     fold_each (imap pair (take m (hives (cfg self)))) parse_hive_cores [] self =
       (put_hives (imap annotated_hive (take m (hives (cfg self)))
                   ++ drop m (hives (cfg self))) self,
        Ok (concat (hive_cores <$> imap annotated_hive (take m (hives (cfg self)))))))
  ∧ (¬ all_legal (take m (hives (cfg self))) →
     ∃ s', fold_each (imap pair (take m (hives (cfg self)))) parse_hive_cores [] self =
             (s', Raise (ValueError "Illegal ISA string."))).
Proof.
  set (hs := hives (cfg self)).
  induction m as [|m IH]; intros Hm.
  - split.
    + intros _. rewrite take_0, drop_0. simpl. unfold hs. by rewrite put_hives_same.
    + intros Hn. destruct Hn. rewrite take_0. constructor.
  - destruct (lookup_lt_is_Some_2 hs m ltac:(lia)) as [h Hh].
    rewrite !(imap_take_S _ _ _ _ Hh), (take_S_r _ _ _ Hh).
    destruct (IH ltac:(lia)) as [IHok IHbad].
    destruct (decide (all_legal (take m hs))) as [Hpre|Hpre].
    2:{ split.
        - intros [? _]%Forall_app. done.
        - intros _. destruct (IHbad Hpre) as [s' Hs'].
          exists s'. by rewrite fold_each_app, Hs'. }
    specialize (IHok Hpre).
    assert (Hlen : length (imap annotated_hive (take m hs)) = m)
      by (rewrite length_imap, length_take; lia).
    assert (Hlook : hives (cfg (put_hives (imap annotated_hive (take m hs) ++ drop m hs)
                                  self)) !! m = Some h).
    { cbn [put_hives with_cfg cfg set_hives hives].
      rewrite lookup_app_r by lia. by rewrite Hlen, Nat.sub_diag, lookup_drop, Nat.add_0_r. }
    destruct (parse_core_loop m h _ (concat (hive_cores <$> imap annotated_hive (take m hs)))
                (length (hive_cores h)) Hlook ltac:(lia)) as [Hin_ok Hin_bad].
    rewrite firstn_all in Hin_ok, Hin_bad.
    split.
    + intros [_ Hc]%Forall_app. rewrite Forall_singleton in Hc.
      rewrite fold_each_app, IHok, fold_each_one.
      unfold parse_hive_cores at 1. cbn [fst snd].
      rewrite (Hin_ok Hc), put_hives_put_hives.
      cbn [put_hives with_cfg cfg set_hives hives].
      rewrite drop_all, app_nil_r. fold (annotated_hive m h).
      rewrite insert_app_r_alt by lia. rewrite Hlen, Nat.sub_diag.
      rewrite (drop_S _ _ _ Hh). cbn [insert list_insert].
      rewrite fmap_app, concat_app. cbn [fmap list_fmap concat annotated_hive
        set_hive_cores hive_cores]. rewrite app_nil_r, <- app_assoc. reflexivity.
    + intros Hn.
      assert (Hc : ¬ Forall (λ c, legal c = true) (hive_cores h)).
      { intros Hc. apply Hn, Forall_app. split; [done|]. by apply Forall_singleton. }
      destruct (Hin_bad Hc) as [s' Hs'].
      exists s'. rewrite fold_each_app, IHok, fold_each_one.
      unfold parse_hive_cores at 1. exact Hs'.
Qed.

Lemma parse_cores_unfold self :
  parse_cores self =
  match fold_each (imap pair (hives (cfg self))) parse_hive_cores [] self with
  | (s1, Ok cores) =>
      (with_cfg (set_counts (Z.of_nat (length (hives (cfg s1))))
                   (Z.of_nat (length cores)) cores (cfg s1)) s1,
       Ok tt)
  | (s1, Raise e) => (s1, Raise e)
  end.
Proof.
  unfold parse_cores. rewrite method_bind_unfold. cbn [get_self].
  rewrite method_bind_unfold.
  change (λ (ih : nat * hive_cfg) (acc : list core_cfg),
            fold_each (seq 0 (length (hive_cores ih.2))) (parse_core ih.1) acc)
    with parse_hive_cores.
  by destruct (fold_each _ parse_hive_cores [] self) as [s1 [cores|e]].
Qed.

(** [parse_cores] over cores with legal ISA strings. *)
Lemma parse_cores_run (self : SnitchCluster) :
  all_legal (hives (cfg self)) →
  let hs' := imap annotated_hive (hives (cfg self)) in
  let flat := concat (hive_cores <$> hs') in
  parse_cores self =
    (with_cfg (set_counts (Z.of_nat (length (hives (cfg self))))
                 (Z.of_nat (length flat)) flat (set_hives hs' (cfg self))) self,
     Ok tt)
  ∧ length flat = sum_list (length ∘ hive_cores <$> hives (cfg self)).
Proof.
  intros Hall hs' flat. split.
  - rewrite parse_cores_unfold.
    destruct (parse_hives_loop self (length (hives (cfg self))) ltac:(lia)) as [Hok _].
    rewrite firstn_all, drop_all, app_nil_r in Hok. rewrite (Hok Hall).
    cbn [put_hives with_cfg cfg set_hives hives]. rewrite length_imap.
    destruct self as [c ? ? ?]. by destruct c.
  - unfold flat, hs'. rewrite length_concat, <- list_fmap_compose. f_equal.
    apply list_eq. intros i. rewrite !list_lookup_fmap, list_lookup_imap.
    destruct (hives (cfg self) !! i) as [h|]; simpl; [|done].
    by rewrite length_fmap.
Qed.

(** How [parse_cores] ends. *)
Lemma parse_cores_outcome (self : SnitchCluster) :
  (is_ok (parse_cores self).2 = true ↔ all_legal (hives (cfg self)))
  ∧ (¬ all_legal (hives (cfg self)) →
     (parse_cores self).2 = Raise (ValueError "Illegal ISA string.")
     ∧ counts_of (cfg (parse_cores self).1) = counts_of (cfg self)).
Proof.
  destruct (parse_hives_loop self (length (hives (cfg self))) ltac:(lia)) as [Hok Hbad].
  rewrite firstn_all in Hok, Hbad.
  assert (Hraise : ¬ all_legal (hives (cfg self)) →
     (parse_cores self).2 = Raise (ValueError "Illegal ISA string.")
     ∧ counts_of (cfg (parse_cores self).1) = counts_of (cfg self)).
  { intros Hn. destruct (Hbad Hn) as [s' Hs'].
    pose proof (parse_hive_cores_loop_preserves
      (λ s, counts_of (cfg s) = counts_of (cfg self))
      (imap pair (hives (cfg self))) [] ltac:(done) self eq_refl) as Hp.
    rewrite parse_cores_unfold, Hs'. rewrite Hs' in Hp. done. }
  split; [|exact Hraise].
  split.
  - intros H. destruct (decide (all_legal (hives (cfg self)))) as [|Hn]; [done|].
    destruct (Hraise Hn) as [Hr _]. by rewrite Hr in H.
  - intros Hall. by rewrite parse_cores_unfold, (Hok Hall).
Qed.

(** X9.  [calc_cache_sizes] goes through exactly when the divisor of
    the TCDM depth is not zero and every hive has a number of sets
    that is not zero, a cacheline of at least 8 bits and a depth that
    comes out positive; otherwise it raises. *)
Theorem calc_cache_sizes_succeeds_iff (self : SnitchCluster) :
  (tcdm_banks (tcdm (cfg self)) * (data_width (cfg self) / 8) ≠ 0
   ∧ Forall derivable (hives (cfg self)) →
   ∃ self', calc_cache_sizes self = (self', Ok tt))
  ∧ (∀ self', calc_cache_sizes self = (self', Ok tt) →
     tcdm_banks (tcdm (cfg self)) * (data_width (cfg self) / 8) ≠ 0
     ∧ Forall derivable (hives (cfg self))).
Proof.
  split.
  - intros H%calc_cache_sizes_ok_iff.
    destruct (calc_cache_sizes self) as [self' [[]|e]]; [eauto|done].
  - intros self' Hrun. apply calc_cache_sizes_ok_iff. by rewrite Hrun.
Qed.

(** X10.  When [calc_cache_sizes] goes through it writes the depth of
    the TCDM, gives every hive its own depth
    [size * 1024 // sets // (cacheline // 8)] and changes nothing else
    in the document or the memory builder but the tag width.  The tag
    width that it leaves in the object is the one of the last hive
    (stated for a last hive whose cacheline bytes and depth are at most
    [2^32], where the logarithm in double precision of the source is
    the exact one), and with no hive at all the tag width stays as it
    was (unbound in a new object). *)
Theorem calc_cache_sizes_result (self self' : SnitchCluster) :
  calc_cache_sizes self = (self', Ok tt) →
  hives (cfg self') = derive <$> hives (cfg self)
  ∧ tcdm_depth (tcdm (cfg self')) =
      Some (tcdm_size (tcdm (cfg self)) * 1024
            / (tcdm_banks (tcdm (cfg self)) * (data_width (cfg self) / 8)))
  ∧ (∀ h, last (hives (cfg self)) = Some h → in_log2_range h →
       tag_width self' = Some (derived_tag_width (addr_width (cfg self)) h))
  ∧ (hives (cfg self) = [] → tag_width self' = tag_width self)
  ∧ self' =
      with_hives (hives (cfg self')) (tag_width self')
        (with_cfg (set_tcdm_depth (default 0 (tcdm_depth (tcdm (cfg self')))) (cfg self))
           self).
Proof.
  intros Hrun. apply calc_cache_sizes_run_inv in Hrun.
  assert (Htw : tag_width self' = tag_width_after self (hives (cfg self)))
    by (by rewrite Hrun).
  split; [by rewrite Hrun|]. split; [by rewrite Hrun|].
  unfold tag_width_after in Htw.
  split; [intros h Hlast _; by rewrite Htw, Hlast|].
  split; [intros Hnil; by rewrite Htw, Hnil|].
  rewrite Hrun at 1. by rewrite Hrun.
Qed.

(** X11.  When every core has a legal ISA string, [parse_cores] goes
    through: it writes into every core the index of its hive and its
    parsed ISA, sets [cores] to the cores of all hives in the order of
    the hives, [nr_hives] to the number of hives and [nr_cores] to the
    number of cores of all hives together, and changes nothing else. *)
Theorem parse_cores_result (self : SnitchCluster) :
  all_legal (hives (cfg self)) →
  ∃ self',
    parse_cores self = (self', Ok tt)
    ∧ hives (cfg self') = imap annotated_hive (hives (cfg self))
    ∧ cores (cfg self') = Some (concat (hive_cores <$> hives (cfg self')))
    ∧ nr_hives (cfg self') = Some (Z.of_nat (length (hives (cfg self))))
    ∧ nr_cores (cfg self') =
        Some (Z.of_nat (sum_list (length ∘ hive_cores <$> hives (cfg self))))
    ∧ self' =
        with_cfg (set_counts (default 0 (nr_hives (cfg self')))
                    (default 0 (nr_cores (cfg self')))
                    (default [] (cores (cfg self')))
                    (set_hives (hives (cfg self')) (cfg self))) self.
Proof.
  intros Hall. destruct (parse_cores_run self Hall) as [Hrun Hlen].
  eexists. split; [exact Hrun|]. cbn [cfg with_cfg set_counts hives cores nr_hives
    nr_cores set_hives default]. rewrite Hlen. done.
Qed.

(** X12.  [parse_cores] raises exactly when some core has an illegal
    ISA string, always with the error of the parser, and then none of
    [nr_hives], [nr_cores] and [cores] is written. *)
Theorem parse_cores_raises_iff (self : SnitchCluster) :
  ((∃ e, (parse_cores self).2 = Raise e) ↔ ¬ all_legal (hives (cfg self)))
  ∧ (∀ e, (parse_cores self).2 = Raise e →
       e = ValueError "Illegal ISA string."
       ∧ nr_hives (cfg (parse_cores self).1) = nr_hives (cfg self)
       ∧ nr_cores (cfg (parse_cores self).1) = nr_cores (cfg self)
       ∧ cores (cfg (parse_cores self).1) = cores (cfg self)).
Proof.
  destruct (parse_cores_outcome self) as [Hiff Hraise].
  assert (Hbad : ∀ e, (parse_cores self).2 = Raise e → ¬ all_legal (hives (cfg self))).
  { intros e He Hall. apply Hiff in Hall. by rewrite He in Hall. }
  split.
  - split; [intros [e He]; by eapply Hbad|].
    intros Hn. destruct (Hraise Hn) as [-> _]. eauto.
  - intros e He. destruct (Hraise (Hbad e He)) as [Hr Hc].
    rewrite Hr in He. injection He as <-. split; [done|].
    unfold counts_of in Hc. by injection Hc as -> -> ->.
Qed.

(** ** Construction, step by step *)

Lemma SnitchCluster_construct_unfold pma_cfg self :
  SnitchCluster_construct pma_cfg self =
  match cfg_validate_chain (cfg self) with
  | Raise e => (self, Raise e)
  | Ok (Some _) => (self, Raise (SystemExit "Failed parameter validation."))
  | Ok None =>
      match calc_cache_sizes
              (with_cfg (set_pkg_name (name (cfg self) +:+ "_pkg") (cfg self)) self) with
      | (s2, Ok _) =>
          match parse_pma_cfg pma_cfg s2 with
          | (s3, Ok _) => parse_cores s3
          | (s3, Raise e) => (s3, Raise e)
          end
      | (s2, Raise e) => (s2, Raise e)
      end
  end.
Proof.
  unfold SnitchCluster_construct. rewrite method_bind_unfold. cbn [get_self].
  rewrite method_bind_unfold. unfold lift at 1. rewrite cfg_validate_result.
  destruct (cfg_validate_chain (cfg self)) as [[msg|]|e]; [done| |done].
  rewrite method_bind_unfold. cbn [mret method_ret].
  rewrite method_bind_unfold. cbn [modify].
  rewrite method_bind_unfold.
  destruct (calc_cache_sizes _) as [s2 [[]|e]]; [|done].
  rewrite method_bind_unfold. by destruct (parse_pma_cfg pma_cfg s2) as [s3 [[]|e]].
Qed.

Lemma all_legal_derive hs : all_legal (derive <$> hs) ↔ all_legal hs.
Proof. unfold all_legal. by rewrite Forall_fmap. Qed.

(** The statements of the constructor on a new object. *)
Lemma SnitchCluster_construct_spec doc pma_cfg :
  let self := {| cfg := doc; mems := ∅; mems_desc := ∅; tag_width := None |} in
  (constructible doc →
     SnitchCluster_construct pma_cfg self = (constructed doc pma_cfg, Ok tt))
  ∧ (∀ self', SnitchCluster_construct pma_cfg self = (self', Ok tt) →
     constructible doc).
Proof.
  intros self. rewrite SnitchCluster_construct_unfold.
  set (s1 := with_cfg (set_pkg_name (name (cfg self) +:+ "_pkg") (cfg self)) self).
  assert (Hdiv : sanity_rules doc →
                 tcdm_banks (tcdm (cfg s1)) * (data_width (cfg s1) / 8) ≠ 0).
  { intros [_ R2 _ _ _ _ _ R8]. apply power_of_two_pos in R8. simpl.
    destruct R2 as [-> | ->]; change (64 / 8) with 8; change (32 / 8) with 4; lia. }
  split.
  - intros (HR & Hder & Hleg).
    apply cfg_validate_chain_pass_iff in HR as Hchain. cbn [cfg self]. rewrite Hchain.
    assert (Hok : is_ok (calc_cache_sizes s1).2 = true)
      by (apply calc_cache_sizes_ok_iff; split; [by apply Hdiv|done]).
    destruct (calc_cache_sizes s1) as [s2 [[]|e]] eqn:Hcalc; [|done].
    apply calc_cache_sizes_run_inv in Hcalc. rewrite parse_pma_cfg_run.
    match goal with
    | |- parse_cores ?s3 = _ =>
        destruct (parse_cores_run s3) as [Hrun _];
        [|rewrite Hrun]
    end.
    + rewrite Hcalc. cbn [cfg with_cfg set_pmas hives with_hives set_hives].
      by apply all_legal_derive.
    + rewrite Hcalc. unfold constructed, tag_width_after. cbn.
      rewrite length_fmap. reflexivity.
  - intros self'. cbn [cfg self].
    destruct (cfg_validate_chain doc) as [[msg|]|e] eqn:Hchain; [done| |done].
    apply cfg_validate_chain_pass_iff in Hchain.
    destruct (calc_cache_sizes s1) as [s2 [[]|e]] eqn:Hcalc; [|done].
    assert (Hok : is_ok (calc_cache_sizes s1).2 = true) by (by rewrite Hcalc).
    apply calc_cache_sizes_ok_iff in Hok as [_ Hder].
    apply calc_cache_sizes_run_inv in Hcalc. rewrite parse_pma_cfg_run.
    intros Hcores.
    assert (Hok : is_ok (parse_cores
      (with_cfg (set_pmas {| cached := cached_regions (regions pma_cfg) |} (cfg s2)) s2)).2
      = true) by (by rewrite Hcores).
    apply parse_cores_outcome in Hok. rewrite Hcalc in Hok.
    cbn [cfg with_cfg set_pmas hives with_hives set_hives] in Hok.
    rewrite all_legal_derive in Hok. split; [done|]. split; [exact Hder | exact Hok].
Qed.

Lemma elem_of_concat {A} (x : A) (ls : list (list A)) :
  x ∈ concat ls ↔ ∃ l, x ∈ l ∧ l ∈ ls.
Proof.
  induction ls as [|l ls IH]; simpl.
  - split; [by intros ?%elem_of_nil|]. by intros (l & _ & ?%elem_of_nil).
  - rewrite elem_of_app, IH. split.
    + intros [Hx|(l' & Hx & Hl')]; [exists l; split; [done|left]|].
      exists l'. split; [done|by right].
    + intros (l' & Hx & Hl'). apply elem_of_cons in Hl' as [->|Hl']; [by left|].
      right. by exists l'.
Qed.

Section ConstructionContract.
Variable validate_cluster : cluster_cfg → result cluster_cfg.
Variable validate_tb : tb_cfg → result tb_cfg.

Lemma SnitchCluster_init_spec doc pma_cfg self :
  SnitchCluster_init validate_cluster doc pma_cfg = Ok self ↔
  ∃ doc', validate_cluster doc = Ok doc' ∧ constructible doc'
          ∧ self = constructed doc' pma_cfg.
Proof.
  unfold SnitchCluster_init.
  destruct (validate_cluster doc) as [doc'|e]; simpl.
  2:{ split; [done|]. by intros (? & [=] & _). }
  destruct (SnitchCluster_construct_spec doc' pma_cfg) as [Hok Hinv].
  simpl in Hok, Hinv. split.
  - destruct (SnitchCluster_construct pma_cfg _) as [s' [[]|e]] eqn:E; [|done].
    intros [= <-]. exists doc'. split; [done|].
    pose proof (Hinv _ eq_refl) as Hc. split; [done|].
    specialize (Hok Hc). by injection Hok as <-.
  - intros (d & [= <-] & Hc & ->). by rewrite (Hok Hc).
Qed.


(** X14.  The constructor ends before anything is derived when the
    document is rejected: the exception of the schema validation goes
    through as it is, and a validated document that violates one of
    the eight rules (with a TCDM size and bank count that are positive)
    makes it exit with "Failed parameter validation.". *)
Theorem SnitchCluster_init_rejects (doc : cluster_cfg) (pma_cfg : PMACfg) :
  (∀ e, validate_cluster doc = Raise e →
        SnitchCluster_init validate_cluster doc pma_cfg = Raise e)
  ∧ (∀ doc', validate_cluster doc = Ok doc' →
       0 < tcdm_size (tcdm doc') → 0 < tcdm_banks (tcdm doc') →
       ¬ sanity_rules doc' →
       SnitchCluster_init validate_cluster doc pma_cfg
       = Raise (SystemExit "Failed parameter validation.")).
Proof.
  split.
  - intros e He. unfold SnitchCluster_init. by rewrite He.
  - intros doc' Hv Hs Hb Hn. unfold SnitchCluster_init. rewrite Hv. simpl.
    rewrite SnitchCluster_construct_unfold. simpl.
    destruct (cfg_validate_chain_returns doc' Hs Hb) as [[msg|] Hchain];
      rewrite Hchain; [done|].
    by apply cfg_validate_chain_pass_iff in Hchain.
Qed.

(** X15.  The L1 region of a constructed cluster is the base address
    of the cluster and the size of the TCDM as the validated document
    has them (the size in the unit of the document, KiB): construction
    changes neither. *)
Theorem l1_region_constructed (doc doc' : cluster_cfg) (pma_cfg : PMACfg)
    (self : SnitchCluster) :
  validate_cluster doc = Ok doc' →
  SnitchCluster_init validate_cluster doc pma_cfg = Ok self →
  l1_region self = (cluster_base_addr doc', tcdm_size (tcdm doc')).
Proof.
  intros Hv Hinit. apply SnitchCluster_init_spec in Hinit as (d & Hd & _ & ->).
  rewrite Hv in Hd. by injection Hd as <-.
Qed.

(** X16.  In a constructed cluster [nr_hives] and [nr_cores] count the
    hives and the entries of [cores], and every entry of [cores] names
    a hive that holds this very core and carries the result of parsing
    its own ISA string. *)
Theorem SnitchCluster_init_cores (doc : cluster_cfg) (pma_cfg : PMACfg)
    (self : SnitchCluster) :
  SnitchCluster_init validate_cluster doc pma_cfg = Ok self →
  ∃ flat,
    cores (cfg self) = Some flat
    ∧ nr_cores (cfg self) = Some (Z.of_nat (length flat))
    ∧ nr_hives (cfg self) = Some (Z.of_nat (length (hives (cfg self))))
    ∧ ∀ core, core ∈ flat →
        ∃ (i : nat) h parsed,
          hive core = Some (Z.of_nat i)
          ∧ hives (cfg self) !! i = Some h ∧ core ∈ hive_cores h
          ∧ isa_parsed core = Some parsed
          ∧ parse_isa_string (isa core) = Ok parsed.
Proof.
  intros (doc' & _ & (_ & _ & Hleg) & ->)%SnitchCluster_init_spec.
  eexists. split; [reflexivity|]. split; [reflexivity|].
  split; [simpl; by rewrite length_imap, length_fmap|].
  intros core Hin. simpl in Hin.
  apply elem_of_concat in Hin as (cs & Hcore & Hcs).
  apply list_elem_of_fmap in Hcs as (h' & -> & Hh').
  apply list_elem_of_lookup in Hh' as [i Hi].
  pose proof Hi as Hi'. rewrite list_lookup_imap, list_lookup_fmap in Hi'.
  destruct (hives doc' !! i) as [h|] eqn:Hh; [|done]. simpl in Hi'.
  injection Hi' as <-.
  simpl in Hcore. apply list_elem_of_fmap in Hcore as (c & -> & Hc).
  assert (Hlegal : legal c = true).
  { unfold all_legal in Hleg. rewrite Forall_forall in Hleg.
    specialize (Hleg h (list_elem_of_lookup_2 _ _ _ Hh)).
    rewrite Forall_forall in Hleg. by apply Hleg. }
  unfold legal in Hlegal.
  destruct (parse_isa_string (isa c)) as [parsed|] eqn:Hparse; [|done].
  exists i, (annotated_hive i (derive h)), parsed. simpl.
  split; [done|]. split; [exact Hi|].
  split; [apply list_elem_of_fmap; by exists c|].
  by rewrite Hparse.
Qed.
End ConstructionContract.

(** ** The memory map, call by call *)

Lemma do_calls_cfg cs self : cfg (do_calls cs self) = cfg self.
Proof. revert self. induction cs as [|c cs IH]; intros self; simpl; [done|]. by rewrite IH. Qed.

Lemma do_calls_tag_width cs self : tag_width (do_calls cs self) = tag_width self.
Proof. revert self. induction cs as [|c cs IH]; intros self; simpl; [done|]. by rewrite IH. Qed.

Lemma add_hive_mems_calls i h self tw :
  is_Some (icache_depth (icache h)) → tag_width self = Some tw →
  add_hive_mems (i, h) self = (do_calls (hive_calls tw i h) self, Ok tt).
Proof.
  intros [depth Hdepth] Htw. rewrite (add_hive_mems_run _ _ _ depth tw Hdepth Htw).
  unfold hive_calls. by rewrite Hdepth.
Qed.

(** The first loop of [memory_cfg], from any index on. *)
Lemma add_hive_mems_loop hs (off : nat) self tw :
  Forall (λ h, is_Some (icache_depth (icache h))) hs →
  tag_width self = Some tw →
  for_each (imap (λ j h, (off + j, h)%nat) hs) add_hive_mems self =
    (do_calls (concat (imap (λ j, hive_calls tw (off + j)) hs)) self, Ok tt).
Proof.
  revert off self. induction hs as [|h hs IH]; intros off self Hd Htw; [done|].
  apply Forall_cons in Hd as [[depth Hdepth] Hd].
  rewrite !imap_cons. cbn [for_each concat]. rewrite method_bind_unfold.
  rewrite (add_hive_mems_calls _ _ _ tw (ex_intro _ depth Hdepth) Htw).
  rewrite do_calls_app.
  assert (E1 : imap ((λ (j : nat) (h0 : hive_cfg), ((off + j)%nat, h0)) ∘ S) hs
               = imap (λ (j : nat) (h0 : hive_cfg), ((S off + j)%nat, h0)) hs)
    by (apply imap_ext; intros j x _; simpl; f_equal; lia).
  assert (E2 : imap ((λ j : nat, hive_calls tw (off + j)) ∘ S) hs
               = imap (λ j : nat, hive_calls tw (S off + j)) hs)
    by (apply imap_ext; intros j x _; simpl; f_equal; lia).
  rewrite E1, E2. apply IH; [done|by rewrite do_calls_tag_width].
Qed.

(** [memory_cfg] on an object that has what it reads. *)
Lemma memory_cfg_run self :
  memory_ready self →
  memory_cfg self = mem_entries (do_calls (memory_calls self) self).
Proof.
  intros ([depth Hdepth] & Hhives & Htw).
  unfold memory_cfg, from_option, lift, get_self, modify.
  rewrite !method_bind_unfold. cbn [fst snd]. rewrite Hdepth.
  rewrite ?method_bind_unfold. cbn [fst snd]. rewrite ?method_bind_unfold.
  unfold memory_calls. rewrite Hdepth. cbn [default do_calls fold_left do_call
    call_words call_width call_byte_enable call_desc call_speed_optimized
    call_density_optimized].
  destruct Htw as [Hnil|[tw Htw]].
  - rewrite Hnil. reflexivity.
  - rewrite Htw. cbn [default].
    pose proof (add_hive_mems_loop (hives (cfg self)) 0
      (add_mem depth (data_width (cfg self)) true (Some "tcdm") true false self) tw
      Hhives Htw) as Hloop.
    cbn [Nat.add] in Hloop.
    change (imap (λ j h, (j, h)) (hives (cfg self)))
      with (imap pair (hives (cfg self))) in Hloop.
    rewrite Hloop. reflexivity.
Qed.

Lemma memory_calls_do_calls cs self :
  memory_calls (do_calls cs self) = memory_calls self.
Proof. unfold memory_calls. by rewrite do_calls_cfg, do_calls_tag_width. Qed.

Lemma memory_ready_do_calls cs self :
  memory_ready self → memory_ready (do_calls cs self).
Proof. unfold memory_ready. by rewrite do_calls_cfg, do_calls_tag_width. Qed.

(** The memory map after any calls on a new builder, entry by entry. *)
Lemma mem_entries_new_builder c tw cs :
  mem_entries (do_calls cs (new_builder c tw)) =
    (do_calls cs (new_builder c tw),
     Ok ((λ k, entry_of (filed (call_desc <$> filter (λ x, key_of_call x = k) cs)) k)
           <$> elements (list_to_set (key_of_call <$> cs) : gset mem_key))).
Proof.
  rewrite mem_entries_ok by apply do_calls_ok, new_builder_ok.
  rewrite do_calls_mems. cbn [mems new_builder]. rewrite (left_id_L ∅ (∪)).
  f_equal. f_equal. apply list_fmap_ext. intros i k Hk.
  apply list_elem_of_lookup_2, elem_of_elements, elem_of_list_to_set in Hk.
  f_equal. unfold descs_at. rewrite do_calls_desc. cbn [mems_desc new_builder].
  rewrite lookup_empty, fold_file_desc_None; [done|].
  apply list_elem_of_fmap in Hk as (c0 & -> & Hc0).
  intros Hnil.
  assert (Hin : c0 ∈ filter (λ x, key_of_call x = key_of_call c0) cs)
    by (by apply list_elem_of_filter).
  rewrite Hnil in Hin. by apply elem_of_nil in Hin.
Qed.

Lemma filed_all_Some (cs : list mem_call) :
  Forall (λ c, is_Some (call_desc c)) cs →
  filed (call_desc <$> cs) = call_desc <$> cs.
Proof.
  destruct cs as [|c cs]; [done|]. intros [[d Hd] _]%Forall_cons. simpl.
  by rewrite Hd, desc_or_empty_Some.
Qed.

Lemma filed_app_twice (descs : list (option string)) :
  filed (descs ++ descs) = filed descs ++ descs.
Proof. by destruct descs. Qed.

Lemma size_list_to_set_le (l : list mem_key) :
  (size (list_to_set l : gset mem_key) ≤ length l)%nat.
Proof.
  induction l as [|x l IH].
  - rewrite list_to_set_nil, size_empty. done.
  - rewrite list_to_set_cons, size_union_alt, size_singleton. cbn [length].
    pose proof (subseteq_size (list_to_set l ∖ {[x]}) (list_to_set l : gset mem_key)
                  ltac:(set_solver)). lia.
Qed.

Lemma memory_calls_described self :
  Forall (λ c, is_Some (call_desc c)) (memory_calls self).
Proof.
  unfold memory_calls. apply Forall_cons. split; [by eexists|].
  apply Forall_forall. intros call (l & Hcall & Hl)%elem_of_concat.
  apply list_elem_of_lookup in Hl as [i Hi]. rewrite list_lookup_imap in Hi.
  destruct (hives (cfg self) !! i) as [h|]; [|done]. injection Hi as <-.
  unfold hive_calls in Hcall.
  apply elem_of_cons in Hcall as [->|Hcall]; [by eexists|].
  apply elem_of_cons in Hcall as [->|Hcall]; [by eexists|].
  by apply elem_of_nil in Hcall.
Qed.

Lemma memory_calls_length self :
  length (memory_calls self) = S (2 * length (hives (cfg self))).
Proof.
  assert (H : ∀ (g : nat → hive_cfg → list mem_call) hs,
             (∀ i h, length (g i h) = 2%nat) →
             length (concat (imap g hs)) = (2 * length hs)%nat).
  { intros g hs. revert g. induction hs as [|h hs IH]; intros g Hg; [done|].
    rewrite imap_cons. cbn [concat]. rewrite length_app, Hg, IH by (intros; apply Hg).
    cbn [length]. lia. }
  unfold memory_calls. cbn [length]. f_equal. by apply H.
Qed.

Lemma descriptions_for_app k cs1 cs2 :
  descriptions_for k (cs1 ++ cs2) = descriptions_for k cs1 ++ descriptions_for k cs2.
Proof. unfold descriptions_for. by rewrite filter_app, fmap_app. Qed.

Lemma filed_descriptions_for k cs :
  Forall (λ c, is_Some (call_desc c)) cs →
  filed (descriptions_for k cs) = descriptions_for k cs.
Proof.
  intros H. apply filed_all_Some. apply Forall_forall. intros c Hc.
  apply list_elem_of_filter in Hc as [_ Hc]. rewrite Forall_forall in H. by apply H.
Qed.

Lemma key_of_entries (g : mem_key → list (option string)) (l : list mem_key) :
  key_of <$> ((λ k, entry_of (g k) k) <$> l) = l.
Proof.
  rewrite <- list_fmap_compose. rewrite <- (list_fmap_id l) at 2.
  apply list_fmap_ext. intros i k _. simpl. apply key_of_entry_of.
Qed.

Lemma entry_of_eta (e : mem_entry) : entry_of (description e) (key_of e) = e.
Proof. by destruct e. Qed.

Lemma description_entry_of descs k : description (entry_of descs k) = descs.
Proof. by destruct k as [[[[[[[w n] bw] p] l] be] so] do]. Qed.

Lemma described_twice_entry_of descs k :
  described_twice (entry_of descs k) = entry_of (descs ++ descs) k.
Proof. by destruct k as [[[[[[[w n] bw] p] l] be] so] do]. Qed.

Lemma constructed_memory_ready doc pma_cfg : memory_ready (constructed doc pma_cfg).
Proof.
  split; [by eexists|]. split.
  - apply Forall_forall. intros h Hh. simpl in Hh.
    apply list_elem_of_lookup in Hh as [i Hi].
    rewrite list_lookup_imap, list_lookup_fmap in Hi.
    destruct (hives doc !! i) as [h0|]; [|done]. injection Hi as <-. by eexists.
  - simpl. destruct (hives doc) as [|h hs] eqn:E using rev_ind; [by left|].
    right. rewrite last_snoc. by eexists.
Qed.

(** The first [memory_cfg] on an object whose builder is still empty. *)
Lemma memory_cfg_new self :
  memory_ready self → mems self = ∅ → mems_desc self = ∅ →
  memory_cfg self =
    (do_calls (memory_calls self) self,
     Ok ((λ k, entry_of (descriptions_for k (memory_calls self)) k)
           <$> elements (list_to_set (key_of_call <$> memory_calls self) : gset mem_key))).
Proof.
  intros Hready Hm Hd. rewrite memory_cfg_run by done.
  assert (Hself : self = new_builder (cfg self) (tag_width self))
    by (destruct self; simpl in *; by subst).
  rewrite Hself at 2. rewrite mem_entries_new_builder, <- Hself.
  f_equal. f_equal. apply list_fmap_ext. intros i k _. f_equal.
  apply filed_descriptions_for, memory_calls_described.
Qed.

(** The second [memory_cfg] in a row. *)
Lemma memory_cfg_again self :
  memory_ready self → mems self = ∅ → mems_desc self = ∅ →
  (memory_cfg (do_calls (memory_calls self) self)).2 =
    Ok ((λ k, entry_of (descriptions_for k (memory_calls self)
                        ++ descriptions_for k (memory_calls self)) k)
          <$> elements (list_to_set (key_of_call <$> memory_calls self) : gset mem_key)).
Proof.
  intros Hready Hm Hd.
  rewrite memory_cfg_run by (by apply memory_ready_do_calls).
  rewrite memory_calls_do_calls, <- do_calls_app.
  assert (Hself : self = new_builder (cfg self) (tag_width self))
    by (destruct self; simpl in *; by subst).
  rewrite Hself at 3. rewrite mem_entries_new_builder. cbn [snd].
  rewrite fmap_app, list_to_set_app_L, (idemp_L (∪)).
  f_equal. apply list_fmap_ext. intros i k _. f_equal.
  change (filed (descriptions_for k (memory_calls self ++ memory_calls self)) =
          descriptions_for k (memory_calls self) ++ descriptions_for k (memory_calls self)).
  rewrite descriptions_for_app, filed_app_twice.
  by rewrite filed_descriptions_for by apply memory_calls_described.
Qed.

(** X17.  After any sequence of [add_mem] calls on a new builder the
    memory map has exactly one entry for each distinct key tuple of the
    calls, and at most as many entries as calls.  The description of an
    entry lists what the calls with its key passed as [desc], in the
    order of the calls; only the first of them went through
    [desc or ""], so that a missing or empty first description is the
    empty string while a later missing one stays [None]. *)
Theorem add_mem_memory_map (c : cluster_cfg) (tw : option Z) (cs : list mem_call) :
  ∃ entries,
    (mem_entries (do_calls cs (new_builder c tw))).2 = Ok entries
    ∧ NoDup (key_of <$> entries)
    ∧ (length entries ≤ length cs)%nat
    ∧ (∀ k, k ∈ key_of <$> entries ↔ k ∈ key_of_call <$> cs)
    ∧ (∀ e, e ∈ entries →
         description e = filed (descriptions_for (key_of e) cs)).
Proof.
  eexists. rewrite mem_entries_new_builder. split; [reflexivity|].
  fold (descriptions_for).
  change (λ k, entry_of (filed (call_desc <$> filter (λ x, key_of_call x = k) cs)) k)
    with (λ k, entry_of ((λ k, filed (descriptions_for k cs)) k) k).
  rewrite key_of_entries. split; [apply NoDup_elements|]. split.
  - rewrite length_fmap. change (length (elements ?X)) with (size X).
    etrans; [apply size_list_to_set_le|]. by rewrite length_fmap.
  - split.
    + intros k. by rewrite elem_of_elements, elem_of_list_to_set.
    + intros e (k & -> & _)%list_elem_of_fmap.
      by rewrite key_of_entry_of, description_entry_of.
Qed.

Section MemoryMap.
Variable validate_cluster : cluster_cfg → result cluster_cfg.

(** X18.  On a cluster that the constructor returned, [memory_cfg]
    returns: it makes the call for the TCDM and the two calls of each
    hive, and its map has one entry per distinct key tuple of these
    calls, between one and [1 + 2 * len(hives)] of them, each with the
    descriptions of the calls that have its key, in their order. *)
Theorem memory_cfg_constructed (doc : cluster_cfg) (pma_cfg : PMACfg)
    (self : SnitchCluster) :
  SnitchCluster_init validate_cluster doc pma_cfg = Ok self →
  ∃ entries,
    memory_cfg self = (do_calls (memory_calls self) self, Ok entries)
    ∧ NoDup (key_of <$> entries)
    ∧ (1 ≤ length entries ≤ 1 + 2 * length (hives (cfg self)))%nat
    ∧ ∀ e, e ∈ entries ↔
        (∃ c, c ∈ memory_calls self ∧ key_of e = key_of_call c)
        ∧ description e = descriptions_for (key_of e) (memory_calls self).
Proof.
  intros (doc' & _ & _ & ->)%(SnitchCluster_init_spec validate_cluster).
  set (self := constructed doc' pma_cfg).
  eexists. rewrite (memory_cfg_new self (constructed_memory_ready _ _) eq_refl eq_refl).
  split; [reflexivity|]. rewrite key_of_entries.
  split; [apply NoDup_elements|]. split.
  - rewrite length_fmap. change (length (elements ?X)) with (size X). split.
    + unfold memory_calls. rewrite fmap_cons, list_to_set_cons.
      match goal with |- (1 ≤ size ?X)%nat => enough (size X ≠ 0%nat) by lia end.
      apply size_non_empty_iff. set_solver.
    + etrans; [apply size_list_to_set_le|].
      rewrite length_fmap, memory_calls_length. simpl. lia.
  - intros e. rewrite list_elem_of_fmap. split.
    + intros (k & -> & Hk). rewrite key_of_entry_of.
      apply elem_of_elements, elem_of_list_to_set, list_elem_of_fmap in Hk
        as (c & -> & Hc).
      split; [by exists c|]. by rewrite description_entry_of.
    + intros [(c & Hc & Hkey) Hdesc]. exists (key_of e). split.
      * rewrite <- Hdesc. by rewrite entry_of_eta.
      * apply elem_of_elements, elem_of_list_to_set, list_elem_of_fmap. by exists c.
Qed.

(** X19.  [memory_cfg] files its memories again on every call: a
    second call on a constructed cluster returns the entries of the
    first, in the same order, each with its descriptions twice. *)
Theorem memory_cfg_twice (doc : cluster_cfg) (pma_cfg : PMACfg)
    (self : SnitchCluster) :
  SnitchCluster_init validate_cluster doc pma_cfg = Ok self →
  ∃ self' entries,
    memory_cfg self = (self', Ok entries)
    ∧ (memory_cfg self').2 = Ok (described_twice <$> entries).
Proof.
  intros (doc' & _ & _ & ->)%(SnitchCluster_init_spec validate_cluster).
  set (self := constructed doc' pma_cfg).
  eexists _, _.
  rewrite (memory_cfg_new self (constructed_memory_ready _ _) eq_refl eq_refl).
  split; [reflexivity|].
  rewrite (memory_cfg_again self (constructed_memory_ready _ _) eq_refl eq_refl).
  f_equal. rewrite <- list_fmap_compose. apply list_fmap_ext. intros i k _. simpl.
  by rewrite described_twice_entry_of.
Qed.
End MemoryMap.

(** ** Physical memory attributes, again *)

(** X20.  [parse_pma_cfg] starts from an empty partition every time:
    a second call replaces what the first one left rather than
    extending it.  It changes nothing of the object but the key
    [pmas] of the document, and it never raises. *)
Theorem parse_pma_cfg_replaces (first second : PMACfg) (self : SnitchCluster) :
  parse_pma_cfg second (parse_pma_cfg first self).1 = parse_pma_cfg second self
  ∧ (parse_pma_cfg second self).2 = Ok tt
  ∧ (let self' := (parse_pma_cfg second self).1 in
     mems self' = mems self ∧ mems_desc self' = mems_desc self
     ∧ tag_width self' = tag_width self
     ∧ ∀ p, set_pmas p (cfg self') = set_pmas p (cfg self)).
Proof.
  rewrite !parse_pma_cfg_run. simpl. done.
Qed.

(** ** The test bench *)

Section TestBench.
Variable validate_cluster : cluster_cfg → result cluster_cfg.
Variable validate_tb : tb_cfg → result tb_cfg.

End TestBench.

(** ** Default filling, property by property *)

Lemma dict_get_app k fields added :
  dict_get k (fields ++ added) =
  match dict_get k fields with Some v => Some v | None => dict_get k added end.
Proof.
  induction fields as [|[k' v'] rest IH]; simpl; [done|].
  by destruct (String.eqb k k').
Qed.

Lemma dict_set_app k v fields added :
  dict_set k v (fields ++ added) =
  match dict_get k fields with
  | Some _ => dict_set k v fields ++ added
  | None => fields ++ dict_set k v added
  end.
Proof.
  induction fields as [|[k' v'] rest IH]; simpl; [done|].
  destruct (String.eqb k k'); [done|]. rewrite IH.
  by destruct (dict_get k rest).
Qed.

(** The first loop of [set_defaults] on a [dict], key by key. *)
Lemma fill_defaults_obj ps fields :
  ∃ added,
    fill_defaults ps (JObj fields) = (JObj (fields ++ added), Ok tt)
    ∧ ∀ k, dict_get k (fields ++ added) =
           match dict_get k fields with
           | Some v => Some v
           | None => declared_default ps k
           end.
Proof.
  revert fields.
  induction ps as [|property sub rest IH] using properties_ind; intros fields; simpl.
  - exists []. rewrite app_nil_r. split; [done|]. intros k. by destruct (dict_get k fields).
  - destruct (default_of sub) as [dv|]; [|apply IH].
    unfold setdefault. destruct (dict_get property fields) as [v|] eqn:Hp.
    + destruct (IH fields) as (added & Hrun & Hget). exists added. split; [done|].
      intros k. rewrite Hget. destruct (dict_get k fields) eqn:Hk; [done|].
      destruct (String.eqb k property) eqn:E; [|done].
      apply String.eqb_eq in E. subst k. by rewrite Hp in Hk.
    + destruct (IH (fields ++ [(property, dv)])) as (added & Hrun & Hget).
      exists ((property, dv) :: added).
      rewrite <- app_assoc in Hrun, Hget. cbn [app] in Hrun, Hget.
      split; [done|]. intros k. rewrite Hget, dict_get_app. simpl.
      destruct (dict_get k fields); [done|]. by destruct (String.eqb k property).
Qed.

Lemma fill_defaults_not_obj ps instance :
  is_obj instance = false →
  fill_defaults ps instance =
    (instance, if any_default ps then Raise (AttributeError "setdefault") else Ok tt).
Proof.
  intros Hno. induction ps as [|property sub rest IH] using properties_ind; simpl; [done|].
  unfold has_default. destruct (default_of sub); simpl; [|exact IH].
  by destruct instance.
Qed.

Lemma Forall2_extends_refl (fs : list (string * json)) :
  Forall2 (λ f g : string * json, f.1 = g.1 ∧ extends f.2 g.2) fs fs.
Proof. induction fs; constructor; [split; [done|constructor]|done]. Qed.

Lemma extends_add fields added j0 :
  extends j0 (JObj fields) → extends j0 (JObj (fields ++ added)).
Proof.
  intros H. inversion H as [j|xs ys Hxs|fs gs added0 Hfs]; subst.
  - apply extends_obj, Forall2_extends_refl.
  - rewrite <- app_assoc. by apply extends_obj.
Qed.

Lemma Forall2_dict_set p v' (fs gs : list (string * json)) :
  Forall2 (λ f g : string * json, f.1 = g.1 ∧ extends f.2 g.2) fs gs →
  (∀ v v0, dict_get p gs = Some v → extends v0 v → extends v0 v') →
  Forall2 (λ f g : string * json, f.1 = g.1 ∧ extends f.2 g.2) fs (dict_set p v' gs).
Proof.
  induction 1 as [|[k0 w0] [k w] fs gs [Hk Hw] Hrest IH]; intros Hv; simpl; [constructor|].
  simpl in Hk, Hw. subst k0. simpl in Hv.
  destruct (String.eqb p k) eqn:E.
  - constructor; [|done]. split; [done|]. simpl. by apply (Hv w).
  - constructor; [done|]. by apply IH.
Qed.

Lemma extends_dict_set p v v' fields j0 :
  dict_get p fields = Some v →
  (∀ v0, extends v0 v → extends v0 v') →
  extends j0 (JObj fields) → extends j0 (JObj (dict_set p v' fields)).
Proof.
  intros Hp Hv H. inversion H as [j|xs ys Hxs|fs gs added Hfs]; subst.
  - rewrite <- (app_nil_r (dict_set p v' fields)). apply extends_obj.
    apply Forall2_dict_set; [apply Forall2_extends_refl|].
    intros w w0 Hw. rewrite Hp in Hw. injection Hw as <-. apply Hv.
  - rewrite dict_set_app. rewrite dict_get_app in Hp.
    destruct (dict_get p gs) as [w|] eqn:Hw.
    + injection Hp as ->. apply extends_obj. apply Forall2_dict_set; [done|].
      intros w w0 Hw'. rewrite Hw in Hw'. injection Hw' as <-. apply Hv.
    + by apply extends_obj.
Qed.

Lemma Forall2_descend_each (f : json → json * result unit) xs0 xs :
  (∀ j0 j, extends j0 j → extends j0 (f j).1) →
  Forall2 extends xs0 xs → Forall2 extends xs0 (descend_each f xs).1.
Proof.
  intros Hf. induction 1 as [|x0 x xs0 xs Hx Hrest IH]; simpl; [constructor|].
  specialize (Hf x0 x Hx).
  destruct (f x) as [x' [[]|e]]; simpl in Hf.
  - destruct (descend_each f xs) as [rest' r]. simpl in *. by constructor.
  - by constructor.
Qed.

Lemma extends_descend_each (f : json → json * result unit) xs j0 :
  (∀ j0 j, extends j0 j → extends j0 (f j).1) →
  extends j0 (JArr xs) → extends j0 (JArr (descend_each f xs).1).
Proof.
  intros Hf H. inversion H as [j|xs0 ys Hxs|fs gs added Hfs]; subst.
  - apply extends_arr, Forall2_descend_each; [done|].
    clear. induction xs; constructor; [constructor|done].
  - by apply extends_arr, Forall2_descend_each.
Qed.

Lemma fill_defaults_extends ps instance j0 :
  extends j0 instance → extends j0 (fill_defaults ps instance).1.
Proof.
  destruct instance as [| | | | |fields];
    try (intros H; by rewrite fill_defaults_non_obj).
  destruct (fill_defaults_obj ps fields) as (added & -> & _). apply extends_add.
Qed.

Lemma descend_extends :
  (∀ s j0 instance, extends j0 instance → extends j0 (descend s instance).1)
  ∧ (∀ ps j0 instance,
       extends j0 instance → extends j0 (validate_properties ps instance).1).
Proof.
  apply schema_properties_ind.
  - done.
  - intros v rest IH j0 instance H. simpl. by apply IH.
  - intros ps IHps rest IH j0 instance H. simpl.
    pose proof (fill_defaults_extends ps instance j0 H) as H1.
    destruct (fill_defaults ps instance) as [i1 [[]|e]]; [|done]. simpl in H1.
    pose proof (IHps j0 i1 H1) as H2.
    destruct (validate_properties ps i1) as [i2 [[]|e]]; [|done]. by apply IH.
  - intros sub IHsub rest IH j0 instance H. simpl.
    destruct instance as [| | | |xs|fields]; try by apply IH.
    pose proof (extends_descend_each (descend sub) xs j0 (IHsub) H) as H1.
    destruct (descend_each (descend sub) xs) as [xs' [[]|e]]; [|done]. by apply IH.
  - intros check rest IH j0 instance H. simpl.
    destruct (check instance); [by apply IH|done].
  - done.
  - intros property sub IHsub rest IH j0 instance H. simpl.
    destruct instance as [| | | | |fields]; try done.
    destruct (dict_get property fields) as [v|] eqn:Hget; [|by apply IH].
    pose proof (extends_dict_set property v (descend sub v).1 fields j0 Hget
                  (λ v0, IHsub v0 v) H) as H1.
    destruct (descend sub v) as [v' [[]|e]]; [|done]. by apply IH.
Qed.

Lemma extends_get k v a b :
  extends a b → get k a = Some v → ∃ v', get k b = Some v' ∧ extends v v'.
Proof.
  intros H. inversion H as [j|xs ys Hxs|fs gs added Hfs]; subst.
  - intros Hk. exists v. split; [done|constructor].
  - done.
  - simpl. rewrite dict_get_app. clear H.
    induction Hfs as [|[k0 w0] [k1 w1] fs gs [Hk Hw] Hrest IH]; simpl; [done|].
    simpl in Hk, Hw. subst k1. destruct (String.eqb k k0).
    + intros [= ->]. by exists w1.
    + apply IH.
Qed.

Lemma extends_scalar a b :
  extends a b → is_obj a = false → is_arr a = false → b = a.
Proof. intros H. by inversion H. Qed.

(** X22.  On a [dict] the first loop of [set_defaults] always goes
    through, and it only appends keys: the instance keeps its keys,
    their order and their values, and a key that was absent gets the
    default that the properties declare for it, when they declare
    one.  A value of the user is never replaced by a default. *)
Theorem set_defaults_fills (ps : properties) (fields : list (string * json)) :
  ∃ added,
    fill_defaults ps (JObj fields) = (JObj (fields ++ added), Ok tt)
    ∧ ∀ k, dict_get k (fields ++ added) =
           match dict_get k fields with
           | Some v => Some v
           | None => declared_default ps k
           end.
Proof. apply fill_defaults_obj. Qed.

(** X23.  [set_defaults] calls [setdefault] before the library has
    looked at the type of the instance: on an instance that is not a
    [dict] it raises [AttributeError] as soon as a property has a
    default, and leaves the instance alone.  [Generator.validate] only
    catches [ValidationError], so for a schema whose first keyword is
    such a ["properties"] the [AttributeError] leaves [validate]
    instead of the [exit] of a failed validation. *)
Theorem set_defaults_not_a_dict (ps : properties) (rest : schema) (instance : json) :
  is_obj instance = false →
  fill_defaults ps instance =
    (instance, if any_default ps then Raise (AttributeError "setdefault") else Ok tt)
  ∧ (any_default ps = true →
     Generator_validate (SProperties ps rest) instance =
       (instance, Raise (AttributeError "setdefault"))).
Proof.
  intros Hno. split; [by apply fill_defaults_not_obj|].
  intros Hany. unfold Generator_validate. simpl.
  rewrite (fill_defaults_not_obj ps instance Hno), Hany. done.
Qed.

(** X24.  However [Generator.validate] ends, the document it leaves is
    the document it was given with keys added: no key is removed or
    moved, no array changes its length, and every value that is
    neither a [dict] nor an array is as the user wrote it.  So under
    every key of the document there is still a value, which extends
    the one of the user and is equal to it when it is a number, a
    string, a truth value or [null]. *)
Theorem Generator_validate_extends (root_schema : schema) (doc : json) :
  extends doc (Generator_validate root_schema doc).1
  ∧ ∀ k v, get k doc = Some v →
      ∃ v', get k (Generator_validate root_schema doc).1 = Some v'
            ∧ extends v v'
            ∧ (is_obj v = false → is_arr v = false → v' = v).
Proof.
  assert (H : extends doc (Generator_validate root_schema doc).1).
  { unfold Generator_validate.
    pose proof (proj1 descend_extends root_schema doc doc (extends_same doc)) as H.
    by destruct (descend root_schema doc) as [d [[]|[]]]. }
  split; [exact H|]. intros k v Hk.
  destruct (extends_get k v _ _ H Hk) as (v' & Hv' & Hext).
  exists v'. split; [done|]. split; [done|]. by apply extends_scalar.
Qed.

(** ** Instances of the further properties *)

Lemma parse_isa_string_accepts_iff_witness :
  is_ok (parse_isa_string "rv32imafd") = true
  ∧ parse_isa_string "RV32IMAFD" = Raise (ValueError "Illegal ISA string.").
Proof.
  split.
  - apply (proj1 (parse_isa_string_accepts_iff "rv32imafd")).
    exists "i"%char, "mafd", "". split; [reflexivity|]. split; [reflexivity|].
    split; [reflexivity|left; reflexivity].
  - apply (proj2 (parse_isa_string_accepts_iff "RV32IMAFD")). vm_compute. reflexivity.
Defined.

Lemma parse_isa_string_flags_witness :
  parse_isa_string "rv32imafd" = Ok (isa_of "i" "mafd").
Proof.
  exact (parse_isa_string_flags "i" "mafd" "" eq_refl eq_refl (or_introl eq_refl)).
Defined.

Lemma parse_isa_string_one_base_witness :
  ∃ isa, parse_isa_string "rv32em" = Ok isa
         ∧ RiscvISA.i isa = negb (RiscvISA.e isa).
Proof.
  eexists. split; [vm_compute; reflexivity|].
  apply (parse_isa_string_one_base "rv32em"). vm_compute. reflexivity.
Defined.

Lemma parse_isa_string_order_irrelevant_witness :
  parse_isa_string "rv32ima" = parse_isa_string "rv32iaam".
Proof.
  apply (parse_isa_string_order_irrelevant "i" "ma" "aam");
    [reflexivity|reflexivity|reflexivity|].
  intros [[] [] [] [] [] [] [] []]; reflexivity.
Defined.

Lemma is_pow2_answers_witness :
  is_pow2 0 = Raise (ValueError "math domain error")
  ∧ is_pow2 512 = Ok false
  ∧ is_pow2 48 = Ok true.
Proof.
  split; [apply (proj1 (is_pow2_answers 0)); lia|].
  split.
  - apply (proj1 (proj2 (is_pow2_answers 512))). exists 9. split; [lia|reflexivity].
  - apply (proj2 (proj2 (is_pow2_answers 48))); [lia|].
    intros [k [Hk H]].
    assert (k < 6) by (apply (Z.pow_lt_mono_r_iff 2); lia).
    assert (Hcases : k = 0 ∨ k = 1 ∨ k = 2 ∨ k = 3 ∨ k = 4 ∨ k = 5) by lia.
    destruct Hcases as [->|[->|[->|[->|[->| ->]]]]]; simpl in H; lia.
Defined.

Lemma to_sv_hex_digits_witness :
  ∃ digits,
    HexString.to_Z ("0x" +:+ digits) = 255
    ∧ to_sv_hex 255 None = "'h" +:+ digits
    ∧ to_sv_hex 255 (Some 8) = pretty 8 +:+ "'h" +:+ digits.
Proof.
  destruct (to_sv_hex_digits 255) as (digits & H1 & H2 & _ & H4); [lia|].
  exists digits. split; [exact H1|]. split; [exact H2|]. apply H4. lia.
Defined.

Lemma to_sv_hex_negative_witness :
  to_sv_hex (-255) None = "'hxff".
Proof.
  destruct (to_sv_hex_negative (-255)) as (_ & H & _); [lia|]. exact H.
Defined.

Lemma cfg_validate_raises_witness :
  cfg_validate (doc_with_banks 0) = ([], Raise ZeroDivisionError).
Proof.
  apply (proj2 (cfg_validate_raises (doc_with_banks 0) ZeroDivisionError)).
  split.
  - split; [simpl; lia|]. split; [right; reflexivity|]. split; [simpl; lia|].
    split; [exists 8; reflexivity|]. exists 9. split; [lia|reflexivity].
  - left. split; reflexivity.
Defined.

Lemma calc_cache_sizes_succeeds_iff_witness :
  ∃ self', calc_cache_sizes (new_builder two_hives_doc None) = (self', Ok tt).
Proof.
  apply (proj1 (calc_cache_sizes_succeeds_iff (new_builder two_hives_doc None))).
  split; [vm_compute; discriminate|].
  repeat constructor; vm_compute; try discriminate; reflexivity.
Defined.

Lemma calc_cache_sizes_result_witness :
  ∃ self',
    calc_cache_sizes (new_builder two_hives_doc None) = (self', Ok tt)
    ∧ hives (cfg self') = derive <$> hives two_hives_doc
    ∧ tcdm_depth (tcdm (cfg self')) = Some 512
    ∧ tag_width self' = Some 38.
Proof.
  assert (H : ∃ self', calc_cache_sizes (new_builder two_hives_doc None) = (self', Ok tt))
    by (eexists; vm_compute; reflexivity).
  destruct H as [self' H]. exists self'. split; [exact H|].
  destruct (calc_cache_sizes_result _ _ H) as (H1 & H2 & H3 & _).
  split; [exact H1|]. split; [exact H2|].
  apply (H3 _ eq_refl). split; vm_compute; discriminate.
Defined.

Lemma parse_cores_result_witness :
  ∃ self',
    parse_cores (new_builder two_hives_doc None) = (self', Ok tt)
    ∧ nr_hives (cfg self') = Some 2 ∧ nr_cores (cfg self') = Some 2.
Proof.
  destruct (parse_cores_result (new_builder two_hives_doc None))
    as (self' & H & _ & _ & Hh & Hc & _).
  { repeat constructor; vm_compute; reflexivity. }
  exists self'. split; [exact H|]. split; [exact Hh|exact Hc].
Defined.

Lemma parse_cores_raises_iff_witness :
  (parse_cores (new_builder (doc_with_isa "RV32I") None)).2
  = Raise (ValueError "Illegal ISA string.").
Proof.
  destruct (parse_cores_raises_iff (new_builder (doc_with_isa "RV32I") None)) as [H1 H2].
  destruct (proj2 H1) as [e He].
  { intros Hl. apply Forall_cons in Hl as [Hc _]. apply Forall_cons in Hc as [Hleg _].
    vm_compute in Hleg. discriminate Hleg. }
  rewrite He. f_equal. apply (H2 e He).
Defined.


Lemma SnitchCluster_init_rejects_witness :
  SnitchCluster_init Ok (doc_with_dma 48) PMACfg_init
  = Raise (SystemExit "Failed parameter validation.").
Proof.
  apply (proj2 (SnitchCluster_init_rejects Ok (doc_with_dma 48) PMACfg_init)
           (doc_with_dma 48)); [reflexivity|simpl; lia|simpl; lia|].
  intros [_ _ _ [k Hk] _ _ _ _]. simpl in Hk. lia.
Defined.

Lemma l1_region_constructed_witness :
  l1_region two_hives_cluster = (0, 128).
Proof.
  apply (l1_region_constructed Ok two_hives_doc two_hives_doc PMACfg_init);
    [reflexivity|vm_compute; reflexivity].
Defined.

Lemma SnitchCluster_init_cores_witness :
  ∃ flat,
    cores (cfg two_hives_cluster) = Some flat
    ∧ nr_cores (cfg two_hives_cluster) = Some (Z.of_nat (length flat))
    ∧ nr_hives (cfg two_hives_cluster) = Some 2.
Proof.
  destruct (SnitchCluster_init_cores Ok two_hives_doc PMACfg_init two_hives_cluster)
    as (flat & H1 & H2 & H3 & _); [vm_compute; reflexivity|].
  exists flat. split; [exact H1|]. split; [exact H2|exact H3].
Defined.

Lemma add_mem_memory_map_witness :
  ∃ entries,
    (mem_entries (do_calls [call_a; call_b] (new_builder two_hives_doc None))).2
      = Ok entries
    ∧ (length entries ≤ 2)%nat
    ∧ ∀ e, e ∈ entries →
        description e = filed (descriptions_for (key_of e) [call_a; call_b]).
Proof.
  destruct (add_mem_memory_map two_hives_doc None [call_a; call_b])
    as (entries & H & _ & Hlen & _ & Hdesc).
  exists entries. split; [exact H|]. split; [exact Hlen|exact Hdesc].
Defined.

Lemma memory_cfg_constructed_witness :
  ∃ entries,
    (memory_cfg two_hives_cluster).2 = Ok entries
    ∧ NoDup (key_of <$> entries)
    ∧ (1 ≤ length entries ≤ 5)%nat.
Proof.
  destruct (memory_cfg_constructed Ok two_hives_doc PMACfg_init two_hives_cluster)
    as (entries & H & Hnd & Hlen & _); [vm_compute; reflexivity|].
  exists entries. split; [by rewrite H|]. split; [exact Hnd|exact Hlen].
Defined.

Lemma memory_cfg_twice_witness :
  ∃ entries,
    (memory_cfg two_hives_cluster).2 = Ok entries
    ∧ (memory_cfg (memory_cfg two_hives_cluster).1).2 = Ok (described_twice <$> entries).
Proof.
  destruct (memory_cfg_twice Ok two_hives_doc PMACfg_init two_hives_cluster)
    as (self' & entries & H & H2); [vm_compute; reflexivity|].
  exists entries. rewrite H. split; [reflexivity|exact H2].
Defined.


Lemma set_defaults_not_a_dict_witness :
  Generator_validate
    (SProperties (PProp "size" (SOther type_number (SDefault (JNum 128) SEnd)) PEnd) SEnd)
    (JArr [])
  = (JArr [], Raise (AttributeError "setdefault")).
Proof.
  apply (set_defaults_not_a_dict
           (PProp "size" (SOther type_number (SDefault (JNum 128) SEnd)) PEnd) SEnd
           (JArr [])); reflexivity.
Defined.

Lemma Generator_validate_extends_witness :
  extends sparse_doc (Generator_validate cluster_schema sparse_doc).1
  ∧ ∃ v', get "hives" (Generator_validate cluster_schema sparse_doc).1 = Some v'.
Proof.
  destruct (Generator_validate_extends cluster_schema sparse_doc) as [H1 H2].
  split; [exact H1|].
  destruct (H2 "hives" _ eq_refl) as (v' & Hv' & _). by exists v'.
Defined.
